(** * In-memory checkpoint saver: a shallow embedding and its properties

    The development follows [libs/checkpoint/langgraph/checkpoint/memory/__init__.py]:
    the three tables of [InMemorySaver] ([storage], [writes], [blobs]), its
    operations [get_tuple], [list], [put], [put_writes], [delete_thread] and
    [get_next_version], and the disk-backed [PersistentDict] with its
    [sync], [close] and [load].

    Python dictionaries keep insertion order and have unique keys; they are
    modelled as association lists in insertion order.  A [defaultdict]
    creates the entry it is asked for with [d[k]]; this side effect of the
    readers is modelled, so every operation passes the store explicitly. *)

From Stdlib Require Import List String Ascii ZArith Bool Lia Sorted Permutation.
Import ListNotations.
Local Open Scope list_scope.

Set Implicit Arguments.

(* ------------------------------------------------------------------ *)
(** ** Keys with a decidable equality (hashable Python values) *)

Class EqKey (K : Type) := {
  keq : K -> K -> bool;
  keq_spec : forall a b, keq a b = true <-> a = b
}.

Lemma keq_refl {K} `{EqKey K} (a : K) : keq a a = true.
Proof. apply keq_spec. reflexivity. Qed.

Lemma keq_false {K} `{EqKey K} (a b : K) : keq a b = false <-> a <> b.
Proof.
  split; intros E.
  - intros ->. rewrite keq_refl in E. discriminate.
  - destruct (keq a b) eqn:Q; [apply keq_spec in Q; contradiction | reflexivity].
Qed.

#[export] Instance EqKey_string : EqKey string :=
  {| keq := String.eqb; keq_spec := String.eqb_eq |}.

#[export] Instance EqKey_Z : EqKey Z :=
  {| keq := Z.eqb; keq_spec := Z.eqb_eq |}.

#[export] Instance EqKey_nat : EqKey nat :=
  {| keq := Nat.eqb; keq_spec := Nat.eqb_eq |}.

Definition pair_eqb {A B} `{EqKey A} `{EqKey B} (p q : A * B) : bool :=
  keq (fst p) (fst q) && keq (snd p) (snd q).

Lemma pair_eqb_spec {A B} `{EqKey A} `{EqKey B} (p q : A * B) :
  pair_eqb p q = true <-> p = q.
Proof.
  destruct p as [a b], q as [a' b']. unfold pair_eqb. simpl.
  rewrite andb_true_iff, !keq_spec. split.
  - intros [-> ->]. reflexivity.
  - intros E. inversion E. auto.
Qed.

#[export] Instance EqKey_pair {A B} `{EqKey A} `{EqKey B} : EqKey (A * B) :=
  {| keq := pair_eqb; keq_spec := pair_eqb_spec |}.

(* ------------------------------------------------------------------ *)
(** ** Insertion-ordered dictionaries *)

Definition Dict (K V : Type) := list (K * V).

Section DictOps.
Context {K V : Type} `{EqKey K}.

(** [d.get(k)] *)
Fixpoint lookup (k : K) (d : Dict K V) : option V :=
  match d with
  | [] => None
  | (k', v) :: d' => if keq k k' then Some v else lookup k d'
  end.

(** [k in d] *)
Definition mem (k : K) (d : Dict K V) : bool :=
  match lookup k d with Some _ => true | None => false end.

(** [d[k] = v]: an existing key keeps its position, a new key goes last. *)
Fixpoint set (k : K) (v : V) (d : Dict K V) : Dict K V :=
  match d with
  | [] => [(k, v)]
  | (k', v') :: d' =>
      if keq k k' then (k', v) :: d' else (k', v') :: set k v d'
  end.

(** [del d[k]] *)
Definition remove (k : K) (d : Dict K V) : Dict K V :=
  filter (fun kv => negb (keq k (fst kv))) d.

Definition keys (d : Dict K V) : list K := map fst d.
Definition values (d : Dict K V) : list V := map snd d.

(** [d[k]] on a [defaultdict]: a missing key is created with the default. *)
Definition touch (k : K) (dflt : V) (d : Dict K V) : Dict K V :=
  if mem k d then d else d ++ [(k, dflt)].

(** [for k in list(d.keys()): if p(k): del d[k]] *)
Definition del_where (p : K -> bool) (d : Dict K V) : Dict K V :=
  fold_left (fun acc k => if p k then remove k acc else acc) (keys d) d.

Definition uniq (d : Dict K V) : Prop := NoDup (keys d).

End DictOps.

(* ------------------------------------------------------------------ *)
(** ** Python values, exceptions and the serializer interface *)

(** The values the store handles are Python objects of unknown shape
    ([Any]).  The store itself only looks at mappings with string keys, at
    strings and at integers, so these are the shapes that the universe
    distinguishes. *)
#[warnings="-register-all"]
Inductive Any : Type :=
| PyNone
| PyInt (z : Z)
| PyStr (s : string)
| PyDict (d : list (string * Any)).

(** Hashable scalars: what may stand as the version component of a blob
    key.  [ChannelVersions] maps a channel to [str | int | float]; floats
    are outside the model. *)
Inductive Version : Type :=
| VNone
| VInt (z : Z)
| VStr (s : string).

Definition version_eqb (a b : Version) : bool :=
  match a, b with
  | VNone, VNone => true
  | VInt x, VInt y => Z.eqb x y
  | VStr x, VStr y => String.eqb x y
  | _, _ => false
  end.

Lemma version_eqb_spec (a b : Version) : version_eqb a b = true <-> a = b.
Proof.
  destruct a, b; simpl; try (split; [discriminate | intros Q; inversion Q]); try tauto.
  - rewrite Z.eqb_eq. split; [intros ->; reflexivity | intros Q; inversion Q; reflexivity].
  - rewrite String.eqb_eq. split; [intros ->; reflexivity | intros Q; inversion Q; reflexivity].
Qed.

#[export] Instance EqKey_Version : EqKey Version :=
  {| keq := version_eqb; keq_spec := version_eqb_spec |}.

(** [hash(v)] succeeds on scalars and raises [TypeError] on a [dict]. *)
Definition hashable (a : Any) : option Version :=
  match a with
  | PyNone => Some VNone
  | PyInt z => Some (VInt z)
  | PyStr s => Some (VStr s)
  | PyDict _ => None
  end.

Definition of_version (v : Version) : Any :=
  match v with
  | VNone => PyNone
  | VInt z => PyInt z
  | VStr s => PyStr s
  end.

(** Python's [==] on the universe: mappings compare as mappings, whatever
    the insertion order. *)
Fixpoint py_eq (a b : Any) : bool :=
  match a, b with
  | PyNone, PyNone => true
  | PyInt x, PyInt y => Z.eqb x y
  | PyStr x, PyStr y => String.eqb x y
  | PyDict d1, PyDict d2 =>
      Nat.eqb (List.length d1) (List.length d2) &&
      (fix all_in (l : list (string * Any)) : bool :=
         match l with
         | [] => true
         | (k, v) :: l' =>
             match lookup k d2 with
             | Some v' => py_eq v v'
             | None => false
             end && all_in l'
         end) d1
  | _, _ => false
  end.

Inductive Exn : Type :=
| KeyError
| TypeError
| ValueError
| AttributeError
| NotImplementedError.

(** The outcome of a call that may raise. *)
Inductive Exc (A : Type) : Type :=
| Ok (a : A)
| Raise (e : Exn).
Arguments Ok {A} a.
Arguments Raise {A} e.

Definition bytes := list Byte.byte.

(** A serialized value: [(type_tag, payload)]. *)
Definition Typed : Type := string * bytes.

(** The sentinel stored for a channel that is versioned but has no value. *)
Definition EMPTY : Typed := ("empty"%string, []).

(** [SerializerProtocol], the codec the saver is constructed with. *)
Class SerializerProtocol : Type := {
  dumps_typed : Any -> Typed;
  loads_typed : Typed -> Any
}.

(** The contract of the codec: decoding inverts encoding, and the tag
    ["empty"] is reserved to the store. *)
Class SerializerLaws (serde : SerializerProtocol) : Prop := {
  loads_dumps : forall a, loads_typed (dumps_typed a) = a;
  dumps_tag : forall a, fst (dumps_typed a) <> "empty"%string
}.

(* ------------------------------------------------------------------ *)
(** ** Addresses and the tables *)

(** [RunnableConfig]: the ["configurable"] entries the store reads, and
    the rest of the configuration. *)
Record RunnableConfig : Type := {
  thread_id : string;
  checkpoint_ns : option string;
  checkpoint_id : option string;
  config_rest : list (string * Any)
}.

(** The configuration the store builds: [{"configurable": {"thread_id": t,
    "checkpoint_ns": ns, "checkpoint_id": id}}]. *)
Definition address (t ns : string) (id : option string) : RunnableConfig :=
  {| thread_id := t; checkpoint_ns := Some ns; checkpoint_id := id; config_rest := [] |}.

(** Modelled from the spec: [get_checkpoint_id] of [langgraph.checkpoint.base]
    is not part of the sources; by the spec an address carries
    [checkpoint_id: string | absent], which this function reads. *)
Definition get_checkpoint_id (config : RunnableConfig) : option string :=
  checkpoint_id config.

(** The names the saver imports from [langgraph.checkpoint.base] whose
    definitions are not part of the sources. *)
Class Base : Type := {
  WRITES_IDX_MAP : Dict string Z;
  get_checkpoint_metadata : RunnableConfig -> Any -> Any
}.

(** Truth value of [str | None]. *)
Definition truthy (o : option string) : bool :=
  match o with
  | Some s => negb (String.eqb s "")
  | None => false
  end.

(** The stored triple [(checkpoint, metadata, parent_checkpoint_id)]. *)
Definition Saved : Type := Typed * Typed * option string.

(** The stored write [(task_id, channel, value, task_path)]. *)
Definition WriteEntry : Type := string * string * Typed * string.

Definition WritesKey : Type := string * string * string.
Definition BlobKey : Type := string * string * string * Version.

Record InMemorySaver : Type := {
  storage : Dict string (Dict string (Dict string Saved));
  writes : Dict WritesKey (Dict (string * Z) WriteEntry);
  blobs : Dict BlobKey Typed
}.

(** [InMemorySaver()] *)
Definition empty_saver : InMemorySaver :=
  {| storage := []; writes := []; blobs := [] |}.

Record CheckpointTuple : Type := {
  config : RunnableConfig;
  checkpoint : Any;
  metadata : Any;
  parent_config : option RunnableConfig;
  pending_writes : list (string * string * Any)
}.

Definition get_or {K V} `{EqKey K} (k : K) (d : Dict K V) (dflt : V) : V :=
  match lookup k d with
  | Some v => v
  | None => dflt
  end.

(** [self.storage[thread_id][checkpoint_ns]] on the nested [defaultdict]:
    both levels are created when missing. *)
Definition storage_touch (t ns : string) (s : InMemorySaver) : InMemorySaver :=
  let st := touch t [] (storage s) in
  {| storage := set t (touch ns [] (get_or t st [])) st;
     writes := writes s;
     blobs := blobs s |}.

Definition storage_at (t ns : string) (s : InMemorySaver) : Dict string Saved :=
  get_or ns (get_or t (storage s) []) [].

(** [self.writes[key]] on the [defaultdict]. *)
Definition writes_touch (key : WritesKey) (s : InMemorySaver) : InMemorySaver :=
  {| storage := storage s;
     writes := touch key [] (writes s);
     blobs := blobs s |}.

Definition writes_at (key : WritesKey) (s : InMemorySaver) : Dict (string * Z) WriteEntry :=
  get_or key (writes s) [].

(* ------------------------------------------------------------------ *)
(** ** Ordering of checkpoint ids *)

(** [max(ids)]: the first maximal element. *)
Fixpoint max_from (x : string) (l : list string) : string :=
  match l with
  | [] => x
  | y :: l' => max_from (if String.ltb x y then y else x) l'
  end.

Definition py_max (l : list string) : option string :=
  match l with
  | [] => None
  | x :: l' => Some (max_from x l')
  end.

(** [sorted(items, key=lambda x: x[0], reverse=True)]: a stable sort,
    greatest key first. *)
Fixpoint insert_desc {V} (x : string * V) (l : list (string * V)) : list (string * V) :=
  match l with
  | [] => [x]
  | y :: l' => if String.leb (fst y) (fst x) then x :: l else y :: insert_desc x l'
  end.

Definition sorted_desc {V} (l : list (string * V)) : list (string * V) :=
  fold_right insert_desc [] l.

(* ------------------------------------------------------------------ *)
(** ** The saver's operations *)

Section Saver.
Context {serde : SerializerProtocol} {base : Base}.

(** [InMemorySaver._load_blobs], the loop body over [versions.items()]. *)
Fixpoint load_blobs_items (b : Dict BlobKey Typed) (t ns : string)
    (versions : list (string * Any)) (channel_values : Dict string Any)
    : Exc (Dict string Any) :=
  match versions with
  | [] => Ok channel_values
  | (k, v) :: rest =>
      match hashable v with
      | None => Raise TypeError
      | Some hv =>
          match lookup (t, ns, k, hv) b with
          | Some vv =>
              if negb (String.eqb (fst vv) "empty")
              then load_blobs_items b t ns rest (set k (loads_typed vv) channel_values)
              else load_blobs_items b t ns rest channel_values
          | None => load_blobs_items b t ns rest channel_values
          end
      end
  end.

(** [InMemorySaver._load_blobs] *)
Definition _load_blobs (s : InMemorySaver) (t ns : string) (versions : Any)
    : Exc (Dict string Any) :=
  match versions with
  | PyDict d => load_blobs_items (blobs s) t ns d []
  | _ => Raise AttributeError
  end.

Definition parent_address (t ns : string) (parent : option string) : option RunnableConfig :=
  if truthy parent then Some (address t ns parent) else None.

(** The construction of the [CheckpointTuple] of a stored triple, which
    [get_tuple] (twice) and [list] spell out in the same words: the
    pending writes of the checkpoint are fetched from the [defaultdict],
    the core state is decoded and merged with the channel values resolved
    against the blob table. *)
Definition checkpoint_tuple (s : InMemorySaver) (cfg : RunnableConfig)
    (t ns id : string) (saved : Saved) : InMemorySaver * Exc CheckpointTuple :=
  let '(checkpoint_b, metadata_b, parent_checkpoint_id) := saved in
  let s' := writes_touch (t, ns, id) s in
  let writes_ := values (writes_at (t, ns, id) s') in
  match loads_typed checkpoint_b with
  | PyDict checkpoint_ =>
      match lookup "channel_versions"%string checkpoint_ with
      | None => (s', Raise KeyError)
      | Some versions =>
          match _load_blobs s' t ns versions with
          | Raise e => (s', Raise e)
          | Ok channel_values =>
              (s', Ok {| config := cfg;
                         checkpoint :=
                           PyDict (set "channel_values"%string (PyDict channel_values) checkpoint_);
                         metadata := loads_typed metadata_b;
                         parent_config := parent_address t ns parent_checkpoint_id;
                         pending_writes :=
                           map (fun w : WriteEntry =>
                                  let '(id_, c, v, _) := w in (id_, c, loads_typed v))
                               writes_ |})
          end
      end
  | _ => (s', Raise TypeError)
  end.

(** The result of [get_tuple] when a checkpoint was found: its tuple, or
    the exception that building the tuple raised. *)
Definition found (r : Exc CheckpointTuple) : Exc (option CheckpointTuple) :=
  match r with
  | Ok tup => Ok (Some tup)
  | Raise e => Raise e
  end.

(** [config["configurable"].get("checkpoint_ns", "")] *)
Definition namespace_of (config : RunnableConfig) : string :=
  match checkpoint_ns config with
  | Some n => n
  | None => ""%string
  end.

(** [InMemorySaver.get_tuple] *)
Definition get_tuple (s : InMemorySaver) (config : RunnableConfig)
    : InMemorySaver * Exc (option CheckpointTuple) :=
  let t := thread_id config in
  let ns := namespace_of config in
  let s1 := storage_touch t ns s in
  let checkpoints := storage_at t ns s1 in
  if truthy (get_checkpoint_id config) then
    let id := match get_checkpoint_id config with Some i => i | None => ""%string end in
    match lookup id checkpoints with
    | Some saved =>
        let '(s2, r) := checkpoint_tuple s1 config t ns id saved in
        (s2, found r)
    | None => (s1, Ok None)
    end
  else
    match py_max (keys checkpoints) with
    | Some id =>
        match lookup id checkpoints with
        | Some saved =>
            let '(s2, r) := checkpoint_tuple s1 (address t ns (Some id)) t ns id saved in
            (s2, found r)
        | None => (s1, Raise KeyError)
        end
    | None => (s1, Ok None)
    end.

(** The metadata filter of [list]:
    [filter and not all(v == metadata.get(k) for k, v in filter.items())]
    is the negation of this test. *)
Definition metadata_matches (filter : option (Dict string Any)) (metadata_ : Any) : Exc bool :=
  match filter with
  | None => Ok true
  | Some [] => Ok true
  | Some f =>
      match metadata_ with
      | PyDict md => Ok (forallb (fun q => py_eq (snd q) (get_or (fst q) md PyNone)) f)
      | _ => Raise AttributeError
      end
  end.

(** The [before] test of [list]:
    [before and (before_checkpoint_id := get_checkpoint_id(before))
     and checkpoint_id >= before_checkpoint_id]. *)
Definition before_excludes (before : option RunnableConfig) (id : string) : bool :=
  match before with
  | None => false
  | Some b =>
      match get_checkpoint_id b with
      | Some x => negb (String.eqb x "") && String.leb x id
      | None => false
      end
  end.

(** What a run of the generator [list] leaves behind: the store, the
    remaining [limit], the tuples yielded so far and the exception that
    ended the run, if one did. *)
Definition Run : Type := InMemorySaver * option Z * list CheckpointTuple * option Exn.

(** The innermost loop of [list], over the sorted items of one namespace. *)
Fixpoint list_items (config_checkpoint_id : option string)
    (filter : option (Dict string Any)) (before : option RunnableConfig)
    (t ns : string) (items : list (string * Saved))
    (s : InMemorySaver) (limit : option Z) : Run :=
  match items with
  | [] => (s, limit, [], None)
  | (id, saved) :: rest =>
      let continue_ := list_items config_checkpoint_id filter before t ns rest in
      if truthy config_checkpoint_id
         && negb (String.eqb id (match config_checkpoint_id with Some c => c | None => "" end))
      then continue_ s limit
      else if before_excludes before id then continue_ s limit
      else
        match metadata_matches filter (loads_typed (snd (fst saved))) with
        | Raise e => (s, limit, [], Some e)
        | Ok false => continue_ s limit
        | Ok true =>
            match limit with
            | Some n =>
                if (n <=? 0)%Z then (s, limit, [], None)
                else
                  let '(s', r) := checkpoint_tuple s (address t ns (Some id)) t ns id saved in
                  match r with
                  | Raise e => (s', Some (n - 1)%Z, [], Some e)
                  | Ok tup =>
                      let '(s'', limit', out, e) := continue_ s' (Some (n - 1)%Z) in
                      (s'', limit', tup :: out, e)
                  end
            | None =>
                let '(s', r) := checkpoint_tuple s (address t ns (Some id)) t ns id saved in
                match r with
                | Raise e => (s', None, [], Some e)
                | Ok tup =>
                    let '(s'', limit', out, e) := continue_ s' None in
                    (s'', limit', tup :: out, e)
                end
            end
        end
  end.

(** The loop of [list] over the namespaces of one thread. *)
Fixpoint list_namespaces (config_checkpoint_ns config_checkpoint_id : option string)
    (filter : option (Dict string Any)) (before : option RunnableConfig)
    (t : string) (namespaces : list string)
    (s : InMemorySaver) (limit : option Z) : Run :=
  match namespaces with
  | [] => (s, limit, [], None)
  | ns :: rest =>
      let continue_ :=
        list_namespaces config_checkpoint_ns config_checkpoint_id filter before t rest in
      if match config_checkpoint_ns with
         | Some c => negb (String.eqb ns c)
         | None => false
         end
      then continue_ s limit
      else
        let '(s', limit', out, e) :=
          list_items config_checkpoint_id filter before t ns
            (sorted_desc (storage_at t ns s)) s limit in
        match e with
        | Some _ => (s', limit', out, e)
        | None =>
            let '(s'', limit'', out', e') := continue_ s' limit' in
            (s'', limit'', out ++ out', e')
        end
  end.

(** [self.storage[thread_id]] on the outer [defaultdict]. *)
Definition thread_touch (t : string) (s : InMemorySaver) : InMemorySaver :=
  {| storage := touch t [] (storage s); writes := writes s; blobs := blobs s |}.

(** The outer loop of [list], over the thread ids. *)
Fixpoint list_threads (config_checkpoint_ns config_checkpoint_id : option string)
    (filter : option (Dict string Any)) (before : option RunnableConfig)
    (thread_ids : list string) (s : InMemorySaver) (limit : option Z) : Run :=
  match thread_ids with
  | [] => (s, limit, [], None)
  | t :: rest =>
      let s1 := thread_touch t s in
      let '(s', limit', out, e) :=
        list_namespaces config_checkpoint_ns config_checkpoint_id filter before t
          (keys (get_or t (storage s1) [])) s1 limit in
      match e with
      | Some _ => (s', limit', out, e)
      | None =>
          let '(s'', limit'', out', e') :=
            list_threads config_checkpoint_ns config_checkpoint_id filter before rest s' limit' in
          (s'', limit'', out ++ out', e')
      end
  end.

(** [InMemorySaver.list], run to exhaustion: the store it leaves, the
    sequence it yields and the exception it ends with, if any. *)
Definition list_ (s : InMemorySaver) (config_ : option RunnableConfig)
    (filter : option (Dict string Any)) (before : option RunnableConfig)
    (limit : option Z) : InMemorySaver * list CheckpointTuple * option Exn :=
  let thread_ids :=
    match config_ with
    | Some c => [thread_id c]
    | None => keys (storage s)
    end in
  let config_checkpoint_ns :=
    match config_ with
    | Some c => checkpoint_ns c
    | None => None
    end in
  let config_checkpoint_id :=
    match config_ with
    | Some c => get_checkpoint_id c
    | None => None
    end in
  let '(s', _, out, e) :=
    list_threads config_checkpoint_ns config_checkpoint_id filter before thread_ids s limit in
  (s', out, e).

(** *** The caller's mapping objects

    [put] receives the checkpoint as a reference to a mutable mapping of
    the caller.  The mappings live in an object store; [copy] allocates a
    new object, [pop] and item assignment update an object in place. *)
Definition Ref := nat.
Definition Heap : Type := Dict Ref (Dict string Any).

Definition fresh (h : Heap) : Ref := S (fold_right Nat.max 0 (keys h)).

(** [d.copy()]: a new object with the same items. *)
Definition dict_copy (h : Heap) (l : Ref) : Heap * Ref :=
  (set (fresh h) (get_or l h []) h, fresh h).

(** [d.pop(k)] *)
Definition dict_pop (h : Heap) (l : Ref) (k : string) : Heap * Exc Any :=
  match lookup k (get_or l h []) with
  | Some v => (set l (remove k (get_or l h [])) h, Ok v)
  | None => (h, Raise KeyError)
  end.

(** [d[k]] *)
Definition dict_getitem (h : Heap) (l : Ref) (k : string) : Exc Any :=
  match lookup k (get_or l h []) with
  | Some v => Ok v
  | None => Raise KeyError
  end.

(** [k in values] for a [str]: [k] occurs in the text. *)
Definition str_contains (k text : string) : bool :=
  match String.index 0 k text with
  | Some _ => true
  | None => false
  end.

(** The first loop of [put], over [new_versions.items()]:
    [self.blobs[(thread_id, checkpoint_ns, k, v)] =
       self.serde.dumps_typed(values[k]) if k in values else ("empty", b"")].
    [values] is declared [dict[str, Any]].  For a [str] the membership
    test looks for [k] in the text, and [values[k]] raises when it is
    found; for [None] and an [int] the membership test raises. *)
Fixpoint put_blobs (t ns : string) (values_ : Any) (new_versions : list (string * Version))
    (b : Dict BlobKey Typed) : Dict BlobKey Typed * option Exn :=
  match new_versions with
  | [] => (b, None)
  | (k, v) :: rest =>
      match values_ with
      | PyDict vs =>
          put_blobs t ns values_ rest
            (set (t, ns, k, v)
                 (match lookup k vs with
                  | Some x => dumps_typed x
                  | None => EMPTY
                  end) b)
      | PyStr text =>
          if str_contains k text then (b, Some TypeError)
          else put_blobs t ns values_ rest (set (t, ns, k, v) EMPTY b)
      | _ => (b, Some TypeError)
      end
  end.

(** [InMemorySaver.put].  [checkpoint] is the caller's mapping object.
    Checkpoint ids are strings ([Checkpoint.id: str]); another object as
    id raises in the model. *)
Definition put (h : Heap) (s : InMemorySaver) (config_ : RunnableConfig)
    (checkpoint_ : Ref) (metadata_ : Any) (new_versions : Dict string Version)
    : Heap * InMemorySaver * Exc RunnableConfig :=
  let '(h1, c) := dict_copy h checkpoint_ in
  let t := thread_id config_ in
  match checkpoint_ns config_ with
  | None => (h1, s, Raise KeyError)
  | Some ns =>
      match dict_pop h1 c "channel_values" with
      | (h2, Raise e) => (h2, s, Raise e)
      | (h2, Ok values_) =>
          match put_blobs t ns values_ new_versions (blobs s) with
          | (b, Some e) =>
              (h2, {| storage := storage s; writes := writes s; blobs := b |}, Raise e)
          | (b, None) =>
              let s1 :=
                storage_touch t ns
                  {| storage := storage s; writes := writes s; blobs := b |} in
              match dict_getitem h2 checkpoint_ "id" with
              | Raise e => (h2, s1, Raise e)
              | Ok (PyStr id) =>
                  let saved : Saved :=
                    (dumps_typed (PyDict (get_or c h2 [])),
                     dumps_typed (get_checkpoint_metadata config_ metadata_),
                     checkpoint_id config_) in
                  (h2,
                   {| storage :=
                        set t (set ns (set id saved (storage_at t ns s1))
                                      (get_or t (storage s1) []))
                            (storage s1);
                      writes := writes s1;
                      blobs := blobs s1 |},
                   Ok (address t ns (Some id)))
              | Ok _ => (h2, s1, Raise TypeError)
              end
          end
      end
  end.

(** The loop of [put_writes] over [enumerate(writes)].  [outer_writes_]
    is [self.writes.get(outer_key)], fetched once before the loop: when
    the key was present it is the very object the loop stores into and
    sees the loop's own insertions ([aliased]), otherwise it stays [None]
    for the whole call. *)
Fixpoint put_writes_loop (outer_key : WritesKey) (aliased : bool)
    (task_id task_path : string) (idx : Z) (writes_ : list (string * Any))
    (w : Dict WritesKey (Dict (string * Z) WriteEntry))
    : Dict WritesKey (Dict (string * Z) WriteEntry) :=
  match writes_ with
  | [] => w
  | (c, v) :: rest =>
      let inner_key := (task_id, get_or c WRITES_IDX_MAP idx) in
      let outer_writes_ := get_or outer_key w [] in
      if (0 <=? snd inner_key)%Z
         && (aliased && negb (Nat.eqb (List.length outer_writes_) 0))
         && mem inner_key outer_writes_
      then put_writes_loop outer_key aliased task_id task_path (idx + 1)%Z rest w
      else
        let w1 := touch outer_key [] w in
        put_writes_loop outer_key aliased task_id task_path (idx + 1)%Z rest
          (set outer_key
               (set inner_key (task_id, c, dumps_typed v, task_path) (get_or outer_key w1 []))
               w1)
  end.

(** [InMemorySaver.put_writes] *)
Definition put_writes (s : InMemorySaver) (config_ : RunnableConfig)
    (writes_ : list (string * Any)) (task_id task_path : string)
    : InMemorySaver * Exc unit :=
  let t := thread_id config_ in
  let ns := namespace_of config_ in
  match checkpoint_id config_ with
  | None => (s, Raise KeyError)
  | Some id =>
      let outer_key := (t, ns, id) in
      let aliased := mem outer_key (writes s) in
      ({| storage := storage s;
          writes := put_writes_loop outer_key aliased task_id task_path 0 writes_ (writes s);
          blobs := blobs s |},
       Ok tt)
  end.

(** [InMemorySaver.delete_thread] *)
Definition delete_thread (s : InMemorySaver) (t : string) : InMemorySaver :=
  {| storage := if mem t (storage s) then remove t (storage s) else storage s;
     writes := del_where (fun k : WritesKey => String.eqb (fst (fst k)) t) (writes s);
     blobs := del_where (fun k : BlobKey => String.eqb (fst (fst (fst k))) t) (blobs s) |}.

End Saver.

(* ------------------------------------------------------------------ *)
(** ** A reference codec

    A small self-delimiting encoding of the value universe, used to
    instantiate [SerializerProtocol] in the examples; it shows that
    [SerializerLaws] can be met. *)
Module RefSerde.

Definition enc_nat (n : nat) : bytes := repeat Byte.x01 n ++ [Byte.x00].

Fixpoint dec_nat (bs : bytes) : option (nat * bytes) :=
  match bs with
  | Byte.x00 :: r => Some (0, r)
  | Byte.x01 :: r =>
      match dec_nat r with
      | Some (n, r') => Some (S n, r')
      | None => None
      end
  | _ => None
  end.

Definition enc_Z (z : Z) : bytes :=
  (if (z <? 0)%Z then Byte.x01 else Byte.x00) :: enc_nat (Z.abs_nat z).

Definition dec_Z (bs : bytes) : option (Z * bytes) :=
  match bs with
  | sgn :: r =>
      match dec_nat r with
      | Some (n, r') =>
          Some (match sgn with Byte.x01 => (- Z.of_nat n)%Z | _ => Z.of_nat n end, r')
      | None => None
      end
  | [] => None
  end.

Fixpoint enc_chars (s : string) : bytes :=
  match s with
  | EmptyString => []
  | String c s' => byte_of_ascii c :: enc_chars s'
  end.

Definition enc_str (s : string) : bytes := enc_nat (String.length s) ++ enc_chars s.

Fixpoint dec_chars (n : nat) (bs : bytes) : option (string * bytes) :=
  match n with
  | O => Some (EmptyString, bs)
  | S n' =>
      match bs with
      | b :: r =>
          match dec_chars n' r with
          | Some (s, r') => Some (String (ascii_of_byte b) s, r')
          | None => None
          end
      | [] => None
      end
  end.

Definition dec_str (bs : bytes) : option (string * bytes) :=
  match dec_nat bs with
  | Some (n, r) => dec_chars n r
  | None => None
  end.

Fixpoint enc_items (enc_value : Any -> bytes) (l : list (string * Any)) : bytes :=
  match l with
  | [] => []
  | (k, v) :: l' => enc_str k ++ enc_value v ++ enc_items enc_value l'
  end.

Fixpoint enc (a : Any) : bytes :=
  match a with
  | PyNone => [Byte.x00]
  | PyInt z => Byte.x01 :: enc_Z z
  | PyStr s => Byte.x02 :: enc_str s
  | PyDict d => Byte.x03 :: enc_nat (List.length d) ++ enc_items enc d
  end.

Fixpoint dec_items (dec_value : bytes -> option (Any * bytes)) (n : nat) (bs : bytes)
    : option (list (string * Any) * bytes) :=
  match n with
  | O => Some ([], bs)
  | S n' =>
      match dec_str bs with
      | Some (k, r1) =>
          match dec_value r1 with
          | Some (v, r2) =>
              match dec_items dec_value n' r2 with
              | Some (l, r3) => Some ((k, v) :: l, r3)
              | None => None
              end
          | None => None
          end
      | None => None
      end
  end.

Fixpoint dec (fuel : nat) (bs : bytes) : option (Any * bytes) :=
  match fuel with
  | O => None
  | S f =>
      match bs with
      | Byte.x00 :: r => Some (PyNone, r)
      | Byte.x01 :: r =>
          match dec_Z r with
          | Some (z, r') => Some (PyInt z, r')
          | None => None
          end
      | Byte.x02 :: r =>
          match dec_str r with
          | Some (s, r') => Some (PyStr s, r')
          | None => None
          end
      | Byte.x03 :: r =>
          match dec_nat r with
          | Some (n, r') =>
              match dec_items (dec f) n r' with
              | Some (d, r'') => Some (PyDict d, r'')
              | None => None
              end
          | None => None
          end
      | _ => None
      end
  end.

Definition ref_dumps (a : Any) : Typed := ("ref"%string, enc a).

Definition ref_loads (t : Typed) : Any :=
  match dec (List.length (snd t)) (snd t) with
  | Some (a, _) => a
  | None => PyNone
  end.

#[export] Instance ref_serde : SerializerProtocol :=
  {| dumps_typed := ref_dumps; loads_typed := ref_loads |}.

(** The reserved channels of the execution engine, with their fixed
    negative indices, and a metadata merge that keeps the metadata. *)
#[export] Instance ref_base : Base :=
  {| WRITES_IDX_MAP :=
       [("__error__"%string, -1); ("__scheduled__"%string, -2);
        ("__interrupt__"%string, -3); ("__resume__"%string, -4)]%Z;
     get_checkpoint_metadata := fun _ m => m |}.

End RefSerde.

(* ------------------------------------------------------------------ *)
(** ** Channel versions

    [get_next_version] reads a decimal prefix with [int] and writes it
    back with the format [032].

    A [string] stands for a Python [str] whose characters are code points
    below 256, one character for each code point.  On such a string
    [int] replaces the two whitespace characters above 127, [U+0085] and
    [U+00A0], by a space and then parses ASCII: the whitespace it skips
    around the number is tab to carriage return and the space (the
    separators [U+001C]-[U+001F] are left in place and rejected), and the
    digits are [0]-[9].

    Conversions between [int] and [str] are subject to the limit of the
    interpreter, [sys.get_int_max_str_digits()]: 4300 unless configured,
    0 when the limit is switched off or the interpreter has none. *)

Class Interpreter : Type := {
  int_max_str_digits : Z
}.

Definition is_digit (c : ascii) : bool :=
  (48 <=? N_of_ascii c)%N && (N_of_ascii c <=? 57)%N.

Definition digit_value (c : ascii) : Z := Z.of_N (N_of_ascii c) - 48.

Definition digit_char (d : Z) : ascii := ascii_of_N (Z.to_N (d + 48)).

(** The characters [int] skips around a number: tab to carriage return
    and the space, and [U+0085] and [U+00A0], which it turns into a
    space. *)
Definition is_space (c : ascii) : bool :=
  ((9 <=? N_of_ascii c)%N && (N_of_ascii c <=? 13)%N)
  || (N_of_ascii c =? 32)%N
  || (N_of_ascii c =? 133)%N
  || (N_of_ascii c =? 160)%N.

Fixpoint drop_space (l : list ascii) : list ascii :=
  match l with
  | [] => []
  | c :: r => if is_space c then drop_space r else l
  end.

Definition strip (l : list ascii) : list ascii :=
  rev (drop_space (rev (drop_space l))).

(** Decimal digits, with single underscores allowed between digits. *)
Fixpoint digits_value (l : list ascii) (acc : Z) (after_digit : bool) : option Z :=
  match l with
  | [] => if after_digit then Some acc else None
  | c :: r =>
      if is_digit c then digits_value r (acc * 10 + digit_value c) true
      else if Ascii.eqb c "_" && after_digit then digits_value r acc false
      else None
  end.

(** The integer that a literal in base ten denotes: whitespace, an
    optional sign, digits.  [None] when the text is not such a literal. *)
Definition int_literal (s : string) : option Z :=
  match strip (list_ascii_of_string s) with
  | [] => None
  | c :: r =>
      if Ascii.eqb c "+" then digits_value r 0 false
      else if Ascii.eqb c "-" then option_map Z.opp (digits_value r 0 false)
      else digits_value (c :: r) 0 false
  end.

(** The digits of a literal, leading zeros included, underscores not. *)
Definition digit_count (s : string) : Z :=
  Z.of_nat (List.length (filter is_digit (list_ascii_of_string s))).

(** [s.split(".")[0]] *)
Fixpoint before_dot (s : string) : string :=
  match s with
  | EmptyString => EmptyString
  | String c r => if Ascii.eqb c "." then EmptyString else String c (before_dot r)
  end.

Fixpoint dec_digits (fuel : nat) (z : Z) (acc : list ascii) : list ascii :=
  match fuel with
  | O => acc
  | S f =>
      if (z / 10 =? 0)%Z then digit_char (z mod 10) :: acc
      else dec_digits f (z / 10) (digit_char (z mod 10) :: acc)
  end.

(** The decimal digits of a natural number. *)
Definition decimal (z : Z) : list ascii :=
  dec_digits (S (Z.to_nat (Z.log2 z))) z [].

(** The text of [f"{z:032}"]: sign-aware zero padding to width 32. *)
Definition padded_032 (z : Z) : string :=
  let ds := decimal (Z.abs z) in
  string_of_list_ascii
    (if (z <? 0)%Z
     then "-"%char :: repeat "0"%char (31 - List.length ds) ++ ds
     else repeat "0"%char (32 - List.length ds) ++ ds).

Section Versions.
Context {interp : Interpreter}.

(** The test of the limit, as the interpreter makes it: lengths up to 640
    are never refused, and a limit of 0 refuses nothing. *)
Definition over_limit (len digits : Z) : bool :=
  (640 <? len)%Z && (0 <? int_max_str_digits)%Z && (int_max_str_digits <? digits)%Z.

(** [int(s)] in base ten: [None] stands for [ValueError], which is raised
    for a text that is not a literal and for a literal with more digits
    than the limit allows. *)
Definition py_int (s : string) : option Z :=
  match int_literal s with
  | Some z => if over_limit (digit_count s) (digit_count s) then None else Some z
  | None => None
  end.

(** [f"{z:032}"]: [None] stands for the [ValueError] raised when the
    decimal digits of [z] are more than the limit allows. *)
Definition format_032 (z : Z) : option string :=
  let digits := Z.of_nat (List.length (decimal (Z.abs z))) in
  if over_limit (digits + (if (z <? 0)%Z then 1 else 0)) digits then None
  else Some (padded_032 z).

(** The integer read from [current]. *)
Definition current_value (current : Version) : option Z :=
  match current with
  | VNone => Some 0%Z
  | VInt z => Some z
  | VStr s => py_int (before_dot s)
  end.

(** [InMemorySaver.get_next_version].  [next_h] is the text that
    [f"{next_h:016}"] gives for the number drawn by [random.random()]; the
    draw and the rendering of the float are outside the model. *)
Definition get_next_version (current : Version) (next_h : string) : Exc string :=
  match current_value current with
  | Some current_v =>
      match format_032 (current_v + 1) with
      | Some next_v => Ok (next_v ++ "." ++ next_h)%string
      | None => Raise ValueError
      end
  | None => Raise ValueError
  end.

End Versions.

(* ------------------------------------------------------------------ *)
(** ** [PersistentDict]

    The disk is a table from paths to contents, with the modes set by
    [chmod].  [pickle.dump] is a parameter: the bytes that reach the file
    and the exception that interrupts it, if any. *)

Record FileSystem : Type := {
  files : Dict string bytes;
  modes : Dict string Z
}.

Section PersistentDict.
Variable Contents : Type.
Variable pickle_dump : Contents -> bytes * option Exn.

Record PersistentDict : Type := {
  flag : string;
  mode : option Z;
  format : string;
  filename : string;
  contents : Contents
}.

(** [PersistentDict.dump] *)
Definition dump (d : PersistentDict) : bytes * option Exn :=
  if String.eqb (format d) "pickle" then pickle_dump (contents d)
  else ([], Some NotImplementedError).

(** [open(name, "wb")]: the file is created or truncated. *)
Definition fs_open (name : string) (fs : FileSystem) : FileSystem :=
  {| files := set name [] (files fs); modes := modes fs |}.

Definition fs_write (name : string) (b : bytes) (fs : FileSystem) : FileSystem :=
  {| files := set name b (files fs); modes := modes fs |}.

(** [os.remove(name)] *)
Definition os_remove (name : string) (fs : FileSystem) : FileSystem :=
  {| files := remove name (files fs); modes := remove name (modes fs) |}.

(** [shutil.move(src, dst)]: a rename over the destination. *)
Definition shutil_move (src dst : string) (fs : FileSystem) : FileSystem :=
  {| files :=
       match lookup src (files fs) with
       | Some b => set dst b (remove src (files fs))
       | None => files fs
       end;
     modes :=
       match lookup src (modes fs) with
       | Some m => set dst m (remove src (modes fs))
       | None => remove dst (modes fs)
       end |}.

(** [os.chmod(name, m)] *)
Definition os_chmod (name : string) (m : Z) (fs : FileSystem) : FileSystem :=
  {| files := files fs; modes := set name m (modes fs) |}.

(** [PersistentDict.sync] *)
Definition sync (fs : FileSystem) (d : PersistentDict) : FileSystem * Exc unit :=
  if String.eqb (flag d) "r" then (fs, Ok tt)
  else
    let tempname := (filename d ++ ".tmp")%string in
    let fs1 := fs_open tempname fs in
    let '(written, failure) := dump d in
    let fs2 := fs_write tempname written fs1 in
    match failure with
    | Some e => (os_remove tempname fs2, Raise e)
    | None =>
        let fs3 := shutil_move tempname (filename d) fs2 in
        (match mode d with
         | Some m => os_chmod (filename d) m fs3
         | None => fs3
         end, Ok tt)
    end.

End PersistentDict.

(* ------------------------------------------------------------------ *)
(** ** [PersistentDict]: loading and closing

    The mapping is a dictionary.  [pickle.load] is a parameter.  It is
    given the file as [load] opened it, in binary mode when the format is
    ["pickle"] and in text mode otherwise, and it returns an object, runs
    out of input ([EOFError]) or fails with another exception.  The
    object it returns is described by what [update] does with it: the
    pairs that [update] puts into the mapping, in order, and how [update]
    ends, which is normally for a mapping or an iterable of pairs and
    with an exception for an object that it rejects, at once or after
    some pairs went in. *)

Inductive UpdateEnd : Type :=
| UpdateDone
| UpdateEOF
| UpdateRaised (e : Exn).

Inductive Unpickled (K V : Type) : Type :=
| Loaded (items : list (K * V)) (end_ : UpdateEnd)
| EndOfFile
| LoadFailed (e : Exn).
Arguments Loaded {K V} items end_.
Arguments EndOfFile {K V}.
Arguments LoadFailed {K V} e.

(** How [load] can end other than by returning. *)
Inductive LoadError : Type :=
| FileNotFoundError
| Reraised (e : Exn).

Section PersistentDictIO.
Context {K V : Type} `{EqKey K}.
Variable pickle_dump : Dict K V -> bytes * option Exn.
Variable pickle_load : bool -> bytes -> Unpickled K V.

(** [d.update(other)], for the pairs that [update] takes from [other]. *)
Definition dict_update (d other : Dict K V) : Dict K V :=
  fold_left (fun acc kv => set (fst kv) (snd kv) acc) other d.

Definition with_contents (d : PersistentDict (Dict K V)) (c : Dict K V)
    : PersistentDict (Dict K V) :=
  {| flag := flag d; mode := mode d; format := format d; filename := filename d;
     contents := c |}.

(** [PersistentDict.load].  The only loader is [pickle.load], so the loop
    over the loaders returns or raises in its first round.  An
    [EOFError], from [pickle.load] or from [update], ends the call
    normally; any other exception is raised again. *)
Definition load (fs : FileSystem) (d : PersistentDict (Dict K V))
    : PersistentDict (Dict K V) * option LoadError :=
  if String.eqb (flag d) "n" then (d, None)
  else
    match lookup (filename d) (files fs) with
    | None => (d, Some FileNotFoundError)
    | Some b =>
        match pickle_load (String.eqb (format d) "pickle") b with
        | Loaded items end_ =>
            (with_contents d (dict_update (contents d) items),
             match end_ with
             | UpdateDone => None
             | UpdateEOF => None
             | UpdateRaised e => Some (Reraised e)
             end)
        | EndOfFile => (d, None)
        | LoadFailed e => (d, Some (Reraised e))
        end
    end.

(** [PersistentDict.close], which [__exit__] calls: [self.sync()] and then
    [self.clear()]. *)
Definition close (fs : FileSystem) (d : PersistentDict (Dict K V))
    : FileSystem * PersistentDict (Dict K V) * Exc unit :=
  match sync pickle_dump fs d with
  | (fs', Ok _) => (fs', with_contents d [], Ok tt)
  | (fs', Raise e) => (fs', d, Raise e)
  end.

End PersistentDictIO.

(* ------------------------------------------------------------------ *)
(** ** Notions used in the statements *)

Definition thread_of_write (k : WritesKey) : string := fst (fst k).
Definition thread_of_blob (k : BlobKey) : string := fst (fst (fst k)).

(** Nothing in the three tables is keyed under the thread. *)
Definition unknown_thread (s : InMemorySaver) (t : string) : Prop :=
  lookup t (storage s) = None
  /\ (forall k, thread_of_write k = t -> lookup k (writes s) = None)
  /\ (forall k, thread_of_blob k = t -> lookup k (blobs s) = None).

(** The reserved channels have negative indices. *)
Definition reserved_negative {base : Base} : Prop :=
  forall c z, lookup c WRITES_IDX_MAP = Some z -> (z < 0)%Z.

(** What [put] stores for a channel listed in [new_versions]. *)
Definition blob_of {serde : SerializerProtocol} (vs : Dict string Any) (k : string) : Typed :=
  match lookup k vs with
  | Some x => dumps_typed x
  | None => EMPTY
  end.


(** The id under which a yielded tuple is addressed. *)
Definition tuple_id (tup : CheckpointTuple) : string :=
  match checkpoint_id (config tup) with
  | Some id => id
  | None => ""%string
  end.

(** Reading creates empty entries in the [defaultdict]s.  Two stores have
    the same view when they agree up to such entries. *)
Definition same_view (s1 s2 : InMemorySaver) : Prop :=
  (forall t, get_or t (storage s1) [] = get_or t (storage s2) [])
  /\ (forall k, writes_at k s1 = writes_at k s2)
  /\ blobs s1 = blobs s2.

(** The invariant of the tables: keys are unique. *)
Definition wf (s : InMemorySaver) : Prop :=
  uniq (storage s)
  /\ (forall t, uniq (get_or t (storage s) []))
  /\ (forall t ns, uniq (storage_at t ns s))
  /\ uniq (writes s)
  /\ (forall k, uniq (writes_at k s))
  /\ uniq (blobs s).

(** The number that a list of digits denotes, most significant first. *)
Definition horner (l : list ascii) (acc : Z) : Z :=
  fold_left (fun a c => (a * 10 + digit_value c)%Z) l acc.

(* ------------------------------------------------------------------ *)
(** ** Reading results *)

(** The tuple of a result of [get_tuple], when there is one. *)
Definition tuple_of (r : Exc (option CheckpointTuple)) : option CheckpointTuple :=
  match r with
  | Ok (Some tup) => Some tup
  | _ => None
  end.

(** [tup.checkpoint[key]] *)
Definition checkpoint_entry (key : string) (tup : CheckpointTuple) : option Any :=
  match checkpoint tup with
  | PyDict cd => lookup key cd
  | _ => None
  end.

(** The stores that the operations build from the empty store. *)
Inductive reachable {serde : SerializerProtocol} {base : Base} : InMemorySaver -> Prop :=
| reach_empty : reachable empty_saver
| reach_put h s cfg l md nv :
    reachable s -> reachable (snd (fst (put h s cfg l md nv)))
| reach_put_writes s cfg ws task path :
    reachable s -> reachable (fst (put_writes s cfg ws task path))
| reach_delete_thread s t :
    reachable s -> reachable (delete_thread s t)
| reach_get_tuple s cfg :
    reachable s -> reachable (fst (get_tuple s cfg))
| reach_list s cfg f b lim :
    reachable s -> reachable (fst (fst (list_ s cfg f b lim))).

(* ------------------------------------------------------------------ *)
(** ** Example data *)

Module Examples.
Import RefSerde.
Local Open Scope string_scope.

(** The address of the root graph of thread ["T"], with no parent. *)
Definition root : RunnableConfig :=
  {| thread_id := "T"; checkpoint_ns := Some ""; checkpoint_id := None; config_rest := [] |}.

(** Checkpoint ["1"]: channel [x] holds 1 at version ["v1"]. *)
Definition c1 : Dict string Any :=
  [("v", PyInt 1); ("id", PyStr "1");
   ("channel_values", PyDict [("x", PyInt 1)]);
   ("channel_versions", PyDict [("x", PyStr "v1")])].

(** The same checkpoint, but its [channel_versions] does not list [x]. *)
Definition c_unlisted : Dict string Any :=
  [("v", PyInt 1); ("id", PyStr "1");
   ("channel_values", PyDict [("x", PyInt 1)]);
   ("channel_versions", PyDict [])].

(** A checkpoint whose id is the empty string. *)
Definition c_noid : Dict string Any :=
  [("v", PyInt 1); ("id", PyStr "");
   ("channel_values", PyDict []);
   ("channel_versions", PyDict [])].

(** Checkpoint ["2"]: [x] is unchanged, [y] holds 2 at version ["v2"]. *)
Definition c2 : Dict string Any :=
  [("v", PyInt 1); ("id", PyStr "2");
   ("channel_values", PyDict [("x", PyInt 1); ("y", PyInt 2)]);
   ("channel_versions", PyDict [("x", PyStr "v1"); ("y", PyStr "v2")])].

(** The caller's objects. *)
Definition heap : Heap := [(0, c1); (1, c_unlisted); (2, c_noid); (3, c2)].

Definition v1 : Dict string Version := [("x", VStr "v1")].

(** The store after committing checkpoint ["1"]. *)
Definition store1 : InMemorySaver := snd (fst (put heap empty_saver root 0 PyNone v1)).

(** The store after committing the checkpoint with the empty id as well. *)
Definition store2 : InMemorySaver := snd (fst (put heap store1 root 2 PyNone [])).

(** A serialization that fails on contents of more than two bytes, after
    writing two of them. *)
Definition toy_dump (c : bytes) : bytes * option Exn :=
  if Nat.leb (List.length c) 2 then (c, None) else (firstn 2 c, Some TypeError).

Definition disk0 : FileSystem := {| files := []; modes := [] |}.

(** The interpreter as it comes: the limit is 4300 digits. *)
#[export] Instance default_limit : Interpreter := {| int_max_str_digits := 4300 |}.

Definition pd_small : PersistentDict bytes :=
  {| flag := "c"; mode := None; format := "pickle"; filename := "db";
     contents := [Byte.x41; Byte.x42] |}.

Definition pd_large : PersistentDict bytes :=
  {| flag := "c"; mode := None; format := "pickle"; filename := "db";
     contents := [Byte.x41; Byte.x42; Byte.x43] |}.

(** A pickle for mappings from strings to values, on the codec above. *)
Definition toy_pickle_dump (c : Dict string Any) : bytes * option Exn :=
  (enc (PyDict c), None).

Definition toy_pickle_load (binary : bool) (b : bytes) : Unpickled string Any :=
  if binary then
    match b with
    | [] => EndOfFile
    | _ =>
        match dec (List.length b) b with
        | Some (PyDict c, []) => Loaded c UpdateDone
        | _ => LoadFailed ValueError
        end
    end
  else LoadFailed TypeError.

(** A [pickle.load] that returns an iterable [update] rejects at its
    second element. *)
Definition toy_pickle_partial (binary : bool) (b : bytes) : Unpickled string Any :=
  Loaded [("a", PyInt 1)] (UpdateRaised TypeError).

(** A pickle that fails after two bytes. *)
Definition toy_pickle_fail (c : Dict string Any) : bytes * option Exn :=
  (firstn 2 (enc (PyDict c)), Some TypeError).

Definition pd_map : PersistentDict (Dict string Any) :=
  {| flag := "c"; mode := Some 420%Z; format := "pickle"; filename := "db";
     contents := [("a", PyInt 1); ("b", PyStr "x")] |}.

Definition pd_fresh : PersistentDict (Dict string Any) :=
  {| flag := "c"; mode := None; format := "pickle"; filename := "db"; contents := [] |}.

Definition pd_other : PersistentDict (Dict string Any) :=
  {| flag := "c"; mode := None; format := "pickle"; filename := "db";
     contents := [("b", PyStr "old"); ("c", PyNone)] |}.

Definition pd_read_only : PersistentDict (Dict string Any) :=
  {| flag := "r"; mode := None; format := "pickle"; filename := "db";
     contents := [("a", PyInt 1)] |}.

Definition pd_json : PersistentDict (Dict string Any) :=
  {| flag := "c"; mode := None; format := "json"; filename := "db"; contents := [] |}.

End Examples.

(* ================================================================== *)
(** * Properties *)

(** ** Dictionaries *)

Section DictFacts.
Context {K V : Type} `{EqKey K}.
Implicit Types (k : K) (v dflt : V) (d : Dict K V).

Lemma lookup_In k v d : lookup k d = Some v -> In (k, v) d.
Proof.
  induction d as [|[k' v'] d IH]; simpl; [discriminate|].
  destruct (keq k k') eqn:E.
  - apply keq_spec in E. subst. intros [= ->]. auto.
  - auto.
Qed.

Lemma lookup_None k d : lookup k d = None <-> ~ In k (keys d).
Proof.
  induction d as [|[k' v'] d IH]; simpl.
  - tauto.
  - destruct (keq k k') eqn:E.
    + apply keq_spec in E. subst. split; [discriminate | intros N; exfalso; auto].
    + apply keq_false in E. rewrite IH. split.
      * intros N [Q|Q]; [congruence | auto].
      * intros N Q. auto.
Qed.

Lemma lookup_Some_keys k v d : lookup k d = Some v -> In k (keys d).
Proof. intros L. apply lookup_In in L. apply (in_map fst) in L. exact L. Qed.

Lemma In_keys_lookup k d : In k (keys d) -> exists v, lookup k d = Some v.
Proof.
  intros I. destruct (lookup k d) eqn:L; [eauto|].
  apply lookup_None in L. contradiction.
Qed.

Lemma In_uniq_lookup k v d : uniq d -> In (k, v) d -> lookup k d = Some v.
Proof.
  unfold uniq. induction d as [|[k' v'] d IH]; simpl; [tauto|].
  intros N [E|I].
  - inversion E; subst. rewrite keq_refl. reflexivity.
  - inversion N; subst. destruct (keq k k') eqn:E.
    + apply keq_spec in E. subst. exfalso. apply H2.
      apply (in_map fst) in I. exact I.
    + auto.
Qed.

Lemma mem_true k d : mem k d = true <-> In k (keys d).
Proof.
  unfold mem. destruct (lookup k d) eqn:L.
  - split; [intros _; eapply lookup_Some_keys; eauto | reflexivity].
  - apply lookup_None in L. split; [discriminate | contradiction].
Qed.

Lemma mem_false k d : mem k d = false <-> lookup k d = None.
Proof. unfold mem. destruct (lookup k d); split; congruence. Qed.

Lemma lookup_set_same k v d : lookup k (set k v d) = Some v.
Proof.
  induction d as [|[k' v'] d IH]; simpl.
  - rewrite keq_refl. reflexivity.
  - destruct (keq k k') eqn:E; simpl; rewrite E; auto.
Qed.

Lemma lookup_set_other k k' v d : k' <> k -> lookup k' (set k v d) = lookup k' d.
Proof.
  intros N. induction d as [|[k0 v0] d IH]; simpl.
  - apply keq_false in N. rewrite N. reflexivity.
  - destruct (keq k k0) eqn:E; simpl.
    + apply keq_spec in E. subst. apply keq_false in N. rewrite N. reflexivity.
    + rewrite IH. reflexivity.
Qed.

Lemma keys_set_In k v d : In k (keys d) -> keys (set k v d) = keys d.
Proof.
  induction d as [|[k0 v0] d IH]; simpl; [tauto|].
  intros I. destruct (keq k k0) eqn:E; simpl; [reflexivity|].
  apply keq_false in E. f_equal. apply IH. destruct I; congruence.
Qed.

Lemma keys_set_notIn k v d : ~ In k (keys d) -> keys (set k v d) = keys d ++ [k].
Proof.
  induction d as [|[k0 v0] d IH]; simpl; [reflexivity|].
  intros N. destruct (keq k k0) eqn:E; simpl.
  - apply keq_spec in E. subst. exfalso. auto.
  - f_equal. apply IH. auto.
Qed.

Lemma In_keys_set k k' v d : In k' (keys (set k v d)) <-> k' = k \/ In k' (keys d).
Proof.
  destruct (in_dec (fun a b => match keq a b as c return (keq a b = c -> {a = b} + {a <> b}) with
                             | true => fun E => left (proj1 (keq_spec a b) E)
                             | false => fun E => right (proj1 (keq_false a b) E)
                             end eq_refl) k (keys d)) as [I|N].
  - rewrite keys_set_In by assumption. split; [auto | intros [->|]; auto].
  - rewrite keys_set_notIn by assumption. rewrite in_app_iff. simpl. split.
    + intros [|[|[]]]; auto.
    + intros [|]; auto.
Qed.

Lemma NoDup_snoc (l : list K) (k : K) : NoDup l -> ~ In k l -> NoDup (l ++ [k]).
Proof.
  induction l as [|a l IH]; simpl; intros N I.
  - constructor; [tauto | constructor].
  - inversion N; subst. constructor.
    + rewrite in_app_iff. simpl. intros [Q|[Q|[]]]; [auto | subst; auto].
    + apply IH; auto.
Qed.

Lemma uniq_set k v d : uniq d -> uniq (set k v d).
Proof.
  unfold uniq. intros N.
  destruct (mem k d) eqn:M.
  - apply mem_true in M. rewrite keys_set_In; assumption.
  - apply mem_false, lookup_None in M. rewrite keys_set_notIn by assumption.
    apply NoDup_snoc; assumption.
Qed.

Lemma touch_lookup_same k dflt d :
  lookup k (touch k dflt d) = Some (match lookup k d with Some v => v | None => dflt end).
Proof.
  unfold touch, mem. destruct (lookup k d) eqn:L; [exact L|].
  induction d as [|[k0 v0] d IH]; simpl in *.
  - rewrite keq_refl. reflexivity.
  - destruct (keq k k0); [discriminate | auto].
Qed.

Lemma lookup_app k d1 d2 :
  lookup k (d1 ++ d2) = match lookup k d1 with Some v => Some v | None => lookup k d2 end.
Proof.
  induction d1 as [|[k0 v0] d1 IH]; simpl; [reflexivity|].
  destruct (keq k k0); auto.
Qed.

Lemma touch_lookup_other k k' dflt d : k' <> k -> lookup k' (touch k dflt d) = lookup k' d.
Proof.
  intros N. unfold touch. destruct (mem k d); [reflexivity|].
  rewrite lookup_app. destruct (lookup k' d); [reflexivity|].
  simpl. apply keq_false in N. rewrite N. reflexivity.
Qed.

Lemma uniq_touch k dflt d : uniq d -> uniq (touch k dflt d).
Proof.
  unfold touch, uniq. intros N. destruct (mem k d) eqn:M; [assumption|].
  apply mem_false, lookup_None in M. unfold keys. rewrite map_app. simpl.
  apply NoDup_snoc; assumption.
Qed.

Lemma lookup_filter_keys (p : K -> bool) k d :
  lookup k (filter (fun kv => p (fst kv)) d) = if p k then lookup k d else None.
Proof.
  induction d as [|[k0 v0] d IH]; simpl.
  - destruct (p k); reflexivity.
  - destruct (p k0) eqn:P0; simpl.
    + destruct (keq k k0) eqn:E.
      * apply keq_spec in E. subst. rewrite P0. reflexivity.
      * exact IH.
    + destruct (keq k k0) eqn:E.
      * apply keq_spec in E. subst. rewrite IH, P0. reflexivity.
      * exact IH.
Qed.

Lemma lookup_remove_same k d : lookup k (remove k d) = None.
Proof.
  unfold remove.
  rewrite (lookup_filter_keys (fun x => negb (keq k x))). rewrite keq_refl. reflexivity.
Qed.

Lemma lookup_remove_other k k' d : k' <> k -> lookup k' (remove k d) = lookup k' d.
Proof.
  intros N. unfold remove.
  rewrite (lookup_filter_keys (fun x => negb (keq k x))).
  assert (E : keq k k' = false) by (apply keq_false; congruence).
  rewrite E. reflexivity.
Qed.

Lemma keys_filter (f : K * V -> bool) d : forall k, In k (keys (filter f d)) -> In k (keys d).
Proof.
  intros k I. unfold keys in *. apply in_map_iff in I. destruct I as [[k0 v0] [E I]].
  apply filter_In in I. destruct I as [I _]. apply in_map_iff. eauto.
Qed.

Lemma uniq_filter (f : K * V -> bool) d : uniq d -> uniq (filter f d).
Proof.
  unfold uniq. induction d as [|[k0 v0] d IH]; simpl; intros N; [constructor|].
  inversion N; subst. destruct (f (k0, v0)); simpl; auto.
  constructor; auto. intros I. apply keys_filter in I. auto.
Qed.

Lemma uniq_remove k d : uniq d -> uniq (remove k d).
Proof. apply uniq_filter. Qed.

(** The deletion loop over a snapshot of the keys is a filter. *)
Lemma del_where_filter (p : K -> bool) d :
  del_where p d = filter (fun kv => negb (p (fst kv))) d.
Proof.
  unfold del_where.
  assert (G : forall ks (acc : Dict K V),
    fold_left (fun acc k => if p k then remove k acc else acc) ks acc
    = filter (fun kv => negb (existsb (fun k => p k && keq k (fst kv)) ks)) acc).
  { induction ks as [|k ks IH]; intros acc; simpl.
    - induction acc as [|a acc IHa]; simpl; [reflexivity | f_equal; exact IHa].
    - rewrite IH. destruct (p k) eqn:P; simpl.
      + unfold remove. clear IH. induction acc as [|a acc IHa]; simpl; [reflexivity|].
        destruct (keq k (fst a)); simpl; [exact IHa|].
        destruct (existsb _ ks); simpl; [exact IHa | f_equal; exact IHa].
      + reflexivity. }
  rewrite G. apply filter_ext_in. intros [k v] I. simpl. f_equal.
  destruct (p k) eqn:P.
  - apply existsb_exists. exists k. split.
    + unfold keys. apply in_map_iff. exists (k, v). auto.
    + rewrite P, keq_refl. reflexivity.
  - destruct (existsb _ (keys d)) eqn:X; [|reflexivity].
    apply existsb_exists in X. destruct X as [k0 [_ X]].
    apply andb_true_iff in X. destruct X as [P0 E]. apply keq_spec in E. subst.
    congruence.
Qed.

End DictFacts.

(** ** Accessors of the tables *)

Section TableFacts.
Context {K V : Type} `{EqKey K}.

Lemma get_or_set_same (k : K) (v dflt : V) d : get_or k (set k v d) dflt = v.
Proof. unfold get_or. rewrite lookup_set_same. reflexivity. Qed.

Lemma get_or_set_other (k k' : K) (v dflt : V) d :
  k' <> k -> get_or k' (set k v d) dflt = get_or k' d dflt.
Proof. intros N. unfold get_or. rewrite lookup_set_other by assumption. reflexivity. Qed.

Lemma get_or_touch (k k' : K) (dflt : V) d : get_or k' (touch k dflt d) dflt = get_or k' d dflt.
Proof.
  unfold get_or. destruct (keq k' k) eqn:E.
  - apply keq_spec in E. subst. rewrite touch_lookup_same. destruct (lookup k d); reflexivity.
  - apply keq_false in E. rewrite touch_lookup_other by assumption. reflexivity.
Qed.

Lemma mem_touch (k : K) (dflt : V) d : mem k (touch k dflt d) = true.
Proof. unfold mem. rewrite touch_lookup_same. reflexivity. Qed.

Lemma mem_set_same (k : K) (v : V) d : mem k (set k v d) = true.
Proof. unfold mem. rewrite lookup_set_same. reflexivity. Qed.

Lemma mem_set_other (k k' : K) (v : V) d : k' <> k -> mem k' (set k v d) = mem k' d.
Proof. intros N. unfold mem. rewrite lookup_set_other by assumption. reflexivity. Qed.

Lemma keys_touch_In (k : K) (dflt : V) d : In k (keys d) -> touch k dflt d = d.
Proof. intros I. unfold touch. apply mem_true in I. rewrite I. reflexivity. Qed.

Lemma set_get_or_id (k : K) (dflt : V) d : In k (keys d) -> set k (get_or k d dflt) d = d.
Proof.
  unfold get_or. induction d as [|[k0 v0] d IH]; simpl; [tauto|].
  intros I. destruct (keq k k0) eqn:E; [reflexivity|].
  f_equal. apply IH. apply keq_false in E. destruct I; congruence.
Qed.

End TableFacts.

Lemma storage_at_touch t ns t' ns' s :
  storage_at t' ns' (storage_touch t ns s) = storage_at t' ns' s.
Proof.
  unfold storage_at, storage_touch. simpl.
  destruct (String.eqb t' t) eqn:E.
  - apply String.eqb_eq in E. subst. rewrite get_or_set_same.
    rewrite !get_or_touch. reflexivity.
  - apply String.eqb_neq in E. rewrite get_or_set_other by assumption.
    rewrite get_or_touch. reflexivity.
Qed.

Lemma writes_at_touch key key' s : writes_at key' (writes_touch key s) = writes_at key' s.
Proof. unfold writes_at, writes_touch. simpl. apply get_or_touch. Qed.

(** ** The order on checkpoint ids *)

Lemma ascii_compare_refl (a : ascii) : Ascii.compare a a = Eq.
Proof. unfold Ascii.compare. apply N.compare_refl. Qed.

Lemma string_compare_refl (s : string) : String.compare s s = Eq.
Proof. induction s as [|a s IH]; simpl; [reflexivity|]. rewrite ascii_compare_refl. exact IH. Qed.

Lemma ascii_compare_trans (a b c : ascii) :
  Ascii.compare a b = Lt -> Ascii.compare b c = Lt -> Ascii.compare a c = Lt.
Proof. unfold Ascii.compare. rewrite !N.compare_lt_iff. apply N.lt_trans. Qed.

Lemma string_compare_trans (s1 s2 s3 : string) :
  String.compare s1 s2 = Lt -> String.compare s2 s3 = Lt -> String.compare s1 s3 = Lt.
Proof.
  revert s2 s3. induction s1 as [|a s1 IH]; intros [|b s2] [|c s3]; simpl; try congruence.
  destruct (Ascii.compare a b) eqn:AB; try discriminate.
  - apply Ascii.compare_eq_iff in AB. subst b.
    destruct (Ascii.compare a c) eqn:AC; try congruence. apply IH.
  - destruct (Ascii.compare b c) eqn:BC; try discriminate.
    + apply Ascii.compare_eq_iff in BC. subst c. rewrite AB. reflexivity.
    + rewrite (ascii_compare_trans _ _ _ AB BC). reflexivity.
Qed.

Lemma ltb_irrefl (s : string) : String.ltb s s = false.
Proof. unfold String.ltb. rewrite string_compare_refl. reflexivity. Qed.

Lemma ltb_trans (a b c : string) :
  String.ltb a b = true -> String.ltb b c = true -> String.ltb a c = true.
Proof.
  unfold String.ltb. intros X Y.
  destruct (String.compare a b) eqn:AB; try discriminate.
  destruct (String.compare b c) eqn:BC; try discriminate.
  rewrite (string_compare_trans _ _ _ AB BC). reflexivity.
Qed.

Lemma leb_false_ltb (a b : string) : String.leb a b = false <-> String.ltb b a = true.
Proof.
  unfold String.leb, String.ltb. rewrite (String.compare_antisym b a).
  destruct (String.compare a b); simpl; split; congruence.
Qed.

Lemma leb_true_cases (a b : string) : String.leb a b = true <-> a = b \/ String.ltb a b = true.
Proof.
  unfold String.leb, String.ltb. destruct (String.compare a b) eqn:C; split; try tauto; try congruence.
  - intros _. left. apply String.compare_eq_iff. exact C.
  - intros [->|Q]; [|discriminate]. rewrite string_compare_refl in C. discriminate.
Qed.

Lemma leb_refl (a : string) : String.leb a a = true.
Proof. apply leb_true_cases. auto. Qed.

Lemma leb_trans (a b c : string) :
  String.leb a b = true -> String.leb b c = true -> String.leb a c = true.
Proof.
  rewrite !leb_true_cases. intros [->|X] [->|Y]; auto. right. eapply ltb_trans; eauto.
Qed.

Lemma ltb_leb (a b : string) : String.ltb a b = true -> String.leb a b = true.
Proof. intros X. apply leb_true_cases. auto. Qed.

Lemma ltb_false_leb (a b : string) : String.ltb a b = false <-> String.leb b a = true.
Proof.
  destruct (String.leb b a) eqn:L.
  - split; [reflexivity|]. intros _. destruct (String.ltb a b) eqn:Q; [|reflexivity].
    apply leb_false_ltb in Q. congruence.
  - apply leb_false_ltb in L. split; congruence.
Qed.

Lemma empty_leb (s : string) : String.leb "" s = true.
Proof. destruct s; reflexivity. Qed.

(** [max] returns an element, and no element exceeds it. *)
Lemma max_from_spec (l : list string) (x : string) :
  In (max_from x l) (x :: l) /\
  forall y, In y (x :: l) -> String.leb y (max_from x l) = true.
Proof.
  revert x. induction l as [|a l IH]; intros x; simpl.
  - split; [auto|]. intros y [->|[]]. apply leb_refl.
  - destruct (IH (if String.ltb x a then a else x)) as [I M]. split.
    + destruct (String.ltb x a); simpl in I; tauto.
    + intros y Y. destruct (String.ltb x a) eqn:L.
      * destruct Y as [->|[->|Y]].
        -- eapply leb_trans; [apply ltb_leb; exact L | apply M; simpl; auto].
        -- apply M. simpl. auto.
        -- apply M. simpl. auto.
      * destruct Y as [->|[->|Y]].
        -- apply M. simpl. auto.
        -- apply ltb_false_leb in L. eapply leb_trans; [exact L | apply M; simpl; auto].
        -- apply M. simpl. auto.
Qed.

Lemma py_max_spec (l : list string) :
  match py_max l with
  | Some m => In m l /\ forall y, In y l -> String.leb y m = true
  | None => l = []
  end.
Proof. destruct l as [|x l]; simpl; [reflexivity | apply max_from_spec]. Qed.

(* ------------------------------------------------------------------ *)
(** ** What [list] yields *)

Section ListFacts.
Context {serde : SerializerProtocol} {base : Base}.

Lemma checkpoint_tuple_config s cfg t ns id saved s' tup :
  checkpoint_tuple s cfg t ns id saved = (s', Ok tup) -> config tup = cfg.
Proof.
  unfold checkpoint_tuple. destruct saved as [[cb mb] p].
  destruct (loads_typed cb); try discriminate.
  destruct (lookup _ d); try discriminate.
  destruct (_load_blobs _ _ _ _); try discriminate.
  intros Q. inversion Q. reflexivity.
Qed.

Lemma checkpoint_tuple_store s cfg t ns id saved :
  fst (checkpoint_tuple s cfg t ns id saved) = writes_touch (t, ns, id) s.
Proof.
  unfold checkpoint_tuple. destruct saved as [[cb mb] p].
  destruct (loads_typed cb); try reflexivity.
  destruct (lookup _ d); try reflexivity.
  destruct (_load_blobs _ _ _ _); reflexivity.
Qed.

(** Every tuple that the loop over one namespace yields is addressed by
    the thread, the namespace and the id of one of the items, and its id
    passed the [before] test. *)
Lemma list_items_out cid f b t ns items :
  forall s lim s' lim' out e,
    list_items cid f b t ns items s lim = (s', lim', out, e) ->
    Forall (fun tup => exists id, In id (map fst items)
                                  /\ config tup = address t ns (Some id)
                                  /\ before_excludes b id = false) out.
Proof.
  induction items as [|[id saved] items IH]; intros s lim s' lim' out e; simpl.
  - intros Q. inversion Q. constructor.
  - assert (W : forall s0 l0, list_items cid f b t ns items s0 l0 = (s', lim', out, e) ->
                Forall (fun tup => exists id0, (id = id0 \/ In id0 (map fst items))
                                  /\ config tup = address t ns (Some id0)
                                  /\ before_excludes b id0 = false) out).
    { intros s0 l0 Q. apply IH in Q. eapply Forall_impl; [|exact Q].
      intros tup [id0 [I R]]. exists id0. auto. }
    destruct (truthy cid && _); [apply W|].
    destruct (before_excludes b id) eqn:B; [apply W|].
    destruct (metadata_matches f _) as [[|]|]; [| apply W | intros Q; inversion Q; constructor].
    assert (G : forall l1,
      (let '(s1, r) := checkpoint_tuple s (address t ns (Some id)) t ns id saved in
       match r with
       | Raise e0 => (s1, l1, [], Some e0)
       | Ok tup =>
           let '(s'', limit', out0, e0) := list_items cid f b t ns items s1 l1 in
           (s'', limit', tup :: out0, e0)
       end) = (s', lim', out, e) ->
      Forall (fun tup => exists id0, (id = id0 \/ In id0 (map fst items))
                                  /\ config tup = address t ns (Some id0)
                                  /\ before_excludes b id0 = false) out).
    { intros l1. destruct (checkpoint_tuple _ _ _ _ _ _) as [s1 [tup|e0]] eqn:C.
      - destruct (list_items cid f b t ns items s1 l1) as [[[s2 l2] o2] e2] eqn:R.
        intros Q. inversion Q; subst. constructor.
        + exists id. apply checkpoint_tuple_config in C. auto.
        + apply IH in R. eapply Forall_impl; [|exact R].
          intros tup0 [id0 [I X]]. exists id0. auto.
      - intros Q. inversion Q. constructor. }
    destruct lim as [n|].
    + destruct (n <=? 0)%Z; [intros Q; inversion Q; constructor | apply G].
    + apply G.
Qed.

Lemma list_namespaces_out cns cid f b t nss :
  forall s lim s' lim' out e,
    list_namespaces cns cid f b t nss s lim = (s', lim', out, e) ->
    Forall (fun tup => exists ns id, config tup = address t ns (Some id)
                                     /\ before_excludes b id = false) out.
Proof.
  induction nss as [|ns nss IH]; intros s lim s' lim' out e; simpl.
  - intros Q. inversion Q. constructor.
  - destruct (match cns with Some c => _ | None => false end); [apply IH|].
    destruct (list_items cid f b t ns _ s lim) as [[[s1 l1] o1] e1] eqn:R.
    apply list_items_out in R.
    assert (R' : Forall (fun tup => exists ns id, config tup = address t ns (Some id)
                                     /\ before_excludes b id = false) o1).
    { eapply Forall_impl; [|exact R]. intros tup [id [_ X]]. eauto. }
    destruct e1.
    + intros Q. inversion Q; subst. exact R'.
    + destruct (list_namespaces cns cid f b t nss s1 l1) as [[[s2 l2] o2] e2] eqn:R2.
      intros Q. inversion Q; subst. apply Forall_app. split; [exact R'|].
      eapply IH; eauto.
Qed.

Lemma list_threads_out cns cid f b ths :
  forall s lim s' lim' out e,
    list_threads cns cid f b ths s lim = (s', lim', out, e) ->
    Forall (fun tup => exists t ns id, In t ths
                                       /\ config tup = address t ns (Some id)
                                       /\ before_excludes b id = false) out.
Proof.
  induction ths as [|t ths IH]; intros s lim s' lim' out e; simpl.
  - intros Q. inversion Q. constructor.
  - destruct (list_namespaces cns cid f b t _ _ lim) as [[[s1 l1] o1] e1] eqn:R.
    apply list_namespaces_out in R.
    assert (R' : Forall (fun tup => exists t0 ns id, (t = t0 \/ In t0 ths)
                                       /\ config tup = address t0 ns (Some id)
                                       /\ before_excludes b id = false) o1).
    { eapply Forall_impl; [|exact R]. intros tup [ns [id X]]. exists t, ns, id. tauto. }
    destruct e1.
    + intros Q. inversion Q; subst. exact R'.
    + destruct (list_threads cns cid f b ths s1 l1) as [[[s2 l2] o2] e2] eqn:R2.
      intros Q. inversion Q; subst. apply Forall_app. split; [exact R'|].
      apply IH in R2. eapply Forall_impl; [|exact R2].
      intros tup [t0 [ns [id [I X]]]]. exists t0, ns, id. tauto.
Qed.

(** The tuples of a run of [list]: each one is addressed by a scanned
    thread and passed the [before] test. *)
Lemma list_out s cfg f b lim s' out e :
  list_ s cfg f b lim = (s', out, e) ->
  Forall (fun tup => exists t ns id,
            In t (match cfg with Some c => [thread_id c] | None => keys (storage s) end)
            /\ config tup = address t ns (Some id)
            /\ before_excludes b id = false) out.
Proof.
  unfold list_.
  destruct (list_threads _ _ f b _ s lim) as [[[s1 l1] o1] e1] eqn:R.
  intros Q. inversion Q; subst. apply list_threads_out in R. exact R.
Qed.

End ListFacts.

(* ------------------------------------------------------------------ *)
(** ** Deleting a thread *)

Lemma lookup_del_where {K V} `{EqKey K} (p : K -> bool) (k : K) (d : Dict K V) :
  lookup k (del_where p d) = if p k then None else lookup k d.
Proof.
  rewrite del_where_filter.
  rewrite (lookup_filter_keys (fun x => negb (p x))). destruct (p k); reflexivity.
Qed.

Lemma filter_all_true {A} (f : A -> bool) (l : list A) :
  (forall x, In x l -> f x = true) -> filter f l = l.
Proof.
  induction l as [|a l IH]; simpl; intros Q; [reflexivity|].
  rewrite (Q a) by auto. f_equal. apply IH. auto.
Qed.

Lemma del_where_none {K V} `{EqKey K} (p : K -> bool) (d : Dict K V) :
  (forall k, p k = true -> lookup k d = None) -> del_where p d = d.
Proof.
  intros Q. rewrite del_where_filter. apply filter_all_true.
  intros [k v] I. simpl. destruct (p k) eqn:P; [|reflexivity].
  apply Q in P. apply lookup_None in P. exfalso. apply P.
  apply (in_map fst) in I. exact I.
Qed.

Section DeleteFacts.
Context {serde : SerializerProtocol} {base : Base}.

Lemma delete_thread_unknown s t : unknown_thread (delete_thread s t) t.
Proof.
  unfold unknown_thread, delete_thread. simpl. repeat split.
  - destruct (mem t (storage s)) eqn:M.
    + apply lookup_remove_same.
    + apply mem_false. exact M.
  - intros k E. rewrite lookup_del_where. unfold thread_of_write in E. rewrite E.
    rewrite String.eqb_refl. reflexivity.
  - intros k E. rewrite lookup_del_where. unfold thread_of_blob in E. rewrite E.
    rewrite String.eqb_refl. reflexivity.
Qed.

Lemma get_tuple_unknown s cfg :
  lookup (thread_id cfg) (storage s) = None -> snd (get_tuple s cfg) = Ok None.
Proof.
  intros U. unfold get_tuple. rewrite storage_at_touch.
  unfold storage_at at 1 2. unfold get_or at 2 4. rewrite U. simpl.
  destruct (truthy (get_checkpoint_id cfg)); reflexivity.
Qed.

Lemma list_unknown s cfg f b lim :
  lookup (thread_id cfg) (storage s) = None ->
  list_ s (Some cfg) f b lim = (thread_touch (thread_id cfg) s, [], None).
Proof.
  intros U. unfold list_. simpl. rewrite get_or_touch. unfold get_or. rewrite U.
  reflexivity.
Qed.

Lemma list_all_threads_known s f b lim tup :
  In tup (snd (fst (list_ s None f b lim))) ->
  In (thread_id (config tup)) (keys (storage s)).
Proof.
  destruct (list_ s None f b lim) as [[s' out] e] eqn:R. simpl.
  apply list_out in R. rewrite Forall_forall in R. intros I.
  destruct (R _ I) as [t [ns [id [T [C _]]]]]. rewrite C. exact T.
Qed.

End DeleteFacts.

(* ------------------------------------------------------------------ *)
(** ** Staging writes *)

Section WriteFacts.
Context {serde : SerializerProtocol} {base : Base}.

Local Abbreviation WTable := (Dict WritesKey (Dict (string * Z) WriteEntry)).

Lemma stored_write_other (outer : WritesKey) (ik key : string * Z) (e : WriteEntry) (w : WTable) :
  key <> ik ->
  lookup key (get_or outer
                (set outer (set ik e (get_or outer (touch outer [] w) [])) (touch outer [] w)) [])
  = lookup key (get_or outer w []).
Proof.
  intros N. rewrite get_or_set_same, lookup_set_other by assumption.
  rewrite get_or_touch. reflexivity.
Qed.

Lemma stored_write_same (outer : WritesKey) (ik : string * Z) (e : WriteEntry) (w : WTable) :
  lookup ik (get_or outer
               (set outer (set ik e (get_or outer (touch outer [] w) [])) (touch outer [] w)) [])
  = Some e.
Proof. rewrite get_or_set_same. apply lookup_set_same. Qed.

Lemma inner_index_cases (c : string) (idx : Z) :
  reserved_negative ->
  (get_or c WRITES_IDX_MAP idx < 0)%Z \/ get_or c WRITES_IDX_MAP idx = idx.
Proof.
  intros R. unfold get_or. destruct (lookup c WRITES_IDX_MAP) eqn:L; [left; eauto | right; reflexivity].
Qed.

(** Writes at later ordinals, and writes to reserved channels, leave an
    entry with a smaller non-negative index alone. *)
Lemma loop_keeps_earlier (outer : WritesKey) al task path key :
  reserved_negative ->
  forall ws idx (w : WTable),
    (0 <= snd key < idx)%Z ->
    lookup key (get_or outer (put_writes_loop outer al task path idx ws w) [])
    = lookup key (get_or outer w []).
Proof.
  intros R. induction ws as [|[c v] ws IH]; intros idx w B; simpl; [reflexivity|].
  destruct (_ && _ && _).
  - apply IH. lia.
  - rewrite IH by lia. apply stored_write_other.
    intros Q. destruct (inner_index_cases c idx R) as [X|X]; rewrite Q in B; simpl in B; lia.
Qed.

(** Once the buffer of the checkpoint exists, no call replaces an entry
    with a non-negative index. *)
Lemma loop_first_write_wins (outer : WritesKey) task path key e :
  (0 <= snd key)%Z ->
  forall ws idx (w : WTable),
    lookup key (get_or outer w []) = Some e ->
    lookup key (get_or outer (put_writes_loop outer true task path idx ws w) []) = Some e.
Proof.
  intros B. induction ws as [|[c v] ws IH]; intros idx w L; simpl; [exact L|].
  destruct (_ && _ && _) eqn:Skip.
  - apply IH. exact L.
  - apply IH. rewrite stored_write_other; [exact L|].
    intros Q. subst key. simpl in B.
    assert (M : mem (task, get_or c WRITES_IDX_MAP idx) (get_or outer w []) = true)
      by (unfold mem; rewrite L; reflexivity).
    rewrite M in Skip.
    assert (Z0 : (0 <=? get_or c WRITES_IDX_MAP idx)%Z = true) by (apply Z.leb_le; exact B).
    rewrite Z0 in Skip. simpl in Skip.
    destruct (get_or outer w []); [discriminate L | discriminate Skip].
Qed.

(** A write at ordinal position [n] of the call, to a channel that is not
    reserved, is stored when its key is free. *)
Lemma loop_stores_fresh (outer : WritesKey) al task path :
  reserved_negative ->
  forall ws n idx (w : WTable) c v,
    (0 <= idx)%Z ->
    nth_error ws n = Some (c, v) ->
    lookup c WRITES_IDX_MAP = None ->
    lookup (task, (idx + Z.of_nat n)%Z) (get_or outer w []) = None ->
    lookup (task, (idx + Z.of_nat n)%Z)
           (get_or outer (put_writes_loop outer al task path idx ws w) [])
    = Some (task, c, dumps_typed v, path).
Proof.
  intros R. induction ws as [|[c0 v0] ws IH]; intros n idx w c v I N M F.
  - destruct n; discriminate.
  - destruct n as [|n]; simpl in N.
    + inversion N; subst. simpl. rewrite Z.add_0_r in *.
      assert (G : get_or c WRITES_IDX_MAP idx = idx) by (unfold get_or; rewrite M; reflexivity).
      rewrite G. unfold mem at 1. rewrite F. rewrite andb_false_r.
      rewrite loop_keeps_earlier by (try assumption; simpl; lia).
      apply stored_write_same.
    + simpl put_writes_loop.
      replace (idx + Z.of_nat (S n))%Z with ((idx + 1) + Z.of_nat n)%Z in * by lia.
      destruct (_ && _ && _).
      * eapply IH; eauto. lia.
      * eapply IH; eauto; [lia|]. rewrite stored_write_other; [exact F|].
        intros Q. inversion Q as [Q1].
        destruct (inner_index_cases c0 idx R) as [X|X]; lia.
Qed.

End WriteFacts.

(* ------------------------------------------------------------------ *)
(** ** The caller's objects under [put] *)

Lemma fresh_above (h : Heap) (l : Ref) : In l (keys h) -> l < fresh h.
Proof.
  unfold fresh. induction (keys h) as [|a ks IH]; simpl; [tauto|].
  intros [->|I]; [lia|]. apply IH in I. lia.
Qed.

Lemma fresh_not_live (h : Heap) (l : Ref) (d : Dict string Any) :
  lookup l h = Some d -> l <> fresh h.
Proof. intros L. apply lookup_Some_keys, fresh_above in L. lia. Qed.

Section PutFacts.
Context {serde : SerializerProtocol} {base : Base}.

(** Every heap that [put] can return differs from the caller's heap in
    the fresh copy only. *)
Lemma put_heap h s cfg l md nv (r : Ref) :
  r <> fresh h ->
  lookup r (fst (fst (put h s cfg l md nv))) = lookup r h.
Proof.
  intros N. unfold put, dict_copy, dict_pop, dict_getitem.
  destruct (checkpoint_ns cfg); simpl; [|apply lookup_set_other; exact N].
  destruct (lookup "channel_values"%string _); simpl; [|apply lookup_set_other; exact N].
  destruct (put_blobs _ _ _ _ _) as [b [e|]]; simpl.
  - rewrite !lookup_set_other by exact N. reflexivity.
  - destruct (lookup "id"%string _) as [[| | |]|]; simpl;
      rewrite !lookup_set_other by exact N; reflexivity.
Qed.

Lemma put_blobs_ok t ns vs nv b : snd (put_blobs t ns (PyDict vs) nv b) = None.
Proof. revert b. induction nv as [|[k v] nv IH]; intros b; simpl; [reflexivity | apply IH]. Qed.

(** The blob table after the first loop of [put]. *)
Lemma put_blobs_lookup t ns vs nv :
  forall b (key : BlobKey),
    lookup key (fst (put_blobs t ns (PyDict vs) nv b))
    = if existsb (fun kv : string * Version => keq key (t, ns, fst kv, snd kv)) nv
      then Some (blob_of vs (snd (fst key)))
      else lookup key b.
Proof.
  induction nv as [|[k v] nv IH]; intros b key; simpl; [reflexivity|].
  rewrite IH. destruct (existsb _ nv).
  - rewrite orb_true_r. reflexivity.
  - rewrite orb_false_r. fold (blob_of vs k).
    destruct (pair_eqb key (t, ns, k, v)) eqn:E.
    + apply pair_eqb_spec in E. subst key. simpl. apply lookup_set_same.
    + apply lookup_set_other. intros Q. subst key.
      assert (T : pair_eqb (t, ns, k, v) (t, ns, k, v) = true) by (apply pair_eqb_spec; reflexivity).
      congruence.
Qed.

Lemma put_blobs_written t ns vs nv b k v :
  In (k, v) nv ->
  lookup (t, ns, k, v) (fst (put_blobs t ns (PyDict vs) nv b)) = Some (blob_of vs k).
Proof.
  intros I. rewrite put_blobs_lookup. destruct (existsb _ nv) eqn:X; [reflexivity|].
  exfalso. apply Bool.not_true_iff_false in X. apply X.
  apply existsb_exists. exists (k, v). split; [exact I|]. apply keq_refl.
Qed.

(** Resolving versions against a blob table that holds, for each listed
    channel, the blob of that channel's value. *)
Lemma load_blobs_items_resolved {laws : SerializerLaws serde} b t ns (V : Dict string Any) :
  forall (cv : list (string * Any)) (acc : Dict string Any),
    (forall k v, In (k, v) cv ->
       exists hv, hashable v = Some hv /\ lookup (t, ns, k, hv) b = Some (blob_of V k)) ->
    exists res,
      load_blobs_items b t ns cv acc = Ok res
      /\ forall k, lookup k res =
           if mem k cv
           then match lookup k V with Some x => Some x | None => lookup k acc end
           else lookup k acc.
Proof.
  induction cv as [|[k0 v0] cv IH]; intros acc Hcv.
  - exists acc. split; reflexivity.
  - destruct (Hcv k0 v0 (or_introl eq_refl)) as [hv [Hh Hb]].
    simpl. rewrite Hh, Hb. unfold blob_of.
    assert (Hcv' : forall k v, In (k, v) cv ->
       exists hv, hashable v = Some hv /\ lookup (t, ns, k, hv) b = Some (blob_of V k)).
    { intros k v I. apply Hcv. right. exact I. }
    destruct (lookup k0 V) as [x|] eqn:LV.
    + assert (Tg : negb (String.eqb (fst (dumps_typed x)) "empty") = true).
      { apply negb_true_iff, String.eqb_neq, dumps_tag. }
      rewrite Tg, loads_dumps.
      destruct (IH (set k0 x acc) Hcv') as [res [R L]]. exists res. split; [exact R|].
      intros k. rewrite L. unfold mem at 2. simpl.
      destruct (String.eqb k k0) eqn:E.
      * apply String.eqb_eq in E. subst k. rewrite LV, lookup_set_same.
        destruct (mem k0 cv); reflexivity.
      * apply String.eqb_neq in E. rewrite lookup_set_other by exact E.
        fold (mem k cv). reflexivity.
    + simpl. destruct (IH acc Hcv') as [res [R L]]. exists res. split; [exact R|].
      intros k. rewrite L. unfold mem at 2. simpl.
      destruct (String.eqb k k0) eqn:E.
      * apply String.eqb_eq in E. subst k. rewrite LV. destruct (mem k0 cv); reflexivity.
      * fold (mem k cv). reflexivity.
Qed.

End PutFacts.

Section RoundTrip.
Context {serde : SerializerProtocol} {base : Base}.

(** What a successful [put] leaves in the tables. *)
Lemma put_commits h s cfg ns l d id V md nv :
  checkpoint_ns cfg = Some ns ->
  lookup l h = Some d ->
  lookup "id"%string d = Some (PyStr id) ->
  lookup "channel_values"%string d = Some (PyDict V) ->
  exists h' s',
    put h s cfg l md nv = (h', s', Ok (address (thread_id cfg) ns (Some id)))
    /\ blobs s' = fst (put_blobs (thread_id cfg) ns (PyDict V) nv (blobs s))
    /\ writes s' = writes s
    /\ lookup id (storage_at (thread_id cfg) ns s')
       = Some (dumps_typed (PyDict (remove "channel_values"%string d)),
               dumps_typed (get_checkpoint_metadata cfg md),
               checkpoint_id cfg).
Proof.
  intros Hns Hl Hid Hv.
  pose proof (fresh_not_live Hl) as Nf.
  assert (G1 : get_or l h [] = d) by (unfold get_or; rewrite Hl; reflexivity).
  unfold put, dict_copy. rewrite Hns, G1.
  unfold dict_pop. rewrite get_or_set_same, Hv.
  pose proof (put_blobs_ok (thread_id cfg) ns V nv (blobs s)) as PB.
  destruct (put_blobs (thread_id cfg) ns (PyDict V) nv (blobs s)) as [b e] eqn:PE.
  simpl in PB. subst e.
  unfold dict_getitem. rewrite !get_or_set_other by exact Nf. rewrite G1, Hid.
  rewrite get_or_set_same.
  eexists. eexists. split; [reflexivity|].
  split; [reflexivity|]. split; [reflexivity|].
  unfold storage_at at 1. cbn [storage]. rewrite !get_or_set_same.
  apply lookup_set_same.
Qed.

Lemma checkpoint_tuple_touched s cfg t' ns' t ns id saved :
  snd (checkpoint_tuple (storage_touch t' ns' s) cfg t ns id saved)
  = snd (checkpoint_tuple s cfg t ns id saved).
Proof.
  unfold checkpoint_tuple. destruct saved as [[cb mb] p].
  rewrite !writes_at_touch. unfold writes_at, _load_blobs. simpl.
  destruct (loads_typed cb); try reflexivity.
  destruct (lookup _ d); try reflexivity.
  destruct a; try reflexivity.
  destruct (load_blobs_items _ _ _ _ _); reflexivity.
Qed.

Lemma get_tuple_explicit s cfg id saved :
  get_checkpoint_id cfg = Some id -> id <> ""%string ->
  lookup id (storage_at (thread_id cfg) (namespace_of cfg) s) = Some saved ->
  snd (get_tuple s cfg)
  = found (snd (checkpoint_tuple s cfg (thread_id cfg) (namespace_of cfg) id saved)).
Proof.
  intros G N L. unfold get_tuple. rewrite storage_at_touch, G. simpl.
  apply String.eqb_neq in N. rewrite N. simpl. rewrite L.
  rewrite <- (checkpoint_tuple_touched s cfg (thread_id cfg) (namespace_of cfg)).
  destruct (checkpoint_tuple _ _ _ _ _ _). reflexivity.
Qed.

Lemma get_tuple_missing s cfg id :
  get_checkpoint_id cfg = Some id -> id <> ""%string ->
  lookup id (storage_at (thread_id cfg) (namespace_of cfg) s) = None ->
  snd (get_tuple s cfg) = Ok None.
Proof.
  intros G N L. unfold get_tuple. rewrite storage_at_touch, G. simpl.
  apply String.eqb_neq in N. rewrite N. simpl. rewrite L. reflexivity.
Qed.

Lemma get_tuple_latest s cfg :
  truthy (get_checkpoint_id cfg) = false ->
  snd (get_tuple s cfg)
  = match py_max (keys (storage_at (thread_id cfg) (namespace_of cfg) s)) with
    | Some m =>
        match lookup m (storage_at (thread_id cfg) (namespace_of cfg) s) with
        | Some saved =>
            found (snd (checkpoint_tuple s (address (thread_id cfg) (namespace_of cfg) (Some m))
                          (thread_id cfg) (namespace_of cfg) m saved))
        | None => Raise KeyError
        end
    | None => Ok None
    end.
Proof.
  intros T. unfold get_tuple. rewrite storage_at_touch, T.
  destruct (py_max _) as [m|]; [|reflexivity].
  destruct (lookup m _) as [saved|]; [|reflexivity].
  rewrite <- (checkpoint_tuple_touched s _ (thread_id cfg) (namespace_of cfg)).
  destruct (checkpoint_tuple _ _ _ _ _ _). reflexivity.
Qed.

End RoundTrip.

(* ------------------------------------------------------------------ *)
(** ** Sorting the checkpoints of a namespace *)

Lemma insert_desc_perm {V} (x : string * V) l : Permutation (insert_desc x l) (x :: l).
Proof.
  induction l as [|y l IH]; simpl; [apply Permutation_refl|].
  destruct (String.leb (fst y) (fst x)); [apply Permutation_refl|].
  eapply Permutation_trans; [apply perm_skip; exact IH | apply perm_swap].
Qed.

Lemma sorted_desc_perm {V} (l : list (string * V)) : Permutation (sorted_desc l) l.
Proof.
  induction l as [|x l IH]; simpl; [constructor|].
  eapply Permutation_trans; [apply insert_desc_perm | apply perm_skip; exact IH].
Qed.



Section OrderFacts.
Context {serde : SerializerProtocol} {base : Base}.





End OrderFacts.

(* ------------------------------------------------------------------ *)
(** ** The side effects of reading

    Reading creates empty entries in the [defaultdict]s.  Two stores have
    the same view when they agree up to such entries. *)

Lemma same_view_refl s : same_view s s.
Proof. unfold same_view. auto. Qed.

Lemma same_view_trans s1 s2 s3 : same_view s1 s2 -> same_view s2 s3 -> same_view s1 s3.
Proof.
  unfold same_view. intros [A [B C]] [A' [B' C']]. repeat split.
  - intros t. rewrite A. apply A'.
  - intros k. rewrite B. apply B'.
  - congruence.
Qed.

Lemma same_view_sym s1 s2 : same_view s1 s2 -> same_view s2 s1.
Proof. unfold same_view. intros [A [B C]]. repeat split; auto. Qed.

Lemma same_view_storage_at s1 s2 t ns :
  same_view s1 s2 -> storage_at t ns s1 = storage_at t ns s2.
Proof. intros [A _]. unfold storage_at. rewrite A. reflexivity. Qed.


Section ViewFacts.
Context {serde : SerializerProtocol} {base : Base}.


Lemma thread_touch_view s t : same_view s (thread_touch t s).
Proof.
  unfold same_view, thread_touch. simpl. repeat split; auto.
  intros t0. rewrite get_or_touch. reflexivity.
Qed.

Lemma writes_touch_view s key : same_view s (writes_touch key s).
Proof.
  unfold same_view. repeat split; auto. intros k. rewrite writes_at_touch. reflexivity.
Qed.

Lemma checkpoint_tuple_view s1 s2 cfg t ns id saved :
  same_view s1 s2 ->
  snd (checkpoint_tuple s1 cfg t ns id saved) = snd (checkpoint_tuple s2 cfg t ns id saved).
Proof.
  intros [A [B C]]. unfold checkpoint_tuple. destruct saved as [[cb mb] p].
  rewrite !writes_at_touch, B.
  destruct (loads_typed cb); try reflexivity.
  destruct (lookup _ d); try reflexivity.
  unfold _load_blobs. simpl blobs. rewrite C.
  destruct a; try reflexivity.
  destruct (load_blobs_items _ _ _ _ _); reflexivity.
Qed.

Lemma checkpoint_tuple_split s cfg t ns id saved :
  checkpoint_tuple s cfg t ns id saved
  = (writes_touch (t, ns, id) s, snd (checkpoint_tuple s cfg t ns id saved)).
Proof.
  rewrite <- checkpoint_tuple_store with (cfg := cfg) (saved := saved).
  destruct (checkpoint_tuple s cfg t ns id saved). reflexivity.
Qed.




End ViewFacts.

Section ReadEffects.
Context {serde : SerializerProtocol} {base : Base}.

(** A run of the inner loops only creates empty write buffers. *)
Lemma list_items_effect cid f b t ns items :
  forall s lim s' lim' out e,
    list_items cid f b t ns items s lim = (s', lim', out, e) ->
    same_view s s' /\ storage s' = storage s.
Proof.
  induction items as [|[id saved] items IH]; intros s lim s' lim' out e; simpl.
  - intros Q. inversion Q; subst. split; [apply same_view_refl | reflexivity].
  - destruct (truthy cid && _); [apply IH|].
    destruct (before_excludes b id); [apply IH|].
    destruct (metadata_matches f _) as [[|]|];
      [| apply IH | intros Q; inversion Q; subst; split; [apply same_view_refl | reflexivity]].
    assert (G : forall l1,
      (let '(s1, r) := checkpoint_tuple s (address t ns (Some id)) t ns id saved in
       match r with
       | Raise e0 => (s1, l1, [], Some e0)
       | Ok tup =>
           let '(s'', limit', out0, e0) := list_items cid f b t ns items s1 l1 in
           (s'', limit', tup :: out0, e0)
       end) = (s', lim', out, e) ->
      same_view s s' /\ storage s' = storage s).
    { intros l1. rewrite (checkpoint_tuple_split s).
      destruct (snd (checkpoint_tuple s _ t ns id saved)) as [tup|e0].
      - destruct (list_items cid f b t ns items (writes_touch (t, ns, id) s) l1)
          as [[[s3 l3] o3] e3] eqn:R.
        apply IH in R. destruct R as [V S].
        intros Q. inversion Q; subst. split.
        + eapply same_view_trans; [apply writes_touch_view | exact V].
        + rewrite S. reflexivity.
      - intros Q. inversion Q; subst. split; [apply writes_touch_view | reflexivity]. }
    destruct lim as [n|].
    + destruct (n <=? 0)%Z;
        [intros Q; inversion Q; subst; split; [apply same_view_refl | reflexivity] | apply G].
    + apply G.
Qed.

Lemma list_namespaces_effect cns cid f b t nss :
  forall s lim s' lim' out e,
    list_namespaces cns cid f b t nss s lim = (s', lim', out, e) ->
    same_view s s' /\ storage s' = storage s.
Proof.
  induction nss as [|ns nss IH]; intros s lim s' lim' out e; simpl.
  - intros Q. inversion Q; subst. split; [apply same_view_refl | reflexivity].
  - destruct (match cns with Some c => _ | None => false end); [apply IH|].
    destruct (list_items cid f b t ns _ s lim) as [[[s1 l1] o1] e1] eqn:R.
    apply list_items_effect in R. destruct R as [V S].
    destruct e1.
    + intros Q. inversion Q; subst. auto.
    + destruct (list_namespaces cns cid f b t nss s1 l1) as [[[s2 l2] o2] e2] eqn:R2.
      apply IH in R2. destruct R2 as [V2 S2].
      intros Q. inversion Q; subst. split.
      * eapply same_view_trans; eauto.
      * congruence.
Qed.

Lemma list_threads_effect cns cid f b ths :
  forall s lim s' lim' out e,
    list_threads cns cid f b ths s lim = (s', lim', out, e) ->
    same_view s s'
    /\ ((forall t, In t ths -> In t (keys (storage s))) -> storage s' = storage s).
Proof.
  induction ths as [|t ths IH]; intros s lim s' lim' out e; simpl.
  - intros Q. inversion Q; subst. split; [apply same_view_refl | reflexivity].
  - fold (thread_touch t s).
    destruct (list_namespaces cns cid f b t _ (thread_touch t s) lim)
      as [[[s1 l1] o1] e1] eqn:R.
    apply list_namespaces_effect in R. destruct R as [V S].
    assert (V1 : same_view s s1)
      by (eapply same_view_trans; [apply thread_touch_view | exact V]).
    assert (S1 : (forall t0, t = t0 \/ In t0 ths -> In t0 (keys (storage s))) ->
                 storage s1 = storage s).
    { intros K. rewrite S. unfold thread_touch. simpl. apply keys_touch_In. apply K. auto. }
    destruct e1.
    + intros Q. inversion Q; subst. auto.
    + destruct (list_threads cns cid f b ths s1 l1) as [[[s2 l2] o2] e2] eqn:R2.
      apply IH in R2. destruct R2 as [V2 S2].
      intros Q. inversion Q; subst. split.
      * eapply same_view_trans; eauto.
      * intros K. rewrite S2.
        -- apply S1. exact K.
        -- intros t0 I. rewrite (S1 K). apply K. auto.
Qed.


End ReadEffects.

(* ------------------------------------------------------------------ *)
(** ** The invariant of the tables: keys are unique *)

Lemma uniq_nil {K V} `{EqKey K} : uniq (@nil (K * V)).
Proof. constructor. Qed.

Lemma get_or_remove {K V} `{EqKey K} (k k' : K) (d : Dict K V) (dflt : V) :
  get_or k' (remove k d) dflt = if keq k k' then dflt else get_or k' d dflt.
Proof.
  unfold get_or. destruct (keq k k') eqn:E.
  - apply keq_spec in E. subst. rewrite lookup_remove_same. reflexivity.
  - apply keq_false in E. rewrite lookup_remove_other by congruence. reflexivity.
Qed.

Lemma get_or_del_where {K V} `{EqKey K} (p : K -> bool) (k : K) (d : Dict K V) (dflt : V) :
  get_or k (del_where p d) dflt = if p k then dflt else get_or k d dflt.
Proof. unfold get_or. rewrite lookup_del_where. destruct (p k); reflexivity. Qed.

Lemma uniq_del_where {K V} `{EqKey K} (p : K -> bool) (d : Dict K V) :
  uniq d -> uniq (del_where p d).
Proof. intros U. rewrite del_where_filter. apply uniq_filter. exact U. Qed.

Lemma wf_empty : wf empty_saver.
Proof. unfold wf. simpl. repeat split; intros; apply uniq_nil. Qed.

(** Replacing the checkpoints of one namespace. *)
Lemma wf_set_namespace s t ns (c : Dict string Saved) b :
  wf s -> uniq c -> uniq b ->
  wf {| storage := set t (set ns c (get_or t (storage s) [])) (storage s);
        writes := writes s;
        blobs := b |}.
Proof.
  intros [U1 [U2 [U3 [U4 [U5 U6]]]]] Uc Ub. unfold wf. simpl. repeat split; auto.
  - apply uniq_set. exact U1.
  - intros t0. destruct (String.eqb t0 t) eqn:E.
    + apply String.eqb_eq in E. subst. rewrite get_or_set_same. apply uniq_set. apply U2.
    + apply String.eqb_neq in E. rewrite get_or_set_other by exact E. apply U2.
  - intros t0 ns0. unfold storage_at. simpl.
    destruct (String.eqb t0 t) eqn:E.
    + apply String.eqb_eq in E. subst. rewrite get_or_set_same.
      destruct (String.eqb ns0 ns) eqn:E2.
      * apply String.eqb_eq in E2. subst. rewrite get_or_set_same. exact Uc.
      * apply String.eqb_neq in E2. rewrite get_or_set_other by exact E2. apply U3.
    + apply String.eqb_neq in E. rewrite get_or_set_other by exact E. apply U3.
Qed.

Lemma wf_storage_touch s t ns : wf s -> wf (storage_touch t ns s).
Proof.
  intros [U1 [U2 [U3 [U4 [U5 U6]]]]]. unfold wf. repeat split; auto.
  - simpl. apply uniq_set, uniq_touch. exact U1.
  - intros t0. simpl. destruct (String.eqb t0 t) eqn:E.
    + apply String.eqb_eq in E. subst. rewrite get_or_set_same, get_or_touch.
      apply uniq_touch. apply U2.
    + apply String.eqb_neq in E. rewrite get_or_set_other by exact E.
      rewrite get_or_touch. apply U2.
  - intros t0 ns0. rewrite storage_at_touch. apply U3.
Qed.

Lemma wf_writes_touch s key : wf s -> wf (writes_touch key s).
Proof.
  intros [U1 [U2 [U3 [U4 [U5 U6]]]]]. unfold wf. repeat split; auto.
  - simpl. apply uniq_touch. exact U4.
  - intros k. rewrite writes_at_touch. apply U5.
Qed.

Lemma wf_with_blobs s b :
  wf s -> uniq b -> wf {| storage := storage s; writes := writes s; blobs := b |}.
Proof. intros [U1 [U2 [U3 [U4 [U5 U6]]]]] Ub. unfold wf. repeat split; auto. Qed.

Section Invariant.
Context {serde : SerializerProtocol} {base : Base}.

Lemma wf_thread_touch s t : wf s -> wf (thread_touch t s).
Proof.
  intros [U1 [U2 [U3 [U4 [U5 U6]]]]]. unfold wf, thread_touch. simpl. repeat split; auto.
  - apply uniq_touch. exact U1.
  - intros t0. rewrite get_or_touch. apply U2.
  - intros t0 ns0. unfold storage_at. simpl. rewrite get_or_touch. apply U3.
Qed.

Lemma put_blobs_uniq t ns vs nv b : uniq b -> uniq (fst (put_blobs t ns vs nv b)).
Proof.
  revert b. induction nv as [|[k v] nv IH]; intros b U; simpl; [exact U|].
  destruct vs as [| z | text | d]; simpl; try exact U.
  - destruct (str_contains k text); [exact U | apply IH; apply uniq_set; exact U].
  - apply IH. apply uniq_set. exact U.
Qed.

Lemma wf_put h s cfg l md nv : wf s -> wf (snd (fst (put h s cfg l md nv))).
Proof.
  intros W. unfold put, dict_copy, dict_pop, dict_getitem.
  destruct (checkpoint_ns cfg) as [ns|]; simpl; [|exact W].
  destruct (lookup "channel_values"%string _); simpl; [|exact W].
  pose proof (put_blobs_uniq (thread_id cfg) ns a nv (proj2 (proj2 (proj2 (proj2 (proj2 W)))))) as Ub.
  destruct (put_blobs _ _ _ _ _) as [b [e|]]; simpl in *.
  - apply wf_with_blobs; assumption.
  - pose proof (wf_storage_touch (thread_id cfg) ns (wf_with_blobs W Ub)) as W1.
    destruct (lookup "id"%string _) as [[| |id|]|]; simpl; try exact W1.
    apply (wf_set_namespace (thread_id cfg) ns W1).
    + apply uniq_set. apply W1.
    + exact Ub.
Qed.

Lemma put_writes_loop_uniq outer al task path ws :
  forall idx w,
    uniq w -> (forall k, uniq (get_or k w [])) ->
    uniq (put_writes_loop outer al task path idx ws w)
    /\ forall k, uniq (get_or k (put_writes_loop outer al task path idx ws w) []).
Proof.
  induction ws as [|[c v] ws IH]; intros idx w U1 U2; simpl; [auto|].
  destruct (_ && _ && _); [apply IH; assumption|].
  apply IH.
  - apply uniq_set, uniq_touch. exact U1.
  - intros k. destruct (pair_eqb k outer) eqn:E.
    + apply pair_eqb_spec in E. subst. rewrite get_or_set_same.
      apply uniq_set. rewrite get_or_touch. apply U2.
    + assert (N : k <> outer).
      { intros Q. subst. assert (T : pair_eqb outer outer = true) by (apply pair_eqb_spec; reflexivity).
        congruence. }
      rewrite get_or_set_other by exact N. rewrite get_or_touch. apply U2.
Qed.

Lemma wf_put_writes s cfg ws task path : wf s -> wf (fst (put_writes s cfg ws task path)).
Proof.
  intros W. unfold put_writes. destruct (checkpoint_id cfg) as [id|]; simpl; [|exact W].
  destruct W as [U1 [U2 [U3 [U4 [U5 U6]]]]]. unfold wf. simpl.
  destruct (put_writes_loop_uniq
              (thread_id cfg, namespace_of cfg, id)
              (mem (thread_id cfg, namespace_of cfg, id) (writes s))
              task path ws 0 U4 U5) as [A B].
  repeat split; auto.
Qed.

Lemma wf_delete_thread s t : wf s -> wf (delete_thread s t).
Proof.
  intros [U1 [U2 [U3 [U4 [U5 U6]]]]]. unfold wf, storage_at, writes_at, delete_thread.
  cbn [storage writes blobs]. repeat split.
  - destruct (mem t (storage s)); [apply uniq_remove|]; exact U1.
  - intros t0. destruct (mem t (storage s)); [|apply U2].
    rewrite get_or_remove. destruct (keq t t0); [apply uniq_nil | apply U2].
  - intros t0 ns0. destruct (mem t (storage s)); [|apply U3].
    rewrite get_or_remove. destruct (keq t t0); [apply uniq_nil | apply U3].
  - apply uniq_del_where. exact U4.
  - intros k. rewrite get_or_del_where.
    destruct (String.eqb _ t); [apply uniq_nil | apply U5].
  - apply uniq_del_where. exact U6.
Qed.

Lemma wf_get_tuple s cfg : wf s -> wf (fst (get_tuple s cfg)).
Proof.
  intros W. unfold get_tuple.
  set (t := thread_id cfg).
  set (ns := namespace_of cfg).
  pose proof (wf_storage_touch t ns W) as W1.
  destruct (truthy (get_checkpoint_id cfg)).
  - destruct (lookup _ _) as [saved|]; [|exact W1].
    rewrite checkpoint_tuple_split. simpl. apply wf_writes_touch. exact W1.
  - destruct (py_max _) as [id|]; [|exact W1].
    destruct (lookup _ _) as [saved|]; [|exact W1].
    rewrite checkpoint_tuple_split. simpl. apply wf_writes_touch. exact W1.
Qed.

Lemma wf_list_items cid f b t ns items :
  forall s lim, wf s -> wf (fst (fst (fst (list_items cid f b t ns items s lim)))).
Proof.
  induction items as [|[id saved] items IH]; intros s lim W; simpl; [exact W|].
  destruct (truthy cid && _); [apply IH; exact W|].
  destruct (before_excludes b id); [apply IH; exact W|].
  destruct (metadata_matches f _) as [[|]|]; [| apply IH; exact W | exact W].
  assert (G : forall l1,
    wf (fst (fst (fst
      (let '(s1, r) := checkpoint_tuple s (address t ns (Some id)) t ns id saved in
       match r with
       | Raise e0 => (s1, l1, [], Some e0)
       | Ok tup =>
           let '(s'', limit', out0, e0) := list_items cid f b t ns items s1 l1 in
           (s'', limit', tup :: out0, e0)
       end))))).
  { intros l1. rewrite checkpoint_tuple_split.
    destruct (snd (checkpoint_tuple s _ t ns id saved)) as [tup|e0].
    - pose proof (IH (writes_touch (t, ns, id) s) l1 (wf_writes_touch (t, ns, id) W)) as W2.
      destruct (list_items cid f b t ns items _ l1) as [[[s3 l3] o3] e3]. exact W2.
    - simpl. apply wf_writes_touch. exact W. }
  destruct lim as [n|].
  - destruct (n <=? 0)%Z; [exact W | apply G].
  - apply G.
Qed.

Lemma wf_list_namespaces cns cid f b t nss :
  forall s lim, wf s -> wf (fst (fst (fst (list_namespaces cns cid f b t nss s lim)))).
Proof.
  induction nss as [|ns nss IH]; intros s lim W; simpl; [exact W|].
  destruct (match cns with Some c => _ | None => false end); [apply IH; exact W|].
  pose proof (wf_list_items cid f b t ns (sorted_desc (storage_at t ns s)) lim W) as W1.
  destruct (list_items cid f b t ns _ s lim) as [[[s1 l1] o1] e1]. simpl in W1.
  destruct e1; [exact W1|].
  pose proof (IH s1 l1 W1) as W2.
  destruct (list_namespaces cns cid f b t nss s1 l1) as [[[s2 l2] o2] e2]. exact W2.
Qed.

Lemma wf_list_threads cns cid f b ths :
  forall s lim, wf s -> wf (fst (fst (fst (list_threads cns cid f b ths s lim)))).
Proof.
  induction ths as [|t ths IH]; intros s lim W; simpl; [exact W|].
  fold (thread_touch t s).
  pose proof (wf_list_namespaces cns cid f b t
                (keys (get_or t (touch t [] (storage s)) [])) lim (wf_thread_touch t W)) as W1.
  destruct (list_namespaces cns cid f b t _ (thread_touch t s) lim) as [[[s1 l1] o1] e1].
  simpl in W1. destruct e1; [exact W1|].
  pose proof (IH s1 l1 W1) as W2.
  destruct (list_threads cns cid f b ths s1 l1) as [[[s2 l2] o2] e2]. exact W2.
Qed.

Lemma wf_list s cfg f b lim : wf s -> wf (fst (fst (list_ s cfg f b lim))).
Proof.
  intros W. unfold list_.
  match goal with
  | |- context [list_threads ?a ?b0 ?c ?d ?e ?s0 ?l] =>
      pose proof (wf_list_threads a b0 c d e l W) as W1;
      destruct (list_threads a b0 c d e s0 l) as [[[s1 l1] o1] e1]
  end.
  exact W1.
Qed.

(** Every store built by the operations has unique keys. *)
Lemma reachable_wf (s : InMemorySaver) : reachable s -> wf s.
Proof.
  induction 1.
  - apply wf_empty.
  - apply wf_put. assumption.
  - apply wf_put_writes. assumption.
  - apply wf_delete_thread. assumption.
  - apply wf_get_tuple. assumption.
  - apply wf_list. assumption.
Qed.

End Invariant.

(* ------------------------------------------------------------------ *)
(** ** Reading and writing version numbers *)

Lemma is_digit_bounds c : is_digit c = true <-> (48 <= N_of_ascii c <= 57)%N.
Proof. unfold is_digit. rewrite andb_true_iff, !N.leb_le. tauto. Qed.

Lemma digit_value_bounds c : is_digit c = true -> (0 <= digit_value c <= 9)%Z.
Proof. rewrite is_digit_bounds. unfold digit_value. lia. Qed.

Lemma digit_not_space c : is_digit c = true -> is_space c = false.
Proof.
  rewrite is_digit_bounds. intros B. unfold is_space.
  repeat (apply orb_false_iff; split).
  - apply andb_false_iff. right. apply N.leb_gt. lia.
  - apply N.eqb_neq. lia.
  - apply N.eqb_neq. lia.
  - apply N.eqb_neq. lia.
Qed.

Lemma digit_char_ok d :
  (0 <= d <= 9)%Z -> is_digit (digit_char d) = true /\ digit_value (digit_char d) = d.
Proof.
  intros B.
  assert (C : (d = 0 \/ d = 1 \/ d = 2 \/ d = 3 \/ d = 4 \/ d = 5 \/ d = 6 \/ d = 7
               \/ d = 8 \/ d = 9)%Z) by lia.
  repeat (destruct C as [C|C]; [subst d; split; reflexivity|]). subst d. split; reflexivity.
Qed.

Lemma digit_value_inj c1 c2 :
  is_digit c1 = true -> is_digit c2 = true -> digit_value c1 = digit_value c2 -> c1 = c2.
Proof.
  intros _ _ E. unfold digit_value in E.
  assert (Q : N_of_ascii c1 = N_of_ascii c2) by lia.
  rewrite <- (ascii_N_embedding c1), <- (ascii_N_embedding c2), Q. reflexivity.
Qed.

Lemma horner_app l1 l2 acc : horner (l1 ++ l2) acc = horner l2 (horner l1 acc).
Proof. unfold horner. apply fold_left_app. Qed.

Lemma horner_snoc l c acc : horner (l ++ [c]) acc = (horner l acc * 10 + digit_value c)%Z.
Proof. rewrite horner_app. reflexivity. Qed.

Lemma horner_shift l : forall acc,
  horner l acc = (acc * 10 ^ Z.of_nat (List.length l) + horner l 0)%Z.
Proof.
  induction l as [|c l IH]; intros acc.
  - simpl. lia.
  - cbn [horner fold_left List.length]. fold (horner l (acc * 10 + digit_value c)).
    fold (horner l (0 * 10 + digit_value c)).
    rewrite (IH (acc * 10 + digit_value c)%Z), (IH (0 * 10 + digit_value c)%Z).
    rewrite Nat2Z.inj_succ, Z.pow_succ_r by lia. ring.
Qed.

Lemma horner_bounds l :
  Forall (fun c => is_digit c = true) l ->
  (0 <= horner l 0 < 10 ^ Z.of_nat (List.length l))%Z.
Proof.
  induction l as [|c l IH] using rev_ind; intros F.
  - simpl. lia.
  - apply Forall_app in F. destruct F as [F1 F2]. inversion F2; subst.
    apply digit_value_bounds in H1. specialize (IH F1).
    rewrite horner_snoc, length_app. simpl List.length.
    replace (Z.of_nat (List.length l + 1)) with (Z.succ (Z.of_nat (List.length l))) by lia.
    rewrite Z.pow_succ_r by lia. lia.
Qed.

Lemma horner_zeros k acc : acc = 0%Z -> horner (repeat "0"%char k) acc = 0%Z.
Proof. intros ->. induction k as [|k IH]; simpl; [reflexivity | exact IH]. Qed.

Lemma digits_value_digits l :
  Forall (fun c => is_digit c = true) l ->
  forall acc b, (l <> [] \/ b = true) -> digits_value l acc b = Some (horner l acc).
Proof.
  induction 1 as [|c l D F IH]; intros acc b N; simpl.
  - destruct N as [N | ->]; [congruence | reflexivity].
  - rewrite D. apply IH. auto.
Qed.

(** The digits written for a natural number: no more than needed, and
    they read back as the number. *)
Lemma dec_digits_spec f :
  forall z acc,
    (0 <= z < 2 ^ (Z.of_nat f + 1))%Z ->
    exists ds,
      dec_digits (S f) z acc = ds ++ acc
      /\ Forall (fun c => is_digit c = true) ds
      /\ ds <> []
      /\ horner ds 0 = z
      /\ (10 ^ (Z.of_nat (List.length ds) - 1) <= Z.max z 1)%Z.
Proof.
  induction f as [|f IH]; intros z acc B.
  - assert (z / 10 = 0)%Z as Q by (apply Z.div_small; simpl in B; lia).
    exists [digit_char (z mod 10)]. cbn [dec_digits]. rewrite Q. simpl Z.eqb. cbv iota.
    assert (D : (0 <= z mod 10 <= 9)%Z) by (pose proof (Z.mod_pos_bound z 10); lia).
    destruct (digit_char_ok D) as [D1 D2].
    repeat split; auto; try discriminate.
    + unfold horner. simpl. rewrite D2. rewrite Z.mod_small; simpl in B; lia.
    + simpl. lia.
  - assert (D : (0 <= z mod 10 <= 9)%Z) by (pose proof (Z.mod_pos_bound z 10); lia).
    destruct (digit_char_ok D) as [D1 D2].
    cbn [dec_digits]. destruct (z / 10 =? 0)%Z eqn:Q.
    + apply Z.eqb_eq in Q. exists [digit_char (z mod 10)].
      repeat split; auto; try discriminate.
      * unfold horner. simpl. rewrite D2.
        pose proof (Z.div_mod z 10). lia.
      * simpl. lia.
    + apply Z.eqb_neq in Q.
      assert (B' : (0 <= z / 10 < 2 ^ (Z.of_nat f + 1))%Z).
      { split; [apply Z.div_pos; lia|].
        apply Z.div_lt_upper_bound; [lia|].
        replace (Z.of_nat (S f) + 1)%Z with (Z.succ (Z.of_nat f + 1)) in B by lia.
        rewrite Z.pow_succ_r in B by lia. lia. }
      destruct (IH (z / 10)%Z (digit_char (z mod 10) :: acc) B')
        as [ds [E [F [N [Hv L]]]]].
      exists (ds ++ [digit_char (z mod 10)]).
      cbn [dec_digits] in E. rewrite <- app_assoc. simpl app.
      split; [exact E|].
      split; [apply Forall_app; split; [exact F | constructor; [exact D1 | constructor]]|].
      split; [destruct ds; discriminate|].
      split.
      * rewrite horner_snoc, Hv, D2. pose proof (Z.div_mod z 10). lia.
      * rewrite length_app. simpl List.length.
        replace (Z.of_nat (List.length ds + 1) - 1)%Z
          with (Z.succ (Z.of_nat (List.length ds) - 1)) by lia.
        assert (0 < List.length ds)%nat by (destruct ds; [congruence | simpl; lia]).
        rewrite Z.pow_succ_r by lia.
        assert (1 <= z / 10)%Z by lia.
        pose proof (Z.div_mod z 10). lia.
Qed.

Lemma decimal_spec z :
  (0 <= z)%Z ->
  Forall (fun c => is_digit c = true) (decimal z)
  /\ decimal z <> []
  /\ horner (decimal z) 0 = z
  /\ (10 ^ (Z.of_nat (List.length (decimal z)) - 1) <= Z.max z 1)%Z.
Proof.
  intros B. unfold decimal.
  assert (Bd : (0 <= z < 2 ^ (Z.of_nat (Z.to_nat (Z.log2 z)) + 1))%Z).
  { split; [exact B|]. rewrite Z2Nat.id by apply Z.log2_nonneg.
    destruct (Z.eq_dec z 0) as [->|N]; [simpl; lia|].
    replace (Z.log2 z + 1)%Z with (Z.succ (Z.log2 z)) by lia.
    apply Z.log2_spec. lia. }
  destruct (dec_digits_spec (Z.to_nat (Z.log2 z)) [] Bd) as [ds [E R]].
  rewrite E, app_nil_r. exact R.
Qed.

Lemma drop_space_clean l : Forall (fun c => is_space c = false) l -> drop_space l = l.
Proof. destruct 1 as [|c l C F]; simpl; [reflexivity | rewrite C; reflexivity]. Qed.

Lemma strip_clean l : Forall (fun c => is_space c = false) l -> strip l = l.
Proof.
  intros F. unfold strip. rewrite (@drop_space_clean l F).
  rewrite drop_space_clean by (apply Forall_rev; exact F). apply rev_involutive.
Qed.

Lemma digit_not_sign c :
  is_digit c = true ->
  Ascii.eqb c "+" = false /\ Ascii.eqb c "-" = false /\ Ascii.eqb c "." = false.
Proof.
  rewrite is_digit_bounds. intros B.
  repeat split; apply Ascii.eqb_neq; intros ->; simpl in B; lia.
Qed.

Lemma digits_clean l :
  Forall (fun c => is_digit c = true) l -> Forall (fun c => is_space c = false) l.
Proof. apply Forall_impl. intros c. apply digit_not_space. Qed.

Lemma int_literal_digits l :
  Forall (fun c => is_digit c = true) l -> l <> [] ->
  int_literal (string_of_list_ascii l) = Some (horner l 0).
Proof.
  intros F N. unfold int_literal. rewrite list_ascii_of_string_of_list_ascii.
  rewrite strip_clean by (apply digits_clean; exact F).
  destruct l as [|c r]; [congruence|].
  inversion F; subst. destruct (@digit_not_sign c H1) as [P [M _]]. rewrite P, M.
  apply digits_value_digits; auto.
Qed.

Lemma int_literal_minus_digits l :
  Forall (fun c => is_digit c = true) l -> l <> [] ->
  int_literal (string_of_list_ascii ("-"%char :: l)) = Some (- horner l 0)%Z.
Proof.
  intros F N. unfold int_literal. rewrite list_ascii_of_string_of_list_ascii.
  rewrite strip_clean.
  - simpl. rewrite digits_value_digits by auto. reflexivity.
  - constructor; [reflexivity | apply digits_clean; exact F].
Qed.

Lemma zeros_digits k : Forall (fun c => is_digit c = true) (repeat "0"%char k).
Proof. induction k; simpl; constructor; auto. Qed.

Lemma padded_digits k z :
  (0 <= z)%Z ->
  Forall (fun c => is_digit c = true) (repeat "0"%char k ++ decimal z)
  /\ repeat "0"%char k ++ decimal z <> []
  /\ horner (repeat "0"%char k ++ decimal z) 0 = z.
Proof.
  intros B. destruct (@decimal_spec z B) as [F [N [V _]]]. repeat split.
  - apply Forall_app. split; [apply zeros_digits | exact F].
  - intros Q. apply app_eq_nil in Q. tauto.
  - rewrite horner_app, horner_zeros by reflexivity. exact V.
Qed.

(** The number written by the format is the number read by [int]. *)
Lemma int_literal_format z : int_literal (padded_032 z) = Some z.
Proof.
  unfold padded_032. destruct (z <? 0)%Z eqn:S.
  - apply Z.ltb_lt in S.
    destruct (@padded_digits (31 - List.length (decimal (Z.abs z))) (Z.abs z)) as [F [N V]]; [lia|].
    rewrite int_literal_minus_digits by assumption. rewrite V. f_equal. lia.
  - apply Z.ltb_ge in S.
    destruct (@padded_digits (32 - List.length (decimal (Z.abs z))) (Z.abs z)) as [F [N V]]; [lia|].
    rewrite int_literal_digits by assumption. rewrite V. f_equal. lia.
Qed.

Lemma before_dot_app l r :
  Forall (fun c => Ascii.eqb c "." = false) l ->
  before_dot (string_of_list_ascii l ++ String "."%char r) = string_of_list_ascii l.
Proof.
  induction 1 as [|c l C F IH]; simpl; [reflexivity|]. rewrite C. f_equal. exact IH.
Qed.

Lemma before_dot_format z h : before_dot (padded_032 z ++ "." ++ h) = padded_032 z.
Proof.
  unfold padded_032. simpl append.
  assert (D : forall l, Forall (fun c => is_digit c = true) l ->
                        Forall (fun c => Ascii.eqb c "." = false) l).
  { apply Forall_impl. intros c Q. apply (@digit_not_sign c Q). }
  destruct (z <? 0)%Z.
  - destruct (@padded_digits (31 - List.length (decimal (Z.abs z))) (Z.abs z)) as [F _]; [lia|].
    apply before_dot_app. constructor; [reflexivity | apply D; exact F].
  - destruct (@padded_digits (32 - List.length (decimal (Z.abs z))) (Z.abs z)) as [F _]; [lia|].
    apply before_dot_app. apply D. exact F.
Qed.

(** Digit strings of one length compare as the numbers they denote. *)
Lemma compare_digits l1 :
  forall l2 r1 r2,
    List.length l1 = List.length l2 ->
    Forall (fun c => is_digit c = true) l1 ->
    Forall (fun c => is_digit c = true) l2 ->
    (horner l1 0 < horner l2 0)%Z ->
    String.compare (string_of_list_ascii l1 ++ r1) (string_of_list_ascii l2 ++ r2) = Lt.
Proof.
  induction l1 as [|c1 l1 IH]; intros [|c2 l2] r1 r2 L F1 F2 V; try discriminate.
  inversion F1 as [|? ? D1 F1']; inversion F2 as [|? ? D2 F2']; subst.
  injection L as L.
  assert (V' : (horner l1 (0 * 10 + digit_value c1) < horner l2 (0 * 10 + digit_value c2))%Z)
    by exact V.
  rewrite (horner_shift l1), (horner_shift l2), L in V'.
  pose proof (@horner_bounds l1 F1') as B1. pose proof (@horner_bounds l2 F2') as B2.
  rewrite L in B1.
  pose proof (@digit_value_bounds c1 D1) as E1. pose proof (@digit_value_bounds c2 D2) as E2.
  set (X := (10 ^ Z.of_nat (List.length l2))%Z) in *.
  simpl. destruct (Z.compare_spec (digit_value c1) (digit_value c2)) as [Q|Q|Q].
  - rewrite (@digit_value_inj c1 c2 D1 D2 Q), ascii_compare_refl.
    apply IH; auto. rewrite Q in V'. lia.
  - assert (A : Ascii.compare c1 c2 = Lt).
    { unfold Ascii.compare. apply N.compare_lt_iff. unfold digit_value in Q. lia. }
    rewrite A. reflexivity.
  - exfalso.
    assert (P : (0 <= (digit_value c1 - digit_value c2 - 1) * X)%Z)
      by (apply Z.mul_nonneg_nonneg; lia).
    lia.
Qed.

Lemma padded_nonneg z :
  (0 <= z < 10 ^ 32)%Z ->
  exists l, padded_032 z = string_of_list_ascii l
            /\ List.length l = 32
            /\ Forall (fun c => is_digit c = true) l
            /\ horner l 0 = z.
Proof.
  intros B. unfold padded_032.
  assert (S : (z <? 0)%Z = false) by (apply Z.ltb_ge; lia). rewrite S.
  replace (Z.abs z) with z by lia.
  destruct (@decimal_spec z (proj1 B)) as [F [N [V L]]].
  destruct (@padded_digits (32 - List.length (decimal z)) z (proj1 B)) as [F' [_ V']].
  eexists. split; [reflexivity|]. split; [|split; assumption].
  rewrite length_app, repeat_length.
  assert (Z.of_nat (List.length (decimal z)) - 1 < 32)%Z; [|lia].
  apply (Z.pow_lt_mono_r_iff 10); lia.
Qed.

(** Versions with prefixes in the range of the width compare by prefix,
    whatever follows the prefix. *)
Lemma padded_order z1 z2 r1 r2 :
  (0 <= z1 < z2)%Z -> (z2 < 10 ^ 32)%Z ->
  String.ltb (padded_032 z1 ++ r1) (padded_032 z2 ++ r2) = true.
Proof.
  intros B1 B2.
  destruct (@padded_nonneg z1) as [l1 [E1 [L1 [F1 V1]]]]; [lia|].
  destruct (@padded_nonneg z2) as [l2 [E2 [L2 [F2 V2]]]]; [lia|].
  rewrite E1, E2. unfold String.ltb.
  rewrite (@compare_digits l1 l2 r1 r2); [reflexivity | congruence | assumption | assumption | lia].
Qed.

(** The number of digits written for a natural number. *)
Lemma decimal_length_le z m :
  (0 <= z)%Z -> (0 < m)%Z -> (z < 10 ^ m)%Z -> (Z.of_nat (List.length (decimal z)) <= m)%Z.
Proof.
  intros B M L. destruct (@decimal_spec z B) as [_ [_ [_ P]]].
  assert (Q : (Z.of_nat (List.length (decimal z)) - 1 < m)%Z); [|lia].
  apply (Z.pow_lt_mono_r_iff 10); [lia | lia|].
  assert (1 < 10 ^ m)%Z by (apply Z.pow_gt_1; lia). lia.
Qed.

Lemma decimal_length_gt z m :
  (0 <= m)%Z -> (10 ^ m <= z)%Z -> (m < Z.of_nat (List.length (decimal z)))%Z.
Proof.
  intros M L.
  assert (B : (0 <= z)%Z) by (pose proof (Z.pow_pos_nonneg 10 m); lia).
  destruct (@decimal_spec z B) as [F [_ [V _]]].
  pose proof (@horner_bounds (decimal z) F) as H. rewrite V in H.
  apply (Z.pow_lt_mono_r_iff 10); lia.
Qed.

Lemma digit_count_digits (l : list ascii) :
  Forall (fun c => is_digit c = true) l ->
  digit_count (string_of_list_ascii l) = Z.of_nat (List.length l).
Proof.
  intros F. unfold digit_count. rewrite list_ascii_of_string_of_list_ascii.
  rewrite filter_all_true; [reflexivity|]. apply Forall_forall. exact F.
Qed.

Lemma digit_count_padded z :
  digit_count (padded_032 z)
  = Z.max (if (z <? 0)%Z then 31 else 32) (Z.of_nat (List.length (decimal (Z.abs z)))).
Proof.
  unfold padded_032.
  destruct (@decimal_spec (Z.abs z)) as [F _]; [lia|].
  destruct (z <? 0)%Z.
  - unfold digit_count. rewrite list_ascii_of_string_of_list_ascii.
    cbn [filter]. change (is_digit "-") with false. cbv iota.
    rewrite filter_all_true.
    + rewrite length_app, repeat_length. lia.
    + apply Forall_forall. apply Forall_app. split; [apply zeros_digits | exact F].
  - rewrite digit_count_digits.
    + rewrite length_app, repeat_length. lia.
    + apply Forall_app. split; [apply zeros_digits | exact F].
Qed.

(** A character that cannot occur in a literal. *)
Lemma drop_space_keeps c l : In c l -> is_space c = false -> In c (drop_space l).
Proof.
  induction l as [|a l IH]; cbn [drop_space]; [tauto|].
  intros I S. destruct (is_space a) eqn:A; [|exact I].
  destruct I as [->|I]; [congruence | auto].
Qed.

Lemma strip_keeps c l : In c l -> is_space c = false -> In c (strip l).
Proof.
  intros I S. unfold strip. apply in_rev. rewrite rev_involutive.
  apply drop_space_keeps; [|exact S]. apply -> in_rev. apply drop_space_keeps; assumption.
Qed.

Lemma digits_value_stranger c l :
  In c l -> is_digit c = false -> c <> "_"%char ->
  forall acc b, digits_value l acc b = None.
Proof.
  intros I D U. induction l as [|a l IH]; [destruct I|]. intros acc b.
  cbn [digits_value]. destruct I as [->|I].
  - rewrite D. apply Ascii.eqb_neq in U. rewrite U. reflexivity.
  - destruct (is_digit a); [apply IH; exact I|].
    destruct (Ascii.eqb a "_" && b); [apply IH; exact I | reflexivity].
Qed.

Lemma int_literal_stranger c s :
  In c (list_ascii_of_string s) ->
  is_digit c = false -> is_space c = false ->
  c <> "_"%char -> c <> "+"%char -> c <> "-"%char ->
  int_literal s = None.
Proof.
  intros I D S U P M. unfold int_literal.
  pose proof (@strip_keeps c (list_ascii_of_string s) I S) as I'.
  destruct (strip (list_ascii_of_string s)) as [|a r]; [reflexivity|].
  destruct (Ascii.eqb a "+") eqn:EP.
  - apply Ascii.eqb_eq in EP. subst a. destruct I' as [Q|I']; [congruence|].
    apply (@digits_value_stranger c r I' D U).
  - destruct (Ascii.eqb a "-") eqn:EM.
    + apply Ascii.eqb_eq in EM. subst a. destruct I' as [Q|I']; [congruence|].
      rewrite (@digits_value_stranger c r I' D U). reflexivity.
    + apply (@digits_value_stranger c (a :: r) I' D U).
Qed.

Section VersionLimit.
Context {interp : Interpreter}.

Lemma over_limit_true len digits :
  over_limit len digits = true
  <-> (640 < len /\ 0 < int_max_str_digits /\ int_max_str_digits < digits)%Z.
Proof. unfold over_limit. rewrite !andb_true_iff, !Z.ltb_lt. tauto. Qed.

Lemma over_limit_false len digits :
  (len <= 640 \/ int_max_str_digits <= 0 \/ digits <= int_max_str_digits)%Z ->
  over_limit len digits = false.
Proof.
  intros B. apply not_true_iff_false. rewrite over_limit_true. lia.
Qed.

(** Within the limit the format gives the padded text. *)
Lemma format_within z :
  (int_max_str_digits <= 0 \/ Z.abs z < 10 ^ int_max_str_digits)%Z ->
  format_032 z = Some (padded_032 z).
Proof.
  intros B. unfold format_032. rewrite over_limit_false; [reflexivity|].
  destruct B as [B|B]; [lia|]. right.
  destruct (Z_le_gt_dec int_max_str_digits 0) as [L|G]; [lia|]. right.
  apply decimal_length_le; lia.
Qed.

Lemma format_small z : (Z.abs z < 10 ^ 32)%Z -> format_032 z = Some (padded_032 z).
Proof.
  intros B. unfold format_032. rewrite over_limit_false; [reflexivity|]. left.
  assert (Z.of_nat (List.length (decimal (Z.abs z))) <= 32)%Z
    by (apply decimal_length_le; lia).
  destruct (z <? 0)%Z; lia.
Qed.

(** Beyond a limit that is set the format raises. *)
Lemma format_beyond z :
  (640 <= int_max_str_digits)%Z -> (10 ^ int_max_str_digits <= Z.abs z)%Z ->
  format_032 z = None.
Proof.
  intros M B. unfold format_032.
  assert (L : (int_max_str_digits < Z.of_nat (List.length (decimal (Z.abs z))))%Z)
    by (apply decimal_length_gt; lia).
  assert (T : over_limit
                (Z.of_nat (List.length (decimal (Z.abs z))) + (if (z <? 0)%Z then 1 else 0))
                (Z.of_nat (List.length (decimal (Z.abs z)))) = true).
  { apply over_limit_true. destruct (z <? 0)%Z; lia. }
  rewrite T. reflexivity.
Qed.

Lemma py_int_literal s : py_int s = None \/ py_int s = int_literal s.
Proof.
  unfold py_int. destruct (int_literal s); [|left; reflexivity].
  destruct (over_limit _ _); [left | right]; reflexivity.
Qed.

(** The text that the format wrote is read back by [int] as the number. *)
Lemma py_int_format z t : format_032 z = Some t -> py_int t = Some z.
Proof.
  unfold format_032.
  destruct (over_limit _ _) eqn:E; [discriminate|]. intros Q. inversion Q; subst t. clear Q.
  unfold py_int. rewrite int_literal_format, digit_count_padded.
  rewrite over_limit_false; [reflexivity|].
  apply not_true_iff_false in E. rewrite over_limit_true in E.
  destruct (z <? 0)%Z; lia.
Qed.

Lemma get_next_version_value current n h :
  current_value current = Some n ->
  get_next_version current h
  = match format_032 (n + 1) with
    | Some v => Ok (v ++ "." ++ h)%string
    | None => Raise ValueError
    end.
Proof. intros V. unfold get_next_version. rewrite V. reflexivity. Qed.

Lemma format_text z t : format_032 z = Some t -> t = padded_032 z.
Proof.
  unfold format_032. destruct (over_limit _ _); [discriminate|].
  intros Q. inversion Q. reflexivity.
Qed.

(** Beyond the limit the call raises. *)
Lemma next_version_beyond current n h :
  current_value current = Some n ->
  (640 <= int_max_str_digits)%Z -> (10 ^ int_max_str_digits <= Z.abs (n + 1))%Z ->
  get_next_version current h = Raise ValueError.
Proof.
  intros V M B. rewrite (@get_next_version_value current n h V).
  rewrite format_beyond by assumption. reflexivity.
Qed.

(** The greatest number of [k] digits. *)
Lemma horner_nines k : horner (repeat "9"%char k) 0 = (10 ^ Z.of_nat k - 1)%Z.
Proof.
  induction k as [|k IH]; [reflexivity|].
  cbn [repeat]. rewrite repeat_cons, horner_snoc, IH. change (digit_value "9") with 9%Z.
  rewrite Nat2Z.inj_succ, Z.pow_succ_r by lia. ring.
Qed.

Lemma nines_digits k : Forall (fun c => is_digit c = true) (repeat "9"%char k).
Proof. induction k; simpl; constructor; auto. Qed.

Lemma py_int_nines k m t :
  m = Z.of_nat k -> (0 < m)%Z ->
  (m <= 640 \/ int_max_str_digits <= 0 \/ m <= int_max_str_digits)%Z ->
  py_int (before_dot (string_of_list_ascii (repeat "9"%char k) ++ String "."%char t))
  = Some (10 ^ m - 1)%Z.
Proof.
  intros -> P B.
  rewrite before_dot_app.
  - unfold py_int. rewrite int_literal_digits.
    + rewrite digit_count_digits by apply nines_digits. rewrite repeat_length.
      rewrite over_limit_false by exact B. rewrite horner_nines. reflexivity.
    + apply nines_digits.
    + destruct k; [simpl in P; lia | discriminate].
  - eapply Forall_impl; [|apply nines_digits]. intros c D. apply (@digit_not_sign c D).
Qed.

(** From the greatest number within the limit the call raises. *)
Lemma next_version_at_limit current h m :
  m = int_max_str_digits -> (640 <= m)%Z ->
  current_value current = Some (10 ^ m - 1)%Z ->
  get_next_version current h = Raise ValueError.
Proof.
  intros -> M V. apply (@next_version_beyond current (10 ^ int_max_str_digits - 1) h V M).
  replace (10 ^ int_max_str_digits - 1 + 1)%Z with (10 ^ int_max_str_digits)%Z by ring.
  pose proof (Z.pow_pos_nonneg 10 int_max_str_digits). lia.
Qed.

End VersionLimit.

Lemma append_inj_r (s r1 r2 : string) : (s ++ r1 = s ++ r2)%string -> r1 = r2.
Proof. induction s as [|c s IH]; simpl; intros E; [exact E | apply IH; congruence]. Qed.

(* ------------------------------------------------------------------ *)
(** ** The reference codec meets the serializer's contract *)

Section AnyInduction.
Variable P : Any -> Prop.
Hypothesis HNone : P PyNone.
Hypothesis HInt : forall z, P (PyInt z).
Hypothesis HStr : forall s, P (PyStr s).
Hypothesis HDict : forall d, Forall (fun kv => P (snd kv)) d -> P (PyDict d).

Fixpoint Any_nested_ind (a : Any) : P a :=
  match a with
  | PyNone => HNone
  | PyInt z => HInt z
  | PyStr s => HStr s
  | PyDict d =>
      HDict
        ((fix items (l : list (string * Any)) : Forall (fun kv => P (snd kv)) l :=
            match l with
            | [] => Forall_nil _
            | kv :: l' => Forall_cons kv (Any_nested_ind (snd kv)) (items l')
            end) d)
  end.

End AnyInduction.

Module RefSerdeFacts.
Import RefSerde.

Lemma dec_enc_nat n rest : dec_nat (enc_nat n ++ rest) = Some (n, rest).
Proof.
  unfold enc_nat. induction n as [|n IH]; simpl; [reflexivity|]. rewrite IH. reflexivity.
Qed.

Lemma dec_enc_Z z rest : dec_Z (enc_Z z ++ rest) = Some (z, rest).
Proof.
  unfold enc_Z, dec_Z. simpl. rewrite dec_enc_nat.
  destruct (z <? 0)%Z eqn:S.
  - apply Z.ltb_lt in S. f_equal. f_equal. rewrite Zabs2Nat.id_abs. lia.
  - apply Z.ltb_ge in S. f_equal. f_equal. rewrite Zabs2Nat.id_abs. lia.
Qed.

Lemma dec_enc_chars s rest : dec_chars (String.length s) (enc_chars s ++ rest) = Some (s, rest).
Proof.
  induction s as [|c s IH]; simpl; [reflexivity|].
  rewrite IH, ascii_of_byte_of_ascii. reflexivity.
Qed.

Lemma dec_enc_str s rest : dec_str (enc_str s ++ rest) = Some (s, rest).
Proof.
  unfold dec_str, enc_str. rewrite <- app_assoc, dec_enc_nat. apply dec_enc_chars.
Qed.

Lemma dec_enc_items (D : bytes -> option (Any * bytes)) (l : list (string * Any)) :
  Forall (fun kv => forall rest, D (enc (snd kv) ++ rest) = Some (snd kv, rest)) l ->
  forall rest,
    dec_items D (List.length l) (enc_items enc l ++ rest) = Some (l, rest).
Proof.
  induction 1 as [|[k v] l Hv F IH]; intros rest; simpl; [reflexivity|].
  rewrite <- !app_assoc, dec_enc_str. simpl in Hv. rewrite Hv, IH. reflexivity.
Qed.

Lemma enc_items_length_le (l : list (string * Any)) kv :
  In kv l -> List.length (enc (snd kv)) <= List.length (enc_items enc l).
Proof.
  induction l as [|[k v] l IH]; simpl; [tauto|].
  intros [<-|I]; rewrite !length_app; simpl; [lia|]. apply IH in I. lia.
Qed.

Lemma dec_enc a :
  forall fuel rest,
    List.length (enc a) <= fuel -> dec fuel (enc a ++ rest) = Some (a, rest).
Proof.
  induction a as [| z | s | d IH] using Any_nested_ind; intros fuel rest L;
    (destruct fuel as [|f]; [simpl in L; lia|]).
  - reflexivity.
  - cbn [enc dec app]. rewrite dec_enc_Z. reflexivity.
  - cbn [enc dec app]. rewrite dec_enc_str. reflexivity.
  - cbn [enc dec app]. rewrite <- app_assoc, dec_enc_nat.
    cbn [enc List.length] in L. rewrite length_app in L.
    rewrite dec_enc_items; [reflexivity|].
    rewrite Forall_forall in *. intros kv I rest0. apply IH; [exact I|].
    pose proof (enc_items_length_le d kv I). lia.
Qed.

Lemma ref_loads_dumps a : ref_loads (ref_dumps a) = a.
Proof.
  unfold ref_loads, ref_dumps. simpl.
  rewrite <- (app_nil_r (enc a)) at 2. rewrite dec_enc by lia. reflexivity.
Qed.

#[export] Instance ref_laws : SerializerLaws ref_serde.
Proof.
  split.
  - exact ref_loads_dumps.
  - intros a. simpl. discriminate.
Qed.

End RefSerdeFacts.

(* ================================================================== *)
(** * The claims *)

Section Claims.
Context {serde : SerializerProtocol} {base : Base}.

(** C2.  After [delete_thread(T)] nothing keyed under [T] remains in the
    checkpoint table, the write buffer or the blob table, [get] finds
    nothing under [T] and [list] yields nothing of [T]; every entry keyed
    under another thread id is unchanged; and deleting a thread under
    which nothing is keyed leaves the store as it was. *)
Theorem delete_thread_complete_and_frame (s : InMemorySaver) (T : string) :
  unknown_thread (delete_thread s T) T
  /\ (forall cfg, thread_id cfg = T -> snd (get_tuple (delete_thread s T) cfg) = Ok None)
  /\ (forall cfg f b lim, thread_id cfg = T ->
        snd (fst (list_ (delete_thread s T) (Some cfg) f b lim)) = []
        /\ snd (list_ (delete_thread s T) (Some cfg) f b lim) = None)
  /\ (forall f b lim tup,
        In tup (snd (fst (list_ (delete_thread s T) None f b lim))) ->
        thread_id (config tup) <> T)
  /\ (forall t, t <> T -> lookup t (storage (delete_thread s T)) = lookup t (storage s))
  /\ (forall k, thread_of_write k <> T ->
        lookup k (writes (delete_thread s T)) = lookup k (writes s))
  /\ (forall k, thread_of_blob k <> T ->
        lookup k (blobs (delete_thread s T)) = lookup k (blobs s))
  /\ (unknown_thread s T -> delete_thread s T = s).
Proof.
  pose proof (delete_thread_unknown s T) as U.
  split; [exact U|].
  split; [intros cfg <-; apply get_tuple_unknown; apply U|].
  split; [intros cfg f b lim <-; rewrite list_unknown by apply U; split; reflexivity|].
  split.
  { intros f b lim tup I Q. apply list_all_threads_known in I. rewrite Q in I.
    apply In_keys_lookup in I. destruct I as [v L]. destruct U as [U _]. congruence. }
  split.
  { intros t N. unfold delete_thread. cbn [storage].
    destruct (mem T (storage s)); [apply lookup_remove_other; exact N | reflexivity]. }
  split.
  { intros k N. unfold delete_thread. cbn [writes]. rewrite lookup_del_where.
    apply String.eqb_neq in N. unfold thread_of_write in N. rewrite N. reflexivity. }
  split.
  { intros k N. unfold delete_thread. cbn [blobs]. rewrite lookup_del_where.
    apply String.eqb_neq in N. unfold thread_of_blob in N. rewrite N. reflexivity. }
  intros [U1 [U2 U3]]. unfold delete_thread.
  apply mem_false in U1. rewrite U1.
  rewrite !del_where_none.
  - destruct s; reflexivity.
  - intros k E. apply String.eqb_eq in E. apply U3. exact E.
  - intros k E. apply String.eqb_eq in E. apply U2. exact E.
Qed.

(** C3.  Two calls of [put_writes] for one checkpoint and one task, each
    with a write to a channel that is not reserved at the same ordinal
    position, the key being free before the first call: both calls
    return without raising, and the stored write is the one of the first
    call. *)
Theorem put_writes_first_write_wins (s : InMemorySaver) (cfg : RunnableConfig)
    (id task path1 path2 : string) (ws1 ws2 : list (string * Any))
    (i : nat) (c1 c2 : string) (x1 x2 : Any) :
  reserved_negative ->
  checkpoint_id cfg = Some id ->
  nth_error ws1 i = Some (c1, x1) ->
  nth_error ws2 i = Some (c2, x2) ->
  lookup c1 WRITES_IDX_MAP = None ->
  lookup c2 WRITES_IDX_MAP = None ->
  lookup (task, Z.of_nat i) (writes_at (thread_id cfg, namespace_of cfg, id) s) = None ->
  snd (put_writes s cfg ws1 task path1) = Ok tt
  /\ snd (put_writes (fst (put_writes s cfg ws1 task path1)) cfg ws2 task path2) = Ok tt
  /\ lookup (task, Z.of_nat i)
            (writes_at (thread_id cfg, namespace_of cfg, id)
               (fst (put_writes (fst (put_writes s cfg ws1 task path1)) cfg ws2 task path2)))
     = Some (task, c1, dumps_typed x1, path1).
Proof.
  intros R Hid N1 N2 M1 M2 F. unfold put_writes. rewrite Hid. cbn [fst snd writes].
  split; [reflexivity|]. split; [reflexivity|].
  unfold writes_at. cbn [writes].
  set (outer := (thread_id cfg, namespace_of cfg, id)) in *.
  assert (L1 : lookup (task, Z.of_nat i)
                 (get_or outer
                    (put_writes_loop outer (mem outer (writes s)) task path1 0 ws1 (writes s)) [])
               = Some (task, c1, dumps_typed x1, path1)).
  { apply (@loop_stores_fresh serde base outer (mem outer (writes s)) task path1 R ws1 i 0%Z
             (writes s) c1 x1); auto. lia. }
  assert (A : mem outer
                (put_writes_loop outer (mem outer (writes s)) task path1 0 ws1 (writes s)) = true).
  { unfold mem. unfold get_or in L1.
    destruct (lookup outer (put_writes_loop outer _ task path1 0 ws1 (writes s)));
      [reflexivity | discriminate L1]. }
  rewrite A. apply loop_first_write_wins; [simpl; lia | exact L1].
Qed.

(** C6 (amended).  For every non-empty [before] cursor [X], every
    checkpoint that [list] yields, in whatever thread and namespace, has
    an id strictly below [X]. *)
Theorem list_before_is_strict_bound (s : InMemorySaver) (cfg : option RunnableConfig)
    (f : option (Dict string Any)) (b : RunnableConfig) (X : string) (lim : option Z)
    (s' : InMemorySaver) (out : list CheckpointTuple) (e : option Exn) :
  get_checkpoint_id b = Some X ->
  X <> ""%string ->
  list_ s cfg f (Some b) lim = (s', out, e) ->
  Forall (fun tup => exists id, checkpoint_id (config tup) = Some id
                                /\ String.leb X id = false
                                /\ String.ltb id X = true) out.
Proof.
  intros G N R. apply list_out in R. eapply Forall_impl; [|exact R].
  intros tup [t [ns [id [_ [C B]]]]]. exists id. rewrite C. split; [reflexivity|].
  unfold before_excludes in B. rewrite G in B.
  apply String.eqb_neq in N. rewrite N in B. simpl in B.
  split; [exact B | apply leb_false_ltb; exact B].
Qed.

(** C10.  [put] changes none of the caller's objects: every mapping that
    was live before the call has the same items after it, and the
    caller's checkpoint still has its [channel_values] entry, with the
    value it had. *)
Theorem put_leaves_arguments (h : Heap) (s : InMemorySaver) (cfg : RunnableConfig)
    (l : Ref) (md : Any) (nv : Dict string Version) (d : Dict string Any) (vals : Any) :
  lookup l h = Some d ->
  lookup "channel_values"%string d = Some vals ->
  (forall r o, lookup r h = Some o -> lookup r (fst (fst (put h s cfg l md nv))) = Some o)
  /\ lookup l (fst (fst (put h s cfg l md nv))) = Some d
  /\ dict_getitem (fst (fst (put h s cfg l md nv))) l "channel_values" = Ok vals.
Proof.
  intros L V.
  assert (A : forall r o, lookup r h = Some o ->
                lookup r (fst (fst (put h s cfg l md nv))) = Some o).
  { intros r o Q. rewrite put_heap; [exact Q | eapply fresh_not_live; eauto]. }
  split; [exact A|]. split; [apply A; exact L|].
  unfold dict_getitem, get_or. rewrite (A _ _ L), V. reflexivity.
Qed.

End Claims.

Lemma string_length_append (a b : string) :
  String.length (a ++ b) = String.length a + String.length b.
Proof. induction a as [|c a IH]; simpl; [reflexivity | rewrite IH; reflexivity]. Qed.

Lemma tempname_differs (name : string) : (name ++ ".tmp")%string <> name.
Proof.
  intros Q. apply (f_equal String.length) in Q.
  rewrite string_length_append in Q. simpl in Q. lia.
Qed.

Section Sync.
Variable Contents : Type.
Variable pickle_dump : Contents -> bytes * option Exn.

(** A [sync] that completes leaves the serialized mapping in the
    destination file. *)
Lemma sync_commits fs (d : PersistentDict Contents) b :
  flag d <> "r"%string ->
  dump pickle_dump d = (b, None) ->
  snd (sync pickle_dump fs d) = Ok tt
  /\ lookup (filename d) (files (fst (sync pickle_dump fs d))) = Some b.
Proof.
  intros F D. unfold sync. apply String.eqb_neq in F. rewrite F, D.
  split; [reflexivity|].
  assert (M : lookup (filename d)
                (files (shutil_move (filename d ++ ".tmp") (filename d)
                          (fs_write (filename d ++ ".tmp") b
                             (fs_open (filename d ++ ".tmp") fs)))) = Some b).
  { unfold shutil_move, fs_write, fs_open. cbn [files].
    rewrite lookup_set_same. apply lookup_set_same. }
  destruct (mode d); exact M.
Qed.

(** C9.  When the serialization fails during [sync], the exception
    reaches the caller, the temporary file is gone, and every other file,
    the destination among them, has the contents and the mode it had; so
    after a [sync] that completed, a failing [sync] leaves in the
    destination exactly the bytes that the completed one wrote. *)
Theorem sync_failure_keeps_destination (fs : FileSystem) (d : PersistentDict Contents)
    (w : bytes) (e : Exn) :
  flag d <> "r"%string ->
  dump pickle_dump d = (w, Some e) ->
  snd (sync pickle_dump fs d) = Raise e
  /\ lookup (filename d ++ ".tmp")%string (files (fst (sync pickle_dump fs d))) = None
  /\ (forall p, p <> (filename d ++ ".tmp")%string ->
        lookup p (files (fst (sync pickle_dump fs d))) = lookup p (files fs)
        /\ lookup p (modes (fst (sync pickle_dump fs d))) = lookup p (modes fs))
  /\ lookup (filename d) (files (fst (sync pickle_dump fs d))) = lookup (filename d) (files fs)
  /\ (forall fs0 d0 b,
        filename d0 = filename d ->
        flag d0 <> "r"%string ->
        dump pickle_dump d0 = (b, None) ->
        fs = fst (sync pickle_dump fs0 d0) ->
        lookup (filename d) (files (fst (sync pickle_dump fs d))) = Some b).
Proof.
  intros F D.
  assert (E : sync pickle_dump fs d
              = (os_remove (filename d ++ ".tmp")
                   (fs_write (filename d ++ ".tmp") w (fs_open (filename d ++ ".tmp") fs)),
                 Raise e)).
  { unfold sync. apply String.eqb_neq in F. rewrite F, D. reflexivity. }
  rewrite E. cbn [fst snd].
  assert (Fr : forall p, p <> (filename d ++ ".tmp")%string ->
             lookup p (files (os_remove (filename d ++ ".tmp")
                   (fs_write (filename d ++ ".tmp") w (fs_open (filename d ++ ".tmp") fs))))
             = lookup p (files fs)
             /\ lookup p (modes (os_remove (filename d ++ ".tmp")
                   (fs_write (filename d ++ ".tmp") w (fs_open (filename d ++ ".tmp") fs))))
                = lookup p (modes fs)).
  { intros p N. unfold os_remove, fs_write, fs_open. cbn [files modes].
    rewrite !lookup_remove_other by exact N. rewrite !lookup_set_other by exact N.
    split; reflexivity. }
  assert (Dst : filename d <> (filename d ++ ".tmp")%string).
  { intros Q. symmetry in Q. exact (tempname_differs Q). }
  split; [reflexivity|].
  split; [unfold os_remove; cbn [files]; apply lookup_remove_same|].
  split; [exact Fr|].
  split; [apply Fr; exact Dst|].
  intros fs0 d0 b N F0 D0 ->. rewrite (proj1 (Fr _ Dst)).
  rewrite <- N. apply sync_commits; assumption.
Qed.

End Sync.

Section VersionClaims.
Context {interp : Interpreter}.

(** C7 (amended).  The current version is absent (zero), a bare integer [n], or a
    string whose text before the first ["."] reads as the integer [n],
    and [n + 1] is within the limit of the interpreter on the digits of
    an integer written as text (the limit is off, or [n + 1] has no more
    digits than the limit).  [get_next_version] returns the string made of [n + 1],
    written with the format [032], a ["."] and the tie-break text; the
    text before the first ["."] of the result reads as [n + 1]; two
    results from one current version share that prefix, and they are the
    same string exactly when the tie-break texts are the same; and of two
    results whose prefixes are natural numbers of at most 32 digits, the
    one with the smaller prefix is the smaller string, whatever the
    tie-break texts. *)
Theorem next_version_increments (current : Version) (n : Z) (h : string) :
  (current = VNone /\ n = 0%Z)
  \/ current = VInt n
  \/ (exists s, current = VStr s /\ py_int (before_dot s) = Some n) ->
  (int_max_str_digits <= 0 \/ Z.abs (n + 1) < 10 ^ int_max_str_digits)%Z ->
  get_next_version current h = Ok (padded_032 (n + 1) ++ "." ++ h)%string
  /\ py_int (before_dot (padded_032 (n + 1) ++ "." ++ h)) = Some (n + 1)%Z
  /\ (forall h',
        get_next_version current h' = Ok (padded_032 (n + 1) ++ "." ++ h')%string
        /\ (get_next_version current h' = get_next_version current h <-> h' = h))
  /\ (forall current' n' h',
        current_value current' = Some n' ->
        (0 <= n + 1 < n' + 1)%Z -> (n' + 1 < 10 ^ 32)%Z ->
        String.ltb (padded_032 (n + 1) ++ "." ++ h) (padded_032 (n' + 1) ++ "." ++ h') = true
        /\ get_next_version current' h' = Ok (padded_032 (n' + 1) ++ "." ++ h')%string).
Proof.
  intros C W.
  assert (V : current_value current = Some n).
  { destruct C as [[-> ->]|[->|[s [-> P]]]]; simpl; auto. }
  pose proof (@format_within interp (n + 1) W) as Fm.
  assert (G : forall x, get_next_version current x
                        = Ok (padded_032 (n + 1) ++ "." ++ x)%string).
  { intros x. rewrite (@get_next_version_value interp current n x V), Fm. reflexivity. }
  split; [apply G|].
  split; [rewrite before_dot_format; apply py_int_format; exact Fm|].
  split.
  - intros h'. split; [apply G|]. rewrite !G. split.
    + intros Q. inversion Q as [Q']. apply append_inj_r in Q'. inversion Q'. reflexivity.
    + intros ->. reflexivity.
  - intros current' n' h' V' B1 B2. split.
    + apply padded_order; assumption.
    + rewrite (@get_next_version_value interp current' n' h' V'), format_small by lia. reflexivity.
Qed.

(** C8.  A current version that is a string whose text before the first
    ["."] is rejected by [int] makes [get_next_version] raise
    [ValueError]: nothing is put in the place of the prefix, and every
    version that is returned for a string carries the prefix that [int]
    read, plus one.  In particular the call raises when that text is
    empty, and when it holds a character that is not a digit, an
    underscore, a sign or whitespace. *)
Theorem next_version_malformed_raises (s h : string) :
  (py_int (before_dot s) = None -> get_next_version (VStr s) h = Raise ValueError)
  /\ (forall r, get_next_version (VStr s) h = Ok r ->
        exists n, py_int (before_dot s) = Some n
                  /\ r = (padded_032 (n + 1) ++ "." ++ h)%string)
  /\ (before_dot s = ""%string -> get_next_version (VStr s) h = Raise ValueError)
  /\ (forall c, In c (list_ascii_of_string (before_dot s)) ->
        is_digit c = false -> is_space c = false ->
        c <> "_"%char -> c <> "+"%char -> c <> "-"%char ->
        get_next_version (VStr s) h = Raise ValueError).
Proof.
  assert (R : py_int (before_dot s) = None -> get_next_version (VStr s) h = Raise ValueError).
  { intros P. unfold get_next_version. cbn [current_value]. rewrite P. reflexivity. }
  split; [exact R|]. split; [|split].
  - intros r. unfold get_next_version. cbn [current_value].
    destruct (py_int (before_dot s)) as [n|]; [|discriminate].
    unfold format_032. destruct (over_limit _ _); [discriminate|].
    intros Q. inversion Q. exists n. split; reflexivity.
  - intros E. apply R. rewrite E. reflexivity.
  - intros c I D S U P M. apply R.
    destruct (py_int_literal (before_dot s)) as [Q|Q]; [exact Q|].
    rewrite Q. apply (@int_literal_stranger c (before_dot s) I D S U P M).
Qed.

End VersionClaims.

Section RoundTripClaim.
Context {serde : SerializerProtocol} {laws : SerializerLaws serde} {base : Base}.

(** C1 (amended).  A checkpoint with a non-empty id is committed with
    [put]; its [channel_versions] lists every channel of its channel
    values [V], and gives every channel it lists the version that
    [new_versions] gives it.  Then [put] returns the address of the
    checkpoint, and [get_tuple] on that address returns a checkpoint whose
    [channel_values] maps every channel to what [V] maps it to: the
    channels that [new_versions] lists without a value in [V] are stored
    as empty and left out. *)
Theorem put_get_round_trip (h : Heap) (s : InMemorySaver) (cfg : RunnableConfig)
    (ns : string) (l : Ref) (d : Dict string Any) (id : string)
    (V cv : Dict string Any) (md : Any) (nv : Dict string Version) :
  checkpoint_ns cfg = Some ns ->
  lookup l h = Some d ->
  lookup "id"%string d = Some (PyStr id) ->
  id <> ""%string ->
  lookup "channel_values"%string d = Some (PyDict V) ->
  lookup "channel_versions"%string d = Some (PyDict cv) ->
  (forall k, In k (keys V) -> In k (keys cv)) ->
  (forall k v, In (k, v) cv -> exists hv, hashable v = Some hv /\ In (k, hv) nv) ->
  exists h' s' s'' tup cd vals,
    put h s cfg l md nv = (h', s', Ok (address (thread_id cfg) ns (Some id)))
    /\ get_tuple s' (address (thread_id cfg) ns (Some id)) = (s'', Ok (Some tup))
    /\ checkpoint tup = PyDict cd
    /\ lookup "channel_values"%string cd = Some (PyDict vals)
    /\ forall k, lookup k vals = lookup k V.
Proof.
  intros Hns Hl Hid Nid Hv Hcv Hk Hnv.
  destruct (@put_commits serde base h s cfg ns l d id V md nv Hns Hl Hid Hv)
    as [h' [s' [P [B [W S]]]]].
  set (addr := address (thread_id cfg) ns (Some id)).
  pose proof (@get_tuple_explicit serde s' addr id _ eq_refl Nid S) as G.
  destruct (get_tuple s' addr) as [s'' r] eqn:GT. cbn [snd] in G.
  assert (Res : forall k v, In (k, v) cv ->
            exists hv, hashable v = Some hv
                       /\ lookup (thread_id cfg, ns, k, hv) (blobs s') = Some (blob_of V k)).
  { intros k v I. destruct (Hnv k v I) as [hv [Hh Hi]]. exists hv. split; [exact Hh|].
    rewrite B. apply put_blobs_written. exact Hi. }
  destruct (@load_blobs_items_resolved serde laws (blobs s') (thread_id cfg) ns V cv [] Res)
    as [vals [E L]].
  assert (CT : snd (checkpoint_tuple s' addr (thread_id addr) (namespace_of addr) id
                      (dumps_typed (PyDict (remove "channel_values"%string d)),
                       dumps_typed (get_checkpoint_metadata cfg md), checkpoint_id cfg))
               = Ok {| config := addr;
                       checkpoint :=
                         PyDict (set "channel_values"%string (PyDict vals)
                                     (remove "channel_values"%string d));
                       metadata := loads_typed (dumps_typed (get_checkpoint_metadata cfg md));
                       parent_config :=
                         parent_address (thread_id cfg) ns (checkpoint_id cfg);
                       pending_writes :=
                         map (fun w : WriteEntry =>
                                let '(id_, c, v, _) := w in (id_, c, loads_typed v))
                             (values (writes_at (thread_id cfg, ns, id)
                                        (writes_touch (thread_id cfg, ns, id) s'))) |}).
  { unfold checkpoint_tuple. rewrite loads_dumps.
    rewrite lookup_remove_other by discriminate. rewrite Hcv.
    unfold _load_blobs. cbn [blobs writes_touch thread_id namespace_of addr address checkpoint_ns].
    rewrite E. reflexivity. }
  rewrite CT in G. cbn [found] in G. subst r.
  eexists h', s', s'', _, _, vals.
  split; [exact P|]. split; [exact GT|]. split; [reflexivity|].
  split; [apply lookup_set_same|].
  intros k. rewrite L. simpl.
  destruct (mem k cv) eqn:M.
  - destruct (lookup k V); reflexivity.
  - destruct (lookup k V) eqn:LV; [|reflexivity].
    apply lookup_Some_keys, Hk, mem_true in LV. congruence.
Qed.

End RoundTripClaim.

Section ReadClaims.
Context {serde : SerializerProtocol} {base : Base}.

(** C4 (amended).  With a non-empty [checkpoint_id] in the address,
    [get_tuple] returns the tuple of the checkpoint stored under exactly
    that id in the thread and namespace, and [None] when none is stored
    under it.  With no [checkpoint_id], or an empty one, it returns the
    tuple of the checkpoint whose id is the greatest of the namespace, and
    [None] when the namespace holds no checkpoint.  Absence is a result:
    in neither case does an exception stand for it. *)
Theorem get_tuple_resolution (s : InMemorySaver) (cfg : RunnableConfig) :
  (forall id, get_checkpoint_id cfg = Some id -> id <> ""%string ->
     snd (get_tuple s cfg)
     = match lookup id (storage_at (thread_id cfg) (namespace_of cfg) s) with
       | Some saved =>
           found (snd (checkpoint_tuple s cfg (thread_id cfg) (namespace_of cfg) id saved))
       | None => Ok None
       end)
  /\ (get_checkpoint_id cfg = None \/ get_checkpoint_id cfg = Some ""%string ->
      match py_max (keys (storage_at (thread_id cfg) (namespace_of cfg) s)) with
      | Some m =>
          In m (keys (storage_at (thread_id cfg) (namespace_of cfg) s))
          /\ (forall k, In k (keys (storage_at (thread_id cfg) (namespace_of cfg) s)) ->
                String.leb k m = true)
          /\ exists saved,
               lookup m (storage_at (thread_id cfg) (namespace_of cfg) s) = Some saved
               /\ snd (get_tuple s cfg)
                  = found (snd (checkpoint_tuple s
                                  (address (thread_id cfg) (namespace_of cfg) (Some m))
                                  (thread_id cfg) (namespace_of cfg) m saved))
      | None =>
          storage_at (thread_id cfg) (namespace_of cfg) s = []
          /\ snd (get_tuple s cfg) = Ok None
      end).
Proof.
  split.
  - intros id G N.
    destruct (lookup id (storage_at (thread_id cfg) (namespace_of cfg) s)) as [saved|] eqn:L.
    + apply get_tuple_explicit; assumption.
    + eapply get_tuple_missing; eauto.
  - intros A.
    assert (T : truthy (get_checkpoint_id cfg) = false)
      by (destruct A as [-> | ->]; reflexivity).
    pose proof (get_tuple_latest s cfg T) as G.
    pose proof (py_max_spec (keys (storage_at (thread_id cfg) (namespace_of cfg) s))) as M.
    destruct (py_max _) as [m|].
    + destruct M as [I B]. split; [exact I|]. split; [exact B|].
      destruct (In_keys_lookup _ _ I) as [saved L]. exists saved. split; [exact L|].
      rewrite L in G. exact G.
    + split; [|exact G]. destruct (storage_at _ _ s); [reflexivity | discriminate M].
Qed.


End ReadClaims.


(* ================================================================== *)
(** * Instances of the claims on the example data *)

Module Checks.
Import RefSerde RefSerdeFacts Examples.
Local Open Scope string_scope.

Lemma ref_reserved_negative : @reserved_negative ref_base.
Proof.
  intros c z. unfold WRITES_IDX_MAP, ref_base. simpl.
  repeat (destruct (String.eqb c _); [intros Q; inversion Q; lia|]).
  discriminate.
Qed.

(** C1, as stated, fails.  (a) Checkpoint ["1"] is committed with channel
    values [{x: 1}] and new versions [{x: "v1"}], which cover [x], but its
    [channel_versions] does not list [x]: [get_tuple] on the returned
    address gives empty channel values.  (b) A checkpoint with the empty
    id and no channel values is committed after checkpoint ["1"]:
    [get_tuple] on the returned address gives checkpoint ["1"], with its
    channel values [{x: 1}]. *)
Lemma round_trip_counterexample :
  (snd (put heap empty_saver root 1 PyNone v1) = Ok (address "T" "" (Some "1"))
   /\ lookup "channel_values" c_unlisted = Some (PyDict [("x", PyInt 1)])
   /\ option_map (checkpoint_entry "channel_values")
        (tuple_of (snd (get_tuple (snd (fst (put heap empty_saver root 1 PyNone v1)))
                          (address "T" "" (Some "1")))))
      = Some (Some (PyDict [])))
  /\ (snd (put heap store1 root 2 PyNone []) = Ok (address "T" "" (Some ""))
      /\ lookup "channel_values" c_noid = Some (PyDict [])
      /\ option_map (checkpoint_entry "channel_values")
           (tuple_of (snd (get_tuple store2 (address "T" "" (Some "")))))
         = Some (Some (PyDict [("x", PyInt 1)]))).
Proof. repeat split; vm_compute; reflexivity. Qed.

Lemma put_get_round_trip_witness :
  exists h' s' s'' tup cd vals,
    put heap empty_saver root 0 PyNone v1 = (h', s', Ok (address "T" "" (Some "1")))
    /\ get_tuple s' (address "T" "" (Some "1")) = (s'', Ok (Some tup))
    /\ checkpoint tup = PyDict cd
    /\ lookup "channel_values" cd = Some (PyDict vals)
    /\ forall k, lookup k vals = lookup k [("x", PyInt 1)].
Proof.
  apply (@put_get_round_trip ref_serde ref_laws ref_base heap empty_saver root "" 0 c1 "1"
           [("x", PyInt 1)] [("x", PyStr "v1")] PyNone v1).
  - reflexivity.
  - reflexivity.
  - reflexivity.
  - discriminate.
  - reflexivity.
  - reflexivity.
  - intros k I. exact I.
  - intros k v [E|[]]. inversion E. exists (VStr "v1"). split; [reflexivity | left; reflexivity].
Defined.

Lemma delete_thread_witness :
  unknown_thread (delete_thread store2 "T") "T"
  /\ snd (get_tuple (delete_thread store2 "T") root) = Ok None
  /\ delete_thread empty_saver "T" = empty_saver.
Proof.
  split; [apply (@delete_thread_complete_and_frame ref_serde store2 "T")|].
  split; [apply (@delete_thread_complete_and_frame ref_serde store2 "T"); reflexivity|].
  apply (@delete_thread_complete_and_frame ref_serde empty_saver "T").
  repeat split; intros; reflexivity.
Defined.

Lemma put_writes_first_write_wins_witness :
  lookup ("t1", 0%Z)
    (writes_at ("T", "", "1")
       (fst (put_writes
               (fst (put_writes store1 (address "T" "" (Some "1")) [("c", PyStr "a")] "t1" ""))
               (address "T" "" (Some "1")) [("c", PyStr "b")] "t1" "")))
  = Some ("t1", "c", dumps_typed (PyStr "a"), "").
Proof.
  apply (@put_writes_first_write_wins ref_serde ref_base store1 (address "T" "" (Some "1"))
           "1" "t1" "" "" [("c", PyStr "a")] [("c", PyStr "b")] 0 "c" "c"
           (PyStr "a") (PyStr "b")).
  - exact ref_reserved_negative.
  - reflexivity.
  - reflexivity.
  - reflexivity.
  - reflexivity.
  - reflexivity.
  - reflexivity.
Defined.

(** C4, as stated, fails: a checkpoint is stored under the id [""], and
    [get_tuple] with that id in the address returns checkpoint ["1"]. *)
Lemma get_tuple_empty_id_counterexample :
  lookup "" (storage_at "T" "" store2) <> None
  /\ get_checkpoint_id (address "T" "" (Some "")) = Some ""
  /\ option_map tuple_id (tuple_of (snd (get_tuple store2 (address "T" "" (Some "")))))
     = Some "1"
  /\ option_map (checkpoint_entry "id")
       (tuple_of (snd (get_tuple store2 (address "T" "" (Some "")))))
     = Some (Some (PyStr "1")).
Proof. repeat split; try (vm_compute; reflexivity). vm_compute. discriminate. Qed.

Lemma get_tuple_resolution_witness :
  option_map tuple_id (tuple_of (snd (get_tuple store2 (address "T" "" (Some "1")))))
  = Some "1"
  /\ snd (get_tuple store2 (address "T" "" (Some "7"))) = Ok None
  /\ py_max (keys (storage_at "T" "" store2)) = Some "1".
Proof.
  pose proof (@get_tuple_resolution ref_serde store2 (address "T" "" (Some "1"))) as [A _].
  pose proof (@get_tuple_resolution ref_serde store2 (address "T" "" (Some "7"))) as [B _].
  split; [|split].
  - rewrite (A "1" eq_refl ltac:(discriminate)). reflexivity.
  - rewrite (B "7" eq_refl ltac:(discriminate)). reflexivity.
  - reflexivity.
Defined.


(** C6, as stated, fails: with the empty string as cursor, [list] yields
    checkpoint ["1"], and ["1" >= ""]. *)
Lemma list_before_empty_cursor_counterexample :
  get_checkpoint_id (address "T" "" (Some "")) = Some ""
  /\ map tuple_id
       (snd (fst (list_ store1 (Some root) None (Some (address "T" "" (Some ""))) None)))
     = ["1"]
  /\ String.leb "" "1" = true.
Proof. repeat split; vm_compute; reflexivity. Qed.

Lemma list_before_is_strict_bound_witness :
  Forall (fun tup => exists id, checkpoint_id (config tup) = Some id
                                /\ String.leb "2" id = false
                                /\ String.ltb id "2" = true)
    (snd (fst (list_ store2 None None (Some (address "T" "" (Some "2"))) None)))
  /\ List.length (snd (fst (list_ store2 None None (Some (address "T" "" (Some "2"))) None)))
     = 2.
Proof.
  split; [|reflexivity].
  apply (@list_before_is_strict_bound ref_serde store2 None None
           (address "T" "" (Some "2")) "2" None
           (fst (fst (list_ store2 None None (Some (address "T" "" (Some "2"))) None)))
           (snd (fst (list_ store2 None None (Some (address "T" "" (Some "2"))) None)))
           (snd (list_ store2 None None (Some (address "T" "" (Some "2"))) None))).
  - reflexivity.
  - discriminate.
  - reflexivity.
Defined.

(** C7, as stated, fails in three ways.  (a) From the bare integers [-5]
    and [-3] the prefixes are [-4] and [-2], and the string with prefix
    [-2] is the smaller one.  (b) From [2 * 10^31 - 1] and [10^32 - 1]
    the prefixes are [2 * 10^31] and [10^32], and the string with prefix
    [10^32] is the smaller one.  (c) Two calls from one current version
    whose draws are written as the same text return the same string.
    (d) With the limit of 4300 digits, the bare integer [10^4300 - 1] and
    the string of 4300 nines, which [int] reads as that integer, are
    current versions for which the call raises [ValueError]: [n + 1] has
    4301 digits. *)
Lemma next_version_order_counterexample :
  (get_next_version (VInt (-5)) "0.5" = Ok "-0000000000000000000000000000004.0.5"
   /\ get_next_version (VInt (-3)) "0.5" = Ok "-0000000000000000000000000000002.0.5"
   /\ py_int (before_dot "-0000000000000000000000000000004.0.5") = Some (-4)%Z
   /\ py_int (before_dot "-0000000000000000000000000000002.0.5") = Some (-2)%Z
   /\ String.ltb "-0000000000000000000000000000002.0.5"
                 "-0000000000000000000000000000004.0.5" = true)
  /\ (get_next_version (VInt (2 * 10 ^ 31 - 1)) "0.5"
      = Ok "20000000000000000000000000000000.0.5"
      /\ get_next_version (VInt (10 ^ 32 - 1)) "0.5"
         = Ok "100000000000000000000000000000000.0.5"
      /\ String.ltb "100000000000000000000000000000000.0.5"
                    "20000000000000000000000000000000.0.5" = true)
  /\ (forall r1 r2,
        get_next_version (VInt 1) "0.5" = Ok r1 ->
        get_next_version (VInt 1) "0.5" = Ok r2 ->
        r1 = "00000000000000000000000000000002.0.5" /\ r2 = r1)
  /\ (int_max_str_digits = 4300%Z
      /\ get_next_version (VInt (10 ^ 4300 - 1)) "0.5" = Raise ValueError
      /\ py_int (before_dot (string_of_list_ascii (repeat "9"%char 4300) ++ ".0.5"))
         = Some (10 ^ 4300 - 1)%Z
      /\ get_next_version (VStr (string_of_list_ascii (repeat "9"%char 4300) ++ ".0.5")) "0.5"
         = Raise ValueError).
Proof.
  split; [repeat split; vm_compute; reflexivity|].
  split; [repeat split; vm_compute; reflexivity|].
  split.
  - intros r1 r2 Q1 Q2. vm_compute in Q1, Q2. inversion Q1. inversion Q2. split; reflexivity.
  - assert (P : py_int (before_dot (string_of_list_ascii (repeat "9"%char 4300) ++ ".0.5"))
                = Some (10 ^ 4300 - 1)%Z).
    { apply (@py_int_nines default_limit 4300 4300%Z "0.5").
      - reflexivity.
      - reflexivity.
      - right. right. apply Z.le_refl. }
    split; [reflexivity|]. split; [|split; [exact P|]].
    + apply (@next_version_at_limit default_limit (VInt (10 ^ 4300 - 1)) "0.5" 4300%Z).
      * reflexivity.
      * discriminate.
      * reflexivity.
    + apply (@next_version_at_limit default_limit
               (VStr (string_of_list_ascii (repeat "9"%char 4300) ++ ".0.5")) "0.5" 4300%Z).
      * reflexivity.
      * discriminate.
      * exact P.
Qed.

Lemma next_version_increments_witness :
  get_next_version (VStr "00000000000000000000000000000001.0.5") "0.25"
  = Ok "00000000000000000000000000000002.0.25".
Proof.
  destruct (@next_version_increments default_limit
              (VStr "00000000000000000000000000000001.0.5") 1 "0.25")
    as [G _].
  - right. right. exists "00000000000000000000000000000001.0.5". split; reflexivity.
  - right. vm_compute. reflexivity.
  - exact G.
Defined.

Lemma next_version_malformed_raises_witness :
  py_int (before_dot "abc.1") = None
  /\ get_next_version (VStr "abc.1") "0.25" = Raise ValueError
  /\ get_next_version (VStr "12a.1") "0.25" = Raise ValueError.
Proof.
  split; [reflexivity|]. split.
  - apply (proj1 (@next_version_malformed_raises default_limit "abc.1" "0.25")). reflexivity.
  - destruct (@next_version_malformed_raises default_limit "12a.1" "0.25") as [_ [_ [_ S]]].
    apply (S "a"%char).
    + right. right. left. reflexivity.
    + reflexivity.
    + reflexivity.
    + discriminate.
    + discriminate.
    + discriminate.
Defined.

Lemma sync_failure_keeps_destination_witness :
  snd (sync toy_dump (fst (sync toy_dump disk0 pd_small)) pd_large) = Raise TypeError
  /\ lookup "db.tmp" (files (fst (sync toy_dump (fst (sync toy_dump disk0 pd_small)) pd_large)))
     = None
  /\ lookup "db" (files (fst (sync toy_dump (fst (sync toy_dump disk0 pd_small)) pd_large)))
     = Some [Byte.x41; Byte.x42].
Proof.
  destruct (@sync_failure_keeps_destination bytes toy_dump
              (fst (sync toy_dump disk0 pd_small)) pd_large [Byte.x41; Byte.x42] TypeError)
    as [A [B [_ [_ C]]]].
  - discriminate.
  - reflexivity.
  - split; [exact A|]. split; [exact B|].
    apply (C disk0 pd_small [Byte.x41; Byte.x42]).
    + reflexivity.
    + discriminate.
    + reflexivity.
    + reflexivity.
Defined.

Lemma put_leaves_arguments_witness :
  lookup 0 (fst (fst (put heap empty_saver root 0 PyNone v1))) = Some c1
  /\ dict_getitem (fst (fst (put heap empty_saver root 0 PyNone v1))) 0 "channel_values"
     = Ok (PyDict [("x", PyInt 1)]).
Proof.
  apply (@put_leaves_arguments ref_serde ref_base heap empty_saver root 0 PyNone v1 c1
           (PyDict [("x", PyInt 1)])).
  - reflexivity.
  - reflexivity.
Defined.

(** ** The operations on small inputs *)

Example py_int_reads :
  py_int " 12 " = Some 12%Z /\ py_int "1_000" = Some 1000%Z /\ py_int "-7" = Some (-7)%Z
  /\ py_int "007" = Some 7%Z /\ py_int "1__0" = None /\ py_int "_1" = None
  /\ py_int "" = None /\ py_int "+ 5" = None /\ py_int "0x10" = None.
Proof. repeat split; reflexivity. Qed.

(** [U+00A0] and [U+0085] are whitespace for [int]; the separators
    [U+001C] and [U+001F] are not. *)
Example py_int_whitespace :
  py_int (String (ascii_of_nat 160) "5") = Some 5%Z
  /\ py_int (String (ascii_of_nat 133) "5 ") = Some 5%Z
  /\ py_int (String (ascii_of_nat 28) "5") = None
  /\ py_int ("5" ++ String (ascii_of_nat 31) "") = None
  /\ get_next_version (VStr (String (ascii_of_nat 160) "5.1")) "0.5"
     = Ok "00000000000000000000000000000006.0.5"
  /\ get_next_version (VStr (String (ascii_of_nat 28) "5.1")) "0.5" = Raise ValueError.
Proof. repeat split; vm_compute; reflexivity. Qed.

Example next_version_from_absence :
  get_next_version VNone "0.5" = Ok "00000000000000000000000000000001.0.5".
Proof. reflexivity. Qed.

(** Checkpoint ["2"] is committed on top of ["1"] with only [y] among the
    new versions: the value of [x] is read from the blob that ["1"] wrote. *)
Example unchanged_channel_is_read_back :
  let s := snd (fst (put heap store1 (address "T" "" (Some "1")) 3 PyNone [("y", VStr "v2")])) in
  option_map (checkpoint_entry "channel_values")
    (tuple_of (snd (get_tuple s (address "T" "" (Some "2")))))
  = Some (Some (PyDict [("x", PyInt 1); ("y", PyInt 2)]))
  /\ option_map parent_config (tuple_of (snd (get_tuple s (address "T" "" (Some "2")))))
     = Some (Some (address "T" "" (Some "1")))
  /\ List.length (blobs s) = 2.
Proof. repeat split; vm_compute; reflexivity. Qed.

(** Two calls of [put_writes] with task ["t1"], ordinal 0, values ["a"]
    then ["b"]: the pending writes of the checkpoint show only ["a"]. *)
Example pending_writes_show_first :
  let a := address "T" "" (Some "1") in
  let s := fst (put_writes (fst (put_writes store1 a [("c", PyStr "a")] "t1" ""))
                   a [("c", PyStr "b")] "t1" "") in
  option_map pending_writes (tuple_of (snd (get_tuple s a)))
  = Some [("t1", "c", PyStr "a")].
Proof. vm_compute. reflexivity. Qed.

(** A write to a reserved channel has a negative index and is replaced
    by the next call. *)
Example reserved_write_is_replaced :
  let a := address "T" "" (Some "1") in
  let s := fst (put_writes (fst (put_writes store1 a [("__error__", PyStr "a")] "t1" ""))
                   a [("__error__", PyStr "b")] "t1" "") in
  option_map pending_writes (tuple_of (snd (get_tuple s a)))
  = Some [("t1", "__error__", PyStr "b")].
Proof. vm_compute. reflexivity. Qed.

(** [pop] acts on the object it is called on: without the copy, [put]
    would take the entry out of the caller's checkpoint. *)
Example pop_updates_its_object :
  lookup "channel_values" (get_or 0 (fst (dict_pop heap 0 "channel_values")) []) = None
  /\ lookup "channel_values" (get_or 0 heap []) = Some (PyDict [("x", PyInt 1)]).
Proof. split; reflexivity. Qed.

(** Reading an unknown thread creates its entries in the [defaultdict]. *)
Example get_tuple_creates_entries :
  storage (fst (get_tuple empty_saver root)) = [("T", [("", [])])]
  /\ snd (get_tuple empty_saver root) = Ok None.
Proof. split; reflexivity. Qed.

Example list_respects_limit :
  map tuple_id (snd (fst (list_ store2 None None None (Some 1%Z)))) = ["1"]
  /\ map tuple_id (snd (fst (list_ store2 None None None (Some 0%Z)))) = [].
Proof. split; vm_compute; reflexivity. Qed.

End Checks.

(* ================================================================== *)
(** * Further properties of the operations *)

(** ** Committing *)

Lemma set_same_value {K V} `{EqKey K} (k : K) (v : V) (d : Dict K V) :
  lookup k d = Some v -> set k v d = d.
Proof.
  induction d as [|[k0 v0] d IH]; simpl; [discriminate|].
  destruct (keq k k0) eqn:E.
  - intros Q. inversion Q. reflexivity.
  - intros Q. f_equal. apply IH. exact Q.
Qed.

Lemma touch_present {K V} `{EqKey K} (k : K) (dflt v : V) (d : Dict K V) :
  lookup k d = Some v -> touch k dflt d = d.
Proof. intros L. unfold touch, mem. rewrite L. reflexivity. Qed.

(** The checkpoints of a namespace after the checkpoints of one namespace
    were replaced. *)
Lemma storage_at_set_namespace (st : Dict string (Dict string (Dict string Saved)))
    (w : Dict WritesKey (Dict (string * Z) WriteEntry)) (b : Dict BlobKey Typed)
    (t ns t' ns' : string) (c : Dict string Saved) :
  storage_at t' ns'
    {| storage := set t (set ns c (get_or t st [])) st; writes := w; blobs := b |}
  = if String.eqb t' t && String.eqb ns' ns then c
    else storage_at t' ns' {| storage := st; writes := w; blobs := b |}.
Proof.
  unfold storage_at. cbn [storage].
  destruct (String.eqb t' t) eqn:E; simpl.
  - apply String.eqb_eq in E. subst. rewrite get_or_set_same.
    destruct (String.eqb ns' ns) eqn:E2.
    + apply String.eqb_eq in E2. subst. apply get_or_set_same.
    + apply String.eqb_neq in E2. apply get_or_set_other. exact E2.
  - apply String.eqb_neq in E. rewrite get_or_set_other by exact E. reflexivity.
Qed.

Section CommitFacts.
Context {serde : SerializerProtocol} {base : Base}.

Lemma put_blobs_other t ns vals nv (key : BlobKey) :
  forall b,
    (forall k v, In (k, v) nv -> key <> (t, ns, k, v)) ->
    lookup key (fst (put_blobs t ns vals nv b)) = lookup key b.
Proof.
  induction nv as [|[k v] nv IH]; intros b N; simpl; [reflexivity|].
  destruct vals as [| z | text | d]; try reflexivity.
  - destruct (str_contains k text); [reflexivity|].
    rewrite IH by (intros k0 v0 I; apply N; right; exact I).
    apply lookup_set_other. apply N. left. reflexivity.
  - rewrite IH by (intros k0 v0 I; apply N; right; exact I).
    apply lookup_set_other. apply N. left. reflexivity.
Qed.

Lemma put_blobs_fixed t ns vs nv :
  forall b,
    (forall k v, In (k, v) nv -> lookup (t, ns, k, v) b = Some (blob_of vs k)) ->
    fst (put_blobs t ns (PyDict vs) nv b) = b.
Proof.
  induction nv as [|[k v] nv IH]; intros b P; simpl; [reflexivity|].
  fold (blob_of vs k). rewrite set_same_value by (apply P; left; reflexivity).
  apply IH. intros k0 v0 I. apply P. right. exact I.
Qed.

(** The store that [put] leaves when it returns. *)
Lemma put_store_form h s cfg ns l d id V md nv :
  checkpoint_ns cfg = Some ns ->
  lookup l h = Some d ->
  lookup "id"%string d = Some (PyStr id) ->
  lookup "channel_values"%string d = Some (PyDict V) ->
  put h s cfg l md nv
  = (set (fresh h) (remove "channel_values"%string d) (set (fresh h) d h),
     let b := fst (put_blobs (thread_id cfg) ns (PyDict V) nv (blobs s)) in
     let s1 := storage_touch (thread_id cfg) ns
                 {| storage := storage s; writes := writes s; blobs := b |} in
     {| storage :=
          set (thread_id cfg)
              (set ns
                   (set id
                        (dumps_typed (PyDict (remove "channel_values"%string d)),
                         dumps_typed (get_checkpoint_metadata cfg md),
                         checkpoint_id cfg)
                        (storage_at (thread_id cfg) ns s1))
                   (get_or (thread_id cfg) (storage s1) []))
              (storage s1);
        writes := writes s;
        blobs := b |},
     Ok (address (thread_id cfg) ns (Some id))).
Proof.
  intros Hns Hl Hid Hv.
  pose proof (fresh_not_live Hl) as Nf.
  assert (G1 : get_or l h [] = d) by (unfold get_or; rewrite Hl; reflexivity).
  unfold put, dict_copy. rewrite Hns, G1.
  unfold dict_pop. rewrite get_or_set_same, Hv.
  pose proof (put_blobs_ok (thread_id cfg) ns V nv (blobs s)) as PB.
  destruct (put_blobs (thread_id cfg) ns (PyDict V) nv (blobs s)) as [b e] eqn:PE.
  simpl in PB. subst e.
  unfold dict_getitem. rewrite !get_or_set_other by exact Nf. rewrite G1, Hid.
  rewrite get_or_set_same. reflexivity.
Qed.

End CommitFacts.

Lemma storage_touch_present (s : InMemorySaver) (t ns : string)
    (inner : Dict string (Dict string Saved)) (c : Dict string Saved) :
  lookup t (storage s) = Some inner ->
  lookup ns inner = Some c ->
  storage_touch t ns s = s.
Proof.
  intros Lt Ln. unfold storage_touch. destruct s as [st w b]. cbn [storage writes blobs] in *.
  unfold Dict in *.
  rewrite touch_present with (v := inner) by exact Lt.
  unfold get_or. rewrite Lt. rewrite touch_present with (v := c) by exact Ln.
  rewrite set_same_value by exact Lt. reflexivity.
Qed.

Section Recommit.
Context {serde : SerializerProtocol} {base : Base}.

(** X1.  Committing the same checkpoint again, with the same address,
    metadata and new versions, leaves the store exactly as the first
    commit left it and returns the same address. *)
Theorem put_again_keeps_store (h : Heap) (s : InMemorySaver) (cfg : RunnableConfig)
    (ns : string) (l : Ref) (d : Dict string Any) (id : string) (V : Dict string Any)
    (md : Any) (nv : Dict string Version) :
  checkpoint_ns cfg = Some ns ->
  lookup l h = Some d ->
  lookup "id"%string d = Some (PyStr id) ->
  lookup "channel_values"%string d = Some (PyDict V) ->
  snd (fst (put (fst (fst (put h s cfg l md nv))) (snd (fst (put h s cfg l md nv)))
              cfg l md nv))
  = snd (fst (put h s cfg l md nv))
  /\ snd (put (fst (fst (put h s cfg l md nv))) (snd (fst (put h s cfg l md nv)))
            cfg l md nv)
     = snd (put h s cfg l md nv).
Proof.
  intros Hns Hl Hid Hv.
  pose proof (fresh_not_live Hl) as Nf.
  rewrite (@put_store_form serde base h s cfg ns l d id V md nv Hns Hl Hid Hv). cbn [fst snd].
  set (t := thread_id cfg).
  set (b1 := fst (put_blobs t ns (PyDict V) nv (blobs s))).
  set (saved := (dumps_typed (PyDict (remove "channel_values"%string d)),
                 dumps_typed (get_checkpoint_metadata cfg md), checkpoint_id cfg)).
  set (s0 := storage_touch t ns {| storage := storage s; writes := writes s; blobs := b1 |}).
  set (C := set id saved (storage_at t ns s0)).
  set (inner := set ns C (get_or t (storage s0) [])).
  set (S1 := {| storage := set t inner (storage s0); writes := writes s; blobs := b1 |}).
  assert (Hl1 : lookup l (set (fresh h) (remove "channel_values"%string d) (set (fresh h) d h))
                = Some d).
  { rewrite !lookup_set_other by exact Nf. exact Hl. }
  rewrite (@put_store_form serde base _ S1 cfg ns l d id V md nv Hns Hl1 Hid Hv). cbn [fst snd].
  split; [|reflexivity].
  fold t. cbn [blobs writes S1].
  assert (B : fst (put_blobs t ns (PyDict V) nv b1) = b1).
  { apply put_blobs_fixed. intros k v I. unfold b1. apply put_blobs_written. exact I. }
  rewrite B.
  assert (T : storage_touch t ns
                {| storage := storage S1; writes := writes s; blobs := b1 |} = S1).
  { apply (@storage_touch_present S1 t ns inner C).
    - unfold S1. cbn [storage]. apply lookup_set_same.
    - unfold inner. apply lookup_set_same. }
  rewrite T.
  assert (A : storage_at t ns S1 = C).
  { unfold S1, inner. rewrite storage_at_set_namespace. rewrite !String.eqb_refl. reflexivity. }
  rewrite A.
  assert (G : get_or t (storage S1) [] = inner).
  { unfold S1. cbn [storage]. apply get_or_set_same. }
  rewrite G.
  fold saved.
  assert (E1 : set id saved C = C) by (apply set_same_value; unfold C; apply lookup_set_same).
  rewrite E1.
  assert (E2 : set ns C inner = inner)
    by (apply set_same_value; unfold inner; apply lookup_set_same).
  rewrite E2.
  assert (E3 : set t inner (storage S1) = storage S1).
  { apply set_same_value. unfold S1. cbn [storage]. apply lookup_set_same. }
  rewrite E3. reflexivity.
Qed.

End Recommit.

Section CommitFrame.
Context {serde : SerializerProtocol} {base : Base}.

Lemma storage_at_with_blobs (s : InMemorySaver) (b : Dict BlobKey Typed) (t ns : string) :
  storage_at t ns {| storage := storage s; writes := writes s; blobs := b |}
  = storage_at t ns s.
Proof. reflexivity. Qed.

Lemma copied_id (h : Heap) (l : Ref) :
  lookup "id"%string
    (get_or l (set (fresh h) (remove "channel_values"%string (get_or l h []))
                   (set (fresh h) (get_or l h []) h)) [])
  = lookup "id"%string (get_or l h []).
Proof.
  destruct (Nat.eq_dec l (fresh h)) as [E|N].
  - subst l. rewrite get_or_set_same. apply lookup_remove_other. discriminate.
  - rewrite !get_or_set_other by exact N. reflexivity.
Qed.

(** X2.  [put] never touches the write buffer; it leaves every blob
    alone whose key is not (thread, namespace, channel, version) for a
    pair of [new_versions]; and it leaves every checkpoint alone other
    than the one stored under the thread and namespace of the address and
    the id of the checkpoint. *)
Theorem put_frame (h : Heap) (s : InMemorySaver) (cfg : RunnableConfig) (l : Ref)
    (md : Any) (nv : Dict string Version) :
  writes (snd (fst (put h s cfg l md nv))) = writes s
  /\ (forall key : BlobKey,
        (forall ns k v, checkpoint_ns cfg = Some ns -> In (k, v) nv ->
                        key <> (thread_id cfg, ns, k, v)) ->
        lookup key (blobs (snd (fst (put h s cfg l md nv)))) = lookup key (blobs s))
  /\ (forall t' ns' id',
        ~ (t' = thread_id cfg /\ checkpoint_ns cfg = Some ns'
           /\ dict_getitem h l "id" = Ok (PyStr id')) ->
        lookup id' (storage_at t' ns' (snd (fst (put h s cfg l md nv))))
        = lookup id' (storage_at t' ns' s)).
Proof.
  unfold put, dict_copy, dict_pop.
  destruct (checkpoint_ns cfg) as [ns|] eqn:Hns; cbn [fst snd]; [|auto].
  rewrite get_or_set_same.
  destruct (lookup "channel_values"%string (get_or l h [])) as [vals|] eqn:Hv;
    cbn [fst snd]; [|auto].
  assert (PO : forall key : BlobKey,
            (forall ns0 k v, Some ns = Some ns0 -> In (k, v) nv ->
                             key <> (thread_id cfg, ns0, k, v)) ->
            lookup key (fst (put_blobs (thread_id cfg) ns vals nv (blobs s)))
            = lookup key (blobs s)).
  { intros key N. apply put_blobs_other. intros k v I. apply (N ns k v eq_refl I). }
  destruct (put_blobs (thread_id cfg) ns vals nv (blobs s)) as [b [e|]] eqn:PB;
    cbn [fst snd] in *.
  - split; [reflexivity|]. split; [exact PO|]. intros. reflexivity.
  - unfold dict_getitem. rewrite copied_id.
    destruct (lookup "id"%string (get_or l h [])) as [idv|] eqn:Hid.
    + destruct idv as [| z | id | dd]; cbn [fst snd];
        try (split; [reflexivity|]; split; [exact PO|];
             intros; rewrite storage_at_touch; reflexivity).
      split; [reflexivity|]. split; [exact PO|].
      intros t' ns' id' N. cbn [writes blobs storage_touch].
      rewrite storage_at_set_namespace.
      destruct (String.eqb t' (thread_id cfg) && String.eqb ns' ns) eqn:E.
      * apply andb_true_iff in E. destruct E as [E1 E2].
        apply String.eqb_eq in E1. apply String.eqb_eq in E2. subst t' ns'.
        rewrite lookup_set_other.
        -- fold (storage_touch (thread_id cfg) ns
                   {| storage := storage s; writes := writes s; blobs := b |}).
           rewrite storage_at_touch. reflexivity.
        -- intros Q. subst id'. apply N. auto.
      * fold (storage_touch (thread_id cfg) ns
                {| storage := storage s; writes := writes s; blobs := b |}).
        change {| storage := storage (storage_touch (thread_id cfg) ns
                                {| storage := storage s; writes := writes s; blobs := b |});
                  writes := writes s; blobs := b |}
          with (storage_touch (thread_id cfg) ns
                  {| storage := storage s; writes := writes s; blobs := b |}).
        rewrite storage_at_touch. reflexivity.
    + cbn [fst snd]. split; [reflexivity|]. split; [exact PO|].
      intros. rewrite storage_at_touch. reflexivity.
Qed.

(** X3.  A [put] that raises records no checkpoint: every namespace of
    every thread holds the checkpoints it held, and the write buffer is
    untouched.  When the address has no [checkpoint_ns], or the checkpoint
    has no [channel_values], the exception is [KeyError] and the store is
    the one before the call. *)
Theorem put_failure_records_nothing (h : Heap) (s : InMemorySaver) (cfg : RunnableConfig)
    (l : Ref) (md : Any) (nv : Dict string Version) :
  (forall e, snd (put h s cfg l md nv) = Raise e ->
     writes (snd (fst (put h s cfg l md nv))) = writes s
     /\ forall t' ns', storage_at t' ns' (snd (fst (put h s cfg l md nv)))
                       = storage_at t' ns' s)
  /\ (checkpoint_ns cfg = None \/ lookup "channel_values"%string (get_or l h []) = None ->
      snd (put h s cfg l md nv) = Raise KeyError
      /\ snd (fst (put h s cfg l md nv)) = s).
Proof.
  unfold put, dict_copy, dict_pop.
  destruct (checkpoint_ns cfg) as [ns|] eqn:Hns; cbn [fst snd]; [|auto].
  rewrite get_or_set_same.
  destruct (lookup "channel_values"%string (get_or l h [])) as [vals|] eqn:Hv;
    cbn [fst snd]; [|auto].
  split; [|intros [Q|Q]; discriminate].
  destruct (put_blobs (thread_id cfg) ns vals nv (blobs s)) as [b [e0|]] eqn:PB;
    cbn [fst snd].
  - intros e _. split; reflexivity.
  - unfold dict_getitem.
    destruct (lookup "id"%string _) as [[| z | id | dd]|]; cbn [fst snd];
      try (intros e _; split; [reflexivity | intros; rewrite storage_at_touch; reflexivity]).
    intros e Q. discriminate.
Qed.

End CommitFrame.

Section CommitThenRead.
Context {serde : SerializerProtocol} {base : Base}.

(** The checkpoints of the namespace after a [put] that returns. *)
Lemma put_namespace h s cfg ns l d id V md nv :
  checkpoint_ns cfg = Some ns ->
  lookup l h = Some d ->
  lookup "id"%string d = Some (PyStr id) ->
  lookup "channel_values"%string d = Some (PyDict V) ->
  storage_at (thread_id cfg) ns (snd (fst (put h s cfg l md nv)))
  = set id (dumps_typed (PyDict (remove "channel_values"%string d)),
            dumps_typed (get_checkpoint_metadata cfg md), checkpoint_id cfg)
        (storage_at (thread_id cfg) ns s).
Proof.
  intros Hns Hl Hid Hv.
  rewrite (@put_store_form serde base h s cfg ns l d id V md nv Hns Hl Hid Hv).
  cbn [fst snd]. rewrite storage_at_set_namespace, !String.eqb_refl. cbn [andb].
  rewrite storage_at_touch. reflexivity.
Qed.

Lemma load_blobs_items_total b t ns :
  forall (cv : list (string * Any)) (acc : Dict string Any),
    (forall k v, In (k, v) cv -> hashable v <> None) ->
    exists res, load_blobs_items b t ns cv acc = Ok res.
Proof.
  induction cv as [|[k v] cv IH]; intros acc Hh; simpl; [eauto|].
  destruct (hashable v) as [hv|] eqn:E; [|exfalso; apply (Hh k v (or_introl eq_refl)); exact E].
  assert (Hh' : forall k0 v0, In (k0, v0) cv -> hashable v0 <> None)
    by (intros k0 v0 I; apply (Hh k0 v0); right; exact I).
  destruct (lookup (t, ns, k, hv) b) as [vv|]; [|apply IH; exact Hh'].
  destruct (negb (String.eqb (fst vv) "empty")); apply IH; exact Hh'.
Qed.

(** X4.  After a [put] whose checkpoint id is not below any id of the
    namespace, [get_tuple] without a checkpoint id returns what
    [get_tuple] with the id of that checkpoint returns: the latest
    checkpoint is the one just committed. *)
Theorem put_then_latest (h : Heap) (s : InMemorySaver) (cfg : RunnableConfig)
    (ns : string) (l : Ref) (d : Dict string Any) (id : string) (V : Dict string Any)
    (md : Any) (nv : Dict string Version) :
  checkpoint_ns cfg = Some ns ->
  lookup l h = Some d ->
  lookup "id"%string d = Some (PyStr id) ->
  id <> ""%string ->
  lookup "channel_values"%string d = Some (PyDict V) ->
  (forall k, In k (keys (storage_at (thread_id cfg) ns s)) -> String.leb k id = true) ->
  py_max (keys (storage_at (thread_id cfg) ns (snd (fst (put h s cfg l md nv))))) = Some id
  /\ snd (get_tuple (snd (fst (put h s cfg l md nv))) (address (thread_id cfg) ns None))
     = snd (get_tuple (snd (fst (put h s cfg l md nv)))
              (address (thread_id cfg) ns (Some id))).
Proof.
  intros Hns Hl Hid Nid Hv Hmax.
  pose proof (@put_namespace h s cfg ns l d id V md nv Hns Hl Hid Hv) as PN.
  set (S1 := snd (fst (put h s cfg l md nv))) in *.
  set (saved := (dumps_typed (PyDict (remove "channel_values"%string d)),
                 dumps_typed (get_checkpoint_metadata cfg md), checkpoint_id cfg)) in *.
  assert (M : py_max (keys (storage_at (thread_id cfg) ns S1)) = Some id).
  { pose proof (py_max_spec (keys (storage_at (thread_id cfg) ns S1))) as P.
    destruct (py_max _) as [m|].
    - destruct P as [I B]. f_equal. apply String.leb_antisym.
      + rewrite PN in I. apply In_keys_set in I. destruct I as [->|I];
          [apply leb_refl | apply Hmax; exact I].
      + apply B. rewrite PN. apply In_keys_set. left. reflexivity.
    - exfalso.
      assert (I : In id (keys (storage_at (thread_id cfg) ns S1)))
        by (rewrite PN; apply In_keys_set; left; reflexivity).
      rewrite P in I. destruct I. }
  split; [exact M|].
  assert (L : lookup id (storage_at (thread_id cfg) ns S1) = Some saved)
    by (rewrite PN; apply lookup_set_same).
  rewrite (@get_tuple_latest serde S1 (address (thread_id cfg) ns None) eq_refl).
  cbn [thread_id namespace_of address checkpoint_ns]. rewrite M, L.
  rewrite (@get_tuple_explicit serde S1 (address (thread_id cfg) ns (Some id)) id saved
             eq_refl Nid L).
  reflexivity.
Qed.

End CommitThenRead.

Section CommitThenReadLaws.
Context {serde : SerializerProtocol} {laws : SerializerLaws serde} {base : Base}.

(** X5.  A checkpoint with a non-empty id, whose [channel_versions] is a
    mapping to hashable versions, is committed; [get_tuple] on the
    returned address then returns a tuple with that address, with the
    metadata that [get_checkpoint_metadata] made of the address and the
    metadata of the call, with the checkpoint id of the address of the
    call as parent when it is non-empty and no parent otherwise, and with
    every entry of the checkpoint other than [channel_values] as it was
    committed. *)
Theorem put_then_get_returns_commit (h : Heap) (s : InMemorySaver) (cfg : RunnableConfig)
    (ns : string) (l : Ref) (d : Dict string Any) (id : string)
    (V cv : Dict string Any) (md : Any) (nv : Dict string Version) :
  checkpoint_ns cfg = Some ns ->
  lookup l h = Some d ->
  lookup "id"%string d = Some (PyStr id) ->
  id <> ""%string ->
  lookup "channel_values"%string d = Some (PyDict V) ->
  lookup "channel_versions"%string d = Some (PyDict cv) ->
  (forall k v, In (k, v) cv -> hashable v <> None) ->
  exists tup,
    snd (get_tuple (snd (fst (put h s cfg l md nv))) (address (thread_id cfg) ns (Some id)))
    = Ok (Some tup)
    /\ config tup = address (thread_id cfg) ns (Some id)
    /\ metadata tup = get_checkpoint_metadata cfg md
    /\ parent_config tup
       = (if truthy (checkpoint_id cfg)
          then Some (address (thread_id cfg) ns (checkpoint_id cfg))
          else None)
    /\ forall key, key <> "channel_values"%string -> checkpoint_entry key tup = lookup key d.
Proof.
  intros Hns Hl Hid Nid Hv Hcv Hh.
  pose proof (@put_namespace serde base h s cfg ns l d id V md nv Hns Hl Hid Hv) as PN.
  set (S1 := snd (fst (put h s cfg l md nv))) in *.
  set (saved := (dumps_typed (PyDict (remove "channel_values"%string d)),
                 dumps_typed (get_checkpoint_metadata cfg md), checkpoint_id cfg)) in *.
  assert (L : lookup id (storage_at (thread_id cfg) ns S1) = Some saved)
    by (rewrite PN; apply lookup_set_same).
  rewrite (@get_tuple_explicit serde S1 (address (thread_id cfg) ns (Some id)) id saved
             eq_refl Nid L).
  cbn [thread_id namespace_of address checkpoint_ns].
  destruct (@load_blobs_items_total serde
              (blobs (writes_touch (thread_id cfg, ns, id) S1)) (thread_id cfg) ns cv [] Hh)
    as [vals E].
  unfold checkpoint_tuple, saved. rewrite !loads_dumps.
  rewrite lookup_remove_other by discriminate. rewrite Hcv.
  unfold _load_blobs. rewrite E. cbn [snd found].
  eexists. split; [reflexivity|]. cbn [config metadata parent_config].
  split; [reflexivity|]. split; [reflexivity|]. split; [reflexivity|].
  intros key N. unfold checkpoint_entry. cbn [checkpoint].
  rewrite lookup_set_other by exact N. apply lookup_remove_other. exact N.
Qed.

End CommitThenReadLaws.

(* ------------------------------------------------------------------ *)
(** ** More on staging writes *)

Section WriteBuffer.
Context {serde : SerializerProtocol} {base : Base}.

Local Abbreviation WBuf := (Dict WritesKey (Dict (string * Z) WriteEntry)).

Lemma loop_app outer al task path (ws1 ws2 : list (string * Any)) :
  forall idx (w : WBuf),
    put_writes_loop outer al task path idx (ws1 ++ ws2) w
    = put_writes_loop outer al task path (idx + Z.of_nat (List.length ws1)) ws2
        (put_writes_loop outer al task path idx ws1 w).
Proof.
  induction ws1 as [|[c v] ws1 IH]; intros idx w.
  - simpl. rewrite Z.add_0_r. reflexivity.
  - cbn [app put_writes_loop List.length].
    replace (idx + Z.of_nat (S (List.length ws1)))%Z
      with ((idx + 1) + Z.of_nat (List.length ws1))%Z by lia.
    destruct (_ && _ && _); apply IH.
Qed.

Lemma loop_other_buffer outer al task path (key : WritesKey) :
  key <> outer ->
  forall ws idx (w : WBuf),
    lookup key (put_writes_loop outer al task path idx ws w) = lookup key w.
Proof.
  intros N. induction ws as [|[c v] ws IH]; intros idx w; simpl; [reflexivity|].
  destruct (_ && _ && _); [apply IH|].
  rewrite IH. rewrite lookup_set_other by exact N. apply touch_lookup_other. exact N.
Qed.

Lemma loop_other_task outer al task path (ik : string * Z) :
  fst ik <> task ->
  forall ws idx (w : WBuf),
    lookup ik (get_or outer (put_writes_loop outer al task path idx ws w) [])
    = lookup ik (get_or outer w []).
Proof.
  intros N. induction ws as [|[c v] ws IH]; intros idx w; simpl; [reflexivity|].
  destruct (_ && _ && _); [apply IH|].
  rewrite IH. apply stored_write_other. intros Q. subst ik. apply N. reflexivity.
Qed.

(** A key that no write of the call is indexed by keeps its entry. *)
Lemma loop_keeps_key outer al task path (key : string * Z) :
  forall ws idx (w : WBuf),
    (snd key < idx)%Z ->
    (forall c v, In (c, v) ws -> lookup c WRITES_IDX_MAP <> Some (snd key)) ->
    lookup key (get_or outer (put_writes_loop outer al task path idx ws w) [])
    = lookup key (get_or outer w []).
Proof.
  induction ws as [|[c v] ws IH]; intros idx w B R; simpl; [reflexivity|].
  assert (R' : forall c0 v0, In (c0, v0) ws -> lookup c0 WRITES_IDX_MAP <> Some (snd key))
    by (intros c0 v0 I; apply (R c0 v0); right; exact I).
  destruct (_ && _ && _); [apply IH; [lia | exact R']|].
  rewrite IH by (try lia; exact R'). apply stored_write_other.
  intros Q. subst key. cbn [snd] in *.
  unfold get_or in B, R. specialize (R c v (or_introl eq_refl)).
  destruct (lookup c WRITES_IDX_MAP); [apply R; reflexivity | lia].
Qed.

Lemma loop_keeps_presence outer al task path (key : string * Z) :
  forall ws idx (w : WBuf),
    mem key (get_or outer w []) = true ->
    mem key (get_or outer (put_writes_loop outer al task path idx ws w) []) = true.
Proof.
  induction ws as [|[c v] ws IH]; intros idx w M; simpl; [exact M|].
  destruct (_ && _ && _); [apply IH; exact M|].
  apply IH. rewrite get_or_set_same, get_or_touch.
  destruct (pair_eqb key (task, get_or c WRITES_IDX_MAP idx)) eqn:E.
  - apply pair_eqb_spec in E. subst key. apply mem_set_same.
  - rewrite mem_set_other; [exact M|].
    intros Q. subst key.
    assert (T : pair_eqb (task, get_or c WRITES_IDX_MAP idx) (task, get_or c WRITES_IDX_MAP idx)
                = true) by (apply pair_eqb_spec; reflexivity).
    congruence.
Qed.

(** After the loop every ordinal position of the call has an entry. *)
Lemma loop_fills_ordinals outer al task path :
  forall ws idx (w : WBuf) n,
    (forall c v, In (c, v) ws -> lookup c WRITES_IDX_MAP = None) ->
    n < List.length ws ->
    mem (task, (idx + Z.of_nat n)%Z)
        (get_or outer (put_writes_loop outer al task path idx ws w) []) = true.
Proof.
  induction ws as [|[c v] ws IH]; intros idx w n R L; [simpl in L; lia|].
  assert (R' : forall c0 v0, In (c0, v0) ws -> lookup c0 WRITES_IDX_MAP = None)
    by (intros c0 v0 I; apply (R c0 v0); right; exact I).
  assert (G : get_or c WRITES_IDX_MAP idx = idx)
    by (unfold get_or; rewrite (R c v (or_introl eq_refl)); reflexivity).
  cbn [put_writes_loop]. rewrite G. cbn [snd].
  destruct n as [|n].
  - rewrite Z.add_0_r.
    destruct (_ && _ && _) eqn:Skip.
    + apply loop_keeps_presence. apply andb_true_iff in Skip. apply Skip.
    + apply loop_keeps_presence. rewrite get_or_set_same. apply mem_set_same.
  - replace (idx + Z.of_nat (S n))%Z with ((idx + 1) + Z.of_nat n)%Z by lia.
    simpl in L. destruct (_ && _ && _); apply IH; try exact R'; lia.
Qed.

(** With the buffer in place and every ordinal position taken, a call
    with ordinary channels stores nothing. *)
Lemma loop_skips_taken outer task path :
  forall ws idx (w : WBuf),
    (0 <= idx)%Z ->
    (forall c v, In (c, v) ws -> lookup c WRITES_IDX_MAP = None) ->
    (forall n, n < List.length ws ->
       mem (task, (idx + Z.of_nat n)%Z) (get_or outer w []) = true) ->
    put_writes_loop outer true task path idx ws w = w.
Proof.
  induction ws as [|[c v] ws IH]; intros idx w I0 R P; [reflexivity|].
  assert (G : get_or c WRITES_IDX_MAP idx = idx)
    by (unfold get_or; rewrite (R c v (or_introl eq_refl)); reflexivity).
  cbn [put_writes_loop]. rewrite G. cbn [snd].
  pose proof (P 0 ltac:(simpl; lia)) as P0. rewrite Z.add_0_r in P0. rewrite P0.
  assert (Z0 : (0 <=? idx)%Z = true) by (apply Z.leb_le; exact I0). rewrite Z0.
  assert (NE : negb (Nat.eqb (List.length (get_or outer w [])) 0) = true).
  { destruct (get_or outer w []); [discriminate P0 | reflexivity]. }
  rewrite NE. cbn [andb]. apply IH; [lia | |].
  - intros c0 v0 I. apply (R c0 v0). right. exact I.
  - intros n L. replace (idx + 1 + Z.of_nat n)%Z with (idx + Z.of_nat (S n))%Z by lia.
    apply P. simpl. lia.
Qed.

(** X6.  [put_writes] raises [KeyError] and changes nothing when the
    address has no checkpoint id.  Otherwise it changes neither the
    checkpoint table nor the blob table, nor the buffer of any other
    checkpoint, nor, in the buffer of its checkpoint, the writes of any
    other task. *)
Theorem put_writes_frame (s : InMemorySaver) (cfg : RunnableConfig)
    (ws : list (string * Any)) (task path : string) :
  (checkpoint_id cfg = None -> put_writes s cfg ws task path = (s, Raise KeyError))
  /\ storage (fst (put_writes s cfg ws task path)) = storage s
  /\ blobs (fst (put_writes s cfg ws task path)) = blobs s
  /\ (forall key,
        (forall id, checkpoint_id cfg = Some id ->
                    key <> (thread_id cfg, namespace_of cfg, id)) ->
        lookup key (writes (fst (put_writes s cfg ws task path))) = lookup key (writes s))
  /\ (forall key ik, fst ik <> task ->
        lookup ik (writes_at key (fst (put_writes s cfg ws task path)))
        = lookup ik (writes_at key s)).
Proof.
  unfold put_writes. destruct (checkpoint_id cfg) as [id|]; cbn [fst snd].
  - split; [discriminate|]. split; [reflexivity|]. split; [reflexivity|]. split.
    + intros key N. cbn [writes]. apply loop_other_buffer. apply N. reflexivity.
    + intros key ik N. unfold writes_at. cbn [writes].
      destruct (pair_eqb key (thread_id cfg, namespace_of cfg, id)) eqn:E.
      * apply pair_eqb_spec in E. subst key. apply loop_other_task. exact N.
      * unfold get_or. rewrite loop_other_buffer; [reflexivity|].
        intros Q. subst key.
        assert (T : pair_eqb (thread_id cfg, namespace_of cfg, id)
                      (thread_id cfg, namespace_of cfg, id) = true)
          by (apply pair_eqb_spec; reflexivity).
        congruence.
  - repeat split; reflexivity.
Qed.

(** X7.  A write to a reserved channel (negative index) is always stored:
    after a call whose later writes are not indexed by that index, the
    entry under (task, index) is that write, whatever the buffer held
    there before. *)
Theorem put_writes_reserved_overwrites (s : InMemorySaver) (cfg : RunnableConfig)
    (id task path : string) (before after : list (string * Any))
    (c : string) (x : Any) (z : Z) :
  checkpoint_id cfg = Some id ->
  lookup c WRITES_IDX_MAP = Some z ->
  (z < 0)%Z ->
  (forall c' x', In (c', x') after -> lookup c' WRITES_IDX_MAP <> Some z) ->
  lookup (task, z)
    (writes_at (thread_id cfg, namespace_of cfg, id)
       (fst (put_writes s cfg (before ++ (c, x) :: after) task path)))
  = Some (task, c, dumps_typed x, path).
Proof.
  intros Hid M Neg A. unfold put_writes. rewrite Hid. cbn [fst]. unfold writes_at.
  cbn [writes]. rewrite loop_app. cbn [put_writes_loop].
  assert (G : forall i, get_or c WRITES_IDX_MAP i = z)
    by (intros i; unfold get_or; rewrite M; reflexivity).
  rewrite G. cbn [snd].
  assert (Z0 : (0 <=? z)%Z = false) by (apply Z.leb_gt; exact Neg).
  rewrite Z0. cbn [andb].
  rewrite loop_keeps_key.
  - apply stored_write_same.
  - cbn [snd]. lia.
  - exact A.
Qed.

(** X8.  Executing a task again does not change the store: after a call
    with ordinary channels only, a second call for the same checkpoint and
    task, with ordinary channels and no more writes than the first, leaves
    the store as it is, whatever the values and the task path. *)
Theorem put_writes_again_keeps_store (s : InMemorySaver) (cfg : RunnableConfig)
    (ws ws' : list (string * Any)) (task path path' : string) :
  (forall c v, In (c, v) ws -> lookup c WRITES_IDX_MAP = None) ->
  (forall c v, In (c, v) ws' -> lookup c WRITES_IDX_MAP = None) ->
  List.length ws' <= List.length ws ->
  put_writes (fst (put_writes s cfg ws task path)) cfg ws' task path'
  = (fst (put_writes s cfg ws task path), snd (put_writes s cfg ws task path)).
Proof.
  intros R R' L. unfold put_writes. destruct (checkpoint_id cfg) as [id|]; [|reflexivity].
  cbn [fst snd storage writes blobs].
  set (outer := (thread_id cfg, namespace_of cfg, id)).
  set (W := put_writes_loop outer (mem outer (writes s)) task path 0 ws (writes s)).
  destruct ws' as [|[c' v'] ws'']; [reflexivity|].
  assert (P : forall n, n < List.length ((c', v') :: ws'') ->
                mem (task, (0 + Z.of_nat n)%Z) (get_or outer W []) = true).
  { intros n Ln. unfold W. apply loop_fills_ordinals; [exact R | lia]. }
  assert (A : mem outer W = true).
  { pose proof (P 0 ltac:(simpl; lia)) as P0. unfold mem in *. unfold get_or in P0.
    destruct (lookup outer W); [reflexivity | discriminate P0]. }
  rewrite A. rewrite loop_skips_taken; [reflexivity | lia | exact R' | exact P].
Qed.

End WriteBuffer.

(* ------------------------------------------------------------------ *)
(** ** Where the tuples of [list] come from *)

Section ListOrigin.
Context {serde : SerializerProtocol} {base : Base}.

Lemma selector_passed (cid : option string) (id : string) :
  truthy cid && negb (String.eqb id (match cid with Some c => c | None => "" end)) = false ->
  truthy cid = true -> cid = Some id.
Proof.
  intros S T. rewrite T in S. destruct cid as [c|]; [|discriminate T].
  cbn [andb] in S. apply negb_false_iff, String.eqb_eq in S. subst. reflexivity.
Qed.

(** Every tuple that the loop over one namespace yields is built from an
    item that passed the three tests. *)
Lemma list_items_origin cid f b t ns items :
  forall s lim s' lim' out e,
    list_items cid f b t ns items s lim = (s', lim', out, e) ->
    Forall (fun tup => exists id saved,
              In (id, saved) items
              /\ snd (checkpoint_tuple s (address t ns (Some id)) t ns id saved) = Ok tup
              /\ (truthy cid = true -> cid = Some id)
              /\ before_excludes b id = false
              /\ metadata_matches f (loads_typed (snd (fst saved))) = Ok true) out.
Proof.
  induction items as [|[id saved] items IH]; intros s lim s' lim' out e; cbn [list_items].
  - intros Q. inversion Q. constructor.
  - assert (W : forall s0 l0 s0' l0' out0 e0,
               same_view s s0 ->
               list_items cid f b t ns items s0 l0 = (s0', l0', out0, e0) ->
               Forall (fun tup => exists id0 saved0,
                 In (id0, saved0) ((id, saved) :: items)
                 /\ snd (checkpoint_tuple s (address t ns (Some id0)) t ns id0 saved0) = Ok tup
                 /\ (truthy cid = true -> cid = Some id0)
                 /\ before_excludes b id0 = false
                 /\ metadata_matches f (loads_typed (snd (fst saved0))) = Ok true) out0).
    { intros s0 l0 s0' l0' out0 e0 Vw Q. apply IH in Q. eapply Forall_impl; [|exact Q].
      intros tup [id0 [saved0 [I [C R]]]]. exists id0, saved0.
      split; [right; exact I|]. split; [|exact R].
      rewrite (checkpoint_tuple_view _ _ _ _ _ Vw). exact C. }
    destruct (truthy cid && _) eqn:Sel; [apply W; apply same_view_refl|].
    destruct (before_excludes b id) eqn:B; [apply W; apply same_view_refl|].
    destruct (metadata_matches f _) as [[|]|] eqn:M;
      [| apply W; apply same_view_refl | intros Q; inversion Q; constructor].
    assert (G : forall l1,
      (let '(s1, r) := checkpoint_tuple s (address t ns (Some id)) t ns id saved in
       match r with
       | Raise e0 => (s1, l1, [], Some e0)
       | Ok tup =>
           let '(s'', limit', out0, e0) := list_items cid f b t ns items s1 l1 in
           (s'', limit', tup :: out0, e0)
       end) = (s', lim', out, e) ->
      Forall (fun tup => exists id0 saved0,
                 In (id0, saved0) ((id, saved) :: items)
                 /\ snd (checkpoint_tuple s (address t ns (Some id0)) t ns id0 saved0) = Ok tup
                 /\ (truthy cid = true -> cid = Some id0)
                 /\ before_excludes b id0 = false
                 /\ metadata_matches f (loads_typed (snd (fst saved0))) = Ok true) out).
    { intros l1. rewrite (checkpoint_tuple_split s).
      destruct (snd (checkpoint_tuple s _ t ns id saved)) as [tup|e0] eqn:C.
      - destruct (list_items cid f b t ns items (writes_touch (t, ns, id) s) l1)
          as [[[s3 l3] o3] e3] eqn:R.
        intros Q. inversion Q; subst. constructor.
        + exists id, saved. split; [left; reflexivity|]. split; [exact C|].
          split; [apply selector_passed; exact Sel|]. split; [exact B | exact M].
        + eapply W; [apply writes_touch_view | exact R].
      - intros Q. inversion Q. constructor. }
    destruct lim as [n|].
    + destruct (n <=? 0)%Z; [intros Q; inversion Q; constructor | apply G].
    + apply G.
Qed.

Lemma list_namespaces_origin cns cid f b t nss :
  forall s lim s' lim' out e,
    list_namespaces cns cid f b t nss s lim = (s', lim', out, e) ->
    Forall (fun tup => exists ns id saved,
              In ns nss
              /\ (forall c, cns = Some c -> ns = c)
              /\ In (id, saved) (storage_at t ns s)
              /\ snd (checkpoint_tuple s (address t ns (Some id)) t ns id saved) = Ok tup
              /\ (truthy cid = true -> cid = Some id)
              /\ before_excludes b id = false
              /\ metadata_matches f (loads_typed (snd (fst saved))) = Ok true) out.
Proof.
  induction nss as [|ns nss IH]; intros s lim s' lim' out e; cbn [list_namespaces].
  - intros Q. inversion Q. constructor.
  - assert (W : forall s0 l0 s0' l0' out0 e0,
               same_view s s0 ->
               list_namespaces cns cid f b t nss s0 l0 = (s0', l0', out0, e0) ->
               Forall (fun tup => exists ns0 id saved,
                 In ns0 (ns :: nss)
                 /\ (forall c, cns = Some c -> ns0 = c)
                 /\ In (id, saved) (storage_at t ns0 s)
                 /\ snd (checkpoint_tuple s (address t ns0 (Some id)) t ns0 id saved) = Ok tup
                 /\ (truthy cid = true -> cid = Some id)
                 /\ before_excludes b id = false
                 /\ metadata_matches f (loads_typed (snd (fst saved))) = Ok true) out0).
    { intros s0 l0 s0' l0' out0 e0 Vw Q. apply IH in Q. eapply Forall_impl; [|exact Q].
      intros tup [ns0 [id [saved [I [N [S [C R]]]]]]]. exists ns0, id, saved.
      split; [right; exact I|]. split; [exact N|].
      split; [rewrite (same_view_storage_at t ns0 Vw); exact S|]. split; [|exact R].
      rewrite (checkpoint_tuple_view _ _ _ _ _ Vw). exact C. }
    destruct (match cns with Some c => _ | None => false end) eqn:Sel;
      [apply W; apply same_view_refl|].
    destruct (list_items cid f b t ns _ s lim) as [[[s1 l1] o1] e1] eqn:R.
    pose proof (list_items_effect _ _ _ _ _ _ _ _ R) as [V1 _].
    apply list_items_origin in R.
    assert (R' : Forall (fun tup => exists ns0 id saved,
                 In ns0 (ns :: nss)
                 /\ (forall c, cns = Some c -> ns0 = c)
                 /\ In (id, saved) (storage_at t ns0 s)
                 /\ snd (checkpoint_tuple s (address t ns0 (Some id)) t ns0 id saved) = Ok tup
                 /\ (truthy cid = true -> cid = Some id)
                 /\ before_excludes b id = false
                 /\ metadata_matches f (loads_typed (snd (fst saved))) = Ok true) o1).
    { eapply Forall_impl; [|exact R]. intros tup [id [saved [I X]]]. exists ns, id, saved.
      split; [left; reflexivity|]. split.
      - intros c ->. apply negb_false_iff, String.eqb_eq in Sel. exact Sel.
      - split; [|exact X]. eapply Permutation_in; [apply sorted_desc_perm | exact I]. }
    destruct e1.
    + intros Q. inversion Q; subst. exact R'.
    + destruct (list_namespaces cns cid f b t nss s1 l1) as [[[s2 l2] o2] e2] eqn:R2.
      intros Q. inversion Q; subst. apply Forall_app. split; [exact R'|].
      eapply W; [exact V1 | exact R2].
Qed.

Lemma list_threads_origin cns cid f b ths :
  forall s lim s' lim' out e,
    list_threads cns cid f b ths s lim = (s', lim', out, e) ->
    Forall (fun tup => exists t ns id saved,
              In t ths
              /\ (forall c, cns = Some c -> ns = c)
              /\ In (id, saved) (storage_at t ns s)
              /\ snd (checkpoint_tuple s (address t ns (Some id)) t ns id saved) = Ok tup
              /\ (truthy cid = true -> cid = Some id)
              /\ before_excludes b id = false
              /\ metadata_matches f (loads_typed (snd (fst saved))) = Ok true) out.
Proof.
  induction ths as [|t ths IH]; intros s lim s' lim' out e; cbn [list_threads].
  - intros Q. inversion Q. constructor.
  - destruct (list_namespaces cns cid f b t _ (thread_touch t s) lim)
      as [[[s1 l1] o1] e1] eqn:R.
    pose proof (list_namespaces_effect _ _ _ _ _ _ _ _ R) as [V1 _].
    pose proof (thread_touch_view s t) as V0.
    assert (V : same_view s s1) by (eapply same_view_trans; eauto).
    apply list_namespaces_origin in R.
    assert (R' : Forall (fun tup => exists t0 ns id saved,
                 In t0 (t :: ths)
                 /\ (forall c, cns = Some c -> ns = c)
                 /\ In (id, saved) (storage_at t0 ns s)
                 /\ snd (checkpoint_tuple s (address t0 ns (Some id)) t0 ns id saved) = Ok tup
                 /\ (truthy cid = true -> cid = Some id)
                 /\ before_excludes b id = false
                 /\ metadata_matches f (loads_typed (snd (fst saved))) = Ok true) o1).
    { eapply Forall_impl; [|exact R]. intros tup [ns [id [saved [_ [N [S [C X]]]]]]].
      exists t, ns, id, saved. split; [left; reflexivity|]. split; [exact N|].
      split; [rewrite (same_view_storage_at t ns V0); exact S|]. split; [|exact X].
      rewrite (checkpoint_tuple_view _ _ _ _ _ V0). exact C. }
    destruct e1.
    + intros Q. inversion Q; subst. exact R'.
    + destruct (list_threads cns cid f b ths s1 l1) as [[[s2 l2] o2] e2] eqn:R2.
      intros Q. inversion Q; subst. apply Forall_app. split; [exact R'|].
      apply IH in R2. eapply Forall_impl; [|exact R2].
      intros tup [t0 [ns [id [saved [I [N [S [C X]]]]]]]]. exists t0, ns, id, saved.
      split; [right; exact I|]. split; [exact N|].
      split; [rewrite (same_view_storage_at t0 ns V); exact S|]. split; [|exact X].
      rewrite (checkpoint_tuple_view _ _ _ _ _ V). exact C.
Qed.

(** What [checkpoint_tuple] puts into a tuple. *)
Lemma checkpoint_tuple_fields s cfg t ns id saved tup :
  snd (checkpoint_tuple s cfg t ns id saved) = Ok tup ->
  config tup = cfg
  /\ metadata tup = loads_typed (snd (fst saved))
  /\ parent_config tup = parent_address t ns (snd saved)
  /\ pending_writes tup
     = map (fun w : WriteEntry => let '(id_, c, v, _) := w in (id_, c, loads_typed v))
           (values (writes_at (t, ns, id) s)).
Proof.
  unfold checkpoint_tuple. destruct saved as [[cb mb] p].
  rewrite writes_at_touch.
  destruct (loads_typed cb); try discriminate.
  destruct (lookup _ d); try discriminate.
  destruct (_load_blobs _ _ _ _); try discriminate.
  cbn [snd fst]. intros Q. inversion Q. cbn. auto.
Qed.

(** X9.  What [list] yields.  Every tuple of a run is addressed by a
    thread, a namespace and an id under which the store holds a
    checkpoint: the thread is the one of the selector, or a thread of the
    store when there is no selector; the namespace and a non-empty id of
    the selector are matched exactly; the id passed the [before] test; the
    metadata of the tuple is the decoded stored metadata and matches the
    filter; the parent address is built from the stored parent id. *)
Theorem list_yields_selected (s : InMemorySaver) (cfg : option RunnableConfig)
    (f : option (Dict string Any)) (b : option RunnableConfig) (lim : option Z) :
  Forall (fun tup => exists t ns id saved,
            config tup = address t ns (Some id)
            /\ In (id, saved) (storage_at t ns s)
            /\ match cfg with
               | Some c =>
                   t = thread_id c
                   /\ (forall n, checkpoint_ns c = Some n -> ns = n)
                   /\ (truthy (get_checkpoint_id c) = true -> get_checkpoint_id c = Some id)
               | None => In t (keys (storage s))
               end
            /\ before_excludes b id = false
            /\ metadata tup = loads_typed (snd (fst saved))
            /\ metadata_matches f (metadata tup) = Ok true
            /\ parent_config tup = parent_address t ns (snd saved))
         (snd (fst (list_ s cfg f b lim))).
Proof.
  unfold list_.
  destruct (list_threads _ _ f b _ s lim) as [[[s1 l1] o1] e1] eqn:R.
  cbn [fst snd]. apply list_threads_origin in R.
  eapply Forall_impl; [|exact R].
  intros tup [t [ns [id [saved [I [N [S [C [Sel [B M]]]]]]]]]].
  apply checkpoint_tuple_fields in C. destruct C as [C1 [C2 [C3 _]]].
  exists t, ns, id, saved. split; [exact C1|]. split; [exact S|]. split.
  - destruct cfg as [c|].
    + destruct I as [I|[]]. split; [symmetry; exact I|]. split; [exact N | exact Sel].
    + exact I.
  - split; [exact B|]. split; [exact C2|]. split; [rewrite C2; exact M | exact C3].
Qed.

(** X10.  [list] and [get_tuple] agree: in a store with unique keys, every
    tuple that [list] yields under a non-empty id is the tuple that
    [get_tuple] returns for the address the tuple carries. *)
Theorem list_agrees_with_get (s : InMemorySaver) (cfg : option RunnableConfig)
    (f : option (Dict string Any)) (b : option RunnableConfig) (lim : option Z) :
  wf s ->
  Forall (fun tup => tuple_id tup <> ""%string ->
                     snd (get_tuple s (config tup)) = Ok (Some tup))
         (snd (fst (list_ s cfg f b lim))).
Proof.
  intros W. unfold list_.
  destruct (list_threads _ _ f b _ s lim) as [[[s1 l1] o1] e1] eqn:R.
  cbn [fst snd]. apply list_threads_origin in R.
  eapply Forall_impl; [|exact R].
  intros tup [t [ns [id [saved [_ [_ [S [C _]]]]]]]] N.
  pose proof (checkpoint_tuple_fields _ _ _ _ _ _ C) as [C1 _].
  unfold tuple_id in N. rewrite C1 in N |- *. cbn in N.
  destruct W as [_ [_ [U _]]].
  rewrite (@get_tuple_explicit serde s (address t ns (Some id)) id saved).
  - cbn. unfold Saved in *. rewrite C. reflexivity.
  - reflexivity.
  - exact N.
  - cbn. apply In_uniq_lookup; [apply U | exact S].
Qed.

Lemma list_items_limit cid f b t ns items :
  forall s n s' lim' out e,
    list_items cid f b t ns items s (Some n) = (s', lim', out, e) ->
    exists n', lim' = Some n'
               /\ (Z.of_nat (List.length out) <= n - n')%Z /\ (Z.min n 0 <= n')%Z.
Proof.
  induction items as [|[id saved] items IH]; intros s n s' lim' out e; cbn [list_items].
  - intros Q. inversion Q; subst. exists n. split; [reflexivity | cbn [List.length]; lia].
  - destruct (truthy cid && _); [apply IH|].
    destruct (before_excludes b id); [apply IH|].
    destruct (metadata_matches f _) as [[|]|];
      [| apply IH | intros Q; inversion Q; subst; exists n; split; [reflexivity | cbn [List.length]; lia]].
    destruct (n <=? 0)%Z eqn:Z0; [intros Q; inversion Q; subst; exists n; split; [reflexivity | cbn [List.length]; lia]|].
    apply Z.leb_gt in Z0.
    rewrite (checkpoint_tuple_split s).
    destruct (snd (checkpoint_tuple s _ t ns id saved)) as [tup|e0].
    + destruct (list_items cid f b t ns items (writes_touch (t, ns, id) s) (Some (n - 1)%Z))
        as [[[s3 l3] o3] e3] eqn:R.
      apply IH in R. destruct R as [n' [-> [L M]]].
      intros Q. inversion Q; subst. exists n'. split; [reflexivity|].
      cbn [List.length]. lia.
    + intros Q. inversion Q; subst. exists (n - 1)%Z. split; [reflexivity | cbn [List.length]; lia].
Qed.

Lemma list_namespaces_limit cns cid f b t nss :
  forall s n s' lim' out e,
    list_namespaces cns cid f b t nss s (Some n) = (s', lim', out, e) ->
    exists n', lim' = Some n'
               /\ (Z.of_nat (List.length out) <= n - n')%Z /\ (Z.min n 0 <= n')%Z.
Proof.
  induction nss as [|ns nss IH]; intros s n s' lim' out e; cbn [list_namespaces].
  - intros Q. inversion Q; subst. exists n. split; [reflexivity | cbn [List.length]; lia].
  - destruct (match cns with Some c => _ | None => false end); [apply IH|].
    destruct (list_items cid f b t ns _ s (Some n)) as [[[s1 l1] o1] e1] eqn:R.
    apply list_items_limit in R. destruct R as [n1 [-> [L1 M1]]].
    destruct e1.
    + intros Q. inversion Q; subst. exists n1. auto.
    + destruct (list_namespaces cns cid f b t nss s1 (Some n1)) as [[[s2 l2] o2] e2] eqn:R2.
      apply IH in R2. destruct R2 as [n2 [-> [L2 M2]]].
      intros Q. inversion Q; subst. exists n2. split; [reflexivity|].
      rewrite length_app. lia.
Qed.

Lemma list_threads_limit cns cid f b ths :
  forall s n s' lim' out e,
    list_threads cns cid f b ths s (Some n) = (s', lim', out, e) ->
    exists n', lim' = Some n'
               /\ (Z.of_nat (List.length out) <= n - n')%Z /\ (Z.min n 0 <= n')%Z.
Proof.
  induction ths as [|t ths IH]; intros s n s' lim' out e; cbn [list_threads].
  - intros Q. inversion Q; subst. exists n. split; [reflexivity | cbn [List.length]; lia].
  - destruct (list_namespaces cns cid f b t _ (thread_touch t s) (Some n))
      as [[[s1 l1] o1] e1] eqn:R.
    apply list_namespaces_limit in R. destruct R as [n1 [-> [L1 M1]]].
    destruct e1.
    + intros Q. inversion Q; subst. exists n1. auto.
    + destruct (list_threads cns cid f b ths s1 (Some n1)) as [[[s2 l2] o2] e2] eqn:R2.
      apply IH in R2. destruct R2 as [n2 [-> [L2 M2]]].
      intros Q. inversion Q; subst. exists n2. split; [reflexivity|].
      rewrite length_app. lia.
Qed.

(** X11.  The limit of [list] bounds the whole run: with limit [n] at
    most [n] tuples are yielded over all the threads and namespaces
    scanned, and none when [n] is zero or negative. *)
Theorem list_limit_bounds_run (s : InMemorySaver) (cfg : option RunnableConfig)
    (f : option (Dict string Any)) (b : option RunnableConfig) (n : Z) :
  (Z.of_nat (List.length (snd (fst (list_ s cfg f b (Some n))))) <= Z.max n 0)%Z.
Proof.
  unfold list_.
  destruct (list_threads _ _ f b _ s (Some n)) as [[[s1 l1] o1] e1] eqn:R.
  cbn [fst snd]. apply list_threads_limit in R. destruct R as [n' [_ [L M]]]. lia.
Qed.

End ListOrigin.

(* ------------------------------------------------------------------ *)
(** ** What [list] yields without a limit *)

Section ListComplete.
Context {serde : SerializerProtocol} {base : Base}.

Lemma selector_passes (cid : option string) (id : string) :
  (truthy cid = true -> cid = Some id) ->
  truthy cid && negb (String.eqb id (match cid with Some c => c | None => "" end)) = false.
Proof.
  intros S. destruct (truthy cid) eqn:T; [|reflexivity].
  rewrite (S eq_refl). rewrite String.eqb_refl. reflexivity.
Qed.

Lemma list_items_complete cid f b t ns items :
  forall s s' lim' out,
    list_items cid f b t ns items s None = (s', lim', out, None) ->
    lim' = None
    /\ forall id saved,
         In (id, saved) items ->
         (truthy cid = true -> cid = Some id) ->
         before_excludes b id = false ->
         metadata_matches f (loads_typed (snd (fst saved))) = Ok true ->
         exists tup, In tup out
                     /\ snd (checkpoint_tuple s (address t ns (Some id)) t ns id saved) = Ok tup.
Proof.
  induction items as [|[id0 saved0] items IH]; intros s s' lim' out; cbn [list_items].
  - intros Q. inversion Q. split; [reflexivity|]. intros id saved [].
  - assert (W : forall s0 out0,
               same_view s s0 ->
               list_items cid f b t ns items s0 None = (s', lim', out0, None) ->
               forall id saved,
                 In (id, saved) items ->
                 (truthy cid = true -> cid = Some id) ->
                 before_excludes b id = false ->
                 metadata_matches f (loads_typed (snd (fst saved))) = Ok true ->
                 exists tup, In tup out0
                   /\ snd (checkpoint_tuple s (address t ns (Some id)) t ns id saved) = Ok tup).
    { intros s0 out0 Vw Q id saved I S B M. apply IH in Q. destruct Q as [_ Q].
      destruct (Q id saved I S B M) as [tup [I' C]]. exists tup. split; [exact I'|].
      rewrite (checkpoint_tuple_view _ _ _ _ _ Vw). exact C. }
    destruct (truthy cid && _) eqn:Sel.
    { intros Q. split; [apply IH in Q; apply Q|].
      intros id saved [E|I] S B M.
      - inversion E; subst. rewrite selector_passes in Sel by exact S. discriminate Sel.
      - eapply W; eauto. apply same_view_refl. }
    destruct (before_excludes b id0) eqn:B0.
    { intros Q. split; [apply IH in Q; apply Q|].
      intros id saved [E|I] S B M.
      - inversion E; subst. congruence.
      - eapply W; eauto. apply same_view_refl. }
    destruct (metadata_matches f _) as [[|]|] eqn:M0; [| | discriminate].
    + rewrite (checkpoint_tuple_split s).
      destruct (snd (checkpoint_tuple s _ t ns id0 saved0)) as [tup0|e0] eqn:C0; [|discriminate].
      destruct (list_items cid f b t ns items (writes_touch (t, ns, id0) s) None)
        as [[[s3 l3] o3] e3] eqn:R.
      intros Q. inversion Q; subst. split; [apply IH in R; apply R|].
      intros id saved [E|I] S B M.
      * inversion E; subst. exists tup0. split; [left; reflexivity | exact C0].
      * destruct (W _ _ (writes_touch_view s (t, ns, id0)) R id saved I S B M) as [tup [I' C]].
        exists tup. split; [right; exact I' | exact C].
    + intros Q. split; [apply IH in Q; apply Q|].
      intros id saved [E|I] S B M.
      * inversion E; subst. congruence.
      * eapply W; eauto. apply same_view_refl.
Qed.

Lemma list_namespaces_complete cns cid f b t nss :
  forall s s' lim' out,
    list_namespaces cns cid f b t nss s None = (s', lim', out, None) ->
    lim' = None
    /\ forall ns id saved,
         In ns nss ->
         (forall c, cns = Some c -> ns = c) ->
         In (id, saved) (storage_at t ns s) ->
         (truthy cid = true -> cid = Some id) ->
         before_excludes b id = false ->
         metadata_matches f (loads_typed (snd (fst saved))) = Ok true ->
         exists tup, In tup out
                     /\ snd (checkpoint_tuple s (address t ns (Some id)) t ns id saved) = Ok tup.
Proof.
  induction nss as [|ns0 nss IH]; intros s s' lim' out; cbn [list_namespaces].
  - intros Q. inversion Q. split; [reflexivity|]. intros ns id saved [].
  - assert (W : forall s0 out0,
               same_view s s0 ->
               list_namespaces cns cid f b t nss s0 None = (s', lim', out0, None) ->
               forall ns id saved,
                 In ns nss ->
                 (forall c, cns = Some c -> ns = c) ->
                 In (id, saved) (storage_at t ns s) ->
                 (truthy cid = true -> cid = Some id) ->
                 before_excludes b id = false ->
                 metadata_matches f (loads_typed (snd (fst saved))) = Ok true ->
                 exists tup, In tup out0
                   /\ snd (checkpoint_tuple s (address t ns (Some id)) t ns id saved) = Ok tup).
    { intros s0 out0 Vw Q ns id saved I N S Sel B M. apply IH in Q. destruct Q as [_ Q].
      rewrite (same_view_storage_at t ns Vw) in S.
      destruct (Q ns id saved I N S Sel B M) as [tup [I' C]]. exists tup. split; [exact I'|].
      rewrite (checkpoint_tuple_view _ _ _ _ _ Vw). exact C. }
    destruct (match cns with Some c => _ | None => false end) eqn:Skip.
    { intros Q. split; [apply IH in Q; apply Q|].
      intros ns id saved [E|I] N S Sel B M.
      - subst ns0. destruct cns as [c|]; [|discriminate Skip].
        rewrite (N c eq_refl), String.eqb_refl in Skip. discriminate Skip.
      - eapply W; eauto. apply same_view_refl. }
    destruct (list_items cid f b t ns0 _ s None) as [[[s1 l1] o1] e1] eqn:R.
    pose proof (list_items_effect _ _ _ _ _ _ _ _ R) as [V1 _].
    destruct e1 as [e1|]; [discriminate|].
    apply list_items_complete in R. destruct R as [-> R].
    destruct (list_namespaces cns cid f b t nss s1 None) as [[[s2 l2] o2] e2] eqn:R2.
    intros Q. inversion Q; subst. split; [apply IH in R2; apply R2|].
    intros ns id saved [E|I] N S Sel B M.
    + subst ns0.
      destruct (R id saved) as [tup [I' C]]; try assumption.
      { eapply Permutation_in; [apply Permutation_sym, sorted_desc_perm | exact S]. }
      exists tup. split; [apply in_or_app; left; exact I' | exact C].
    + destruct (W _ _ V1 R2 ns id saved I N S Sel B M) as [tup [I' C]].
      exists tup. split; [apply in_or_app; right; exact I' | exact C].
Qed.

Lemma list_threads_complete cns cid f b ths :
  forall s s' lim' out,
    list_threads cns cid f b ths s None = (s', lim', out, None) ->
    lim' = None
    /\ forall t ns id saved,
         In t ths ->
         (forall c, cns = Some c -> ns = c) ->
         In (id, saved) (storage_at t ns s) ->
         (truthy cid = true -> cid = Some id) ->
         before_excludes b id = false ->
         metadata_matches f (loads_typed (snd (fst saved))) = Ok true ->
         exists tup, In tup out
                     /\ snd (checkpoint_tuple s (address t ns (Some id)) t ns id saved) = Ok tup.
Proof.
  induction ths as [|t0 ths IH]; intros s s' lim' out; cbn [list_threads].
  - intros Q. inversion Q. split; [reflexivity|]. intros t ns id saved [].
  - destruct (list_namespaces cns cid f b t0 _ (thread_touch t0 s) None)
      as [[[s1 l1] o1] e1] eqn:R.
    pose proof (list_namespaces_effect _ _ _ _ _ _ _ _ R) as [V1 _].
    pose proof (thread_touch_view s t0) as V0.
    assert (V : same_view s s1) by (eapply same_view_trans; eauto).
    destruct e1 as [e1|]; [discriminate|].
    apply list_namespaces_complete in R. destruct R as [-> R].
    destruct (list_threads cns cid f b ths s1 None) as [[[s2 l2] o2] e2] eqn:R2.
    intros Q. inversion Q; subst. apply IH in R2. destruct R2 as [L2 R2].
    split; [exact L2|].
    intros t ns id saved [E|I] N S Sel B M.
    + subst t0.
      assert (Ins : In ns (keys (get_or t (storage (thread_touch t s)) []))).
      { unfold thread_touch. cbn [storage]. rewrite get_or_touch.
        unfold storage_at, get_or in S. unfold get_or.
        destruct (lookup t (storage s)) as [d|]; [|destruct S].
        destruct (lookup ns d) as [x|] eqn:L; [|destruct S].
        eapply lookup_Some_keys. exact L. }
      rewrite (same_view_storage_at t ns V0) in S.
      destruct (R ns id saved Ins N S Sel B M) as [tup [I' C]].
      exists tup. split; [apply in_or_app; left; exact I'|].
      rewrite (checkpoint_tuple_view _ _ _ _ _ V0). exact C.
    + rewrite (same_view_storage_at t ns V) in S.
      destruct (R2 t ns id saved I N S Sel B M) as [tup [I' C]].
      exists tup. split; [apply in_or_app; right; exact I'|].
      rewrite (checkpoint_tuple_view _ _ _ _ _ V). exact C.
Qed.

(** X12.  Without a limit, a run of [list] that ends normally yields every
    selected checkpoint: each stored checkpoint of a scanned thread whose
    namespace and id match the selector, whose id passes the [before]
    test and whose metadata matches the filter is the origin of a yielded
    tuple, addressed by its thread, namespace and id. *)
Theorem list_without_limit_is_complete (s : InMemorySaver) (cfg : option RunnableConfig)
    (f : option (Dict string Any)) (b : option RunnableConfig)
    (t ns id : string) (saved : Saved) :
  snd (list_ s cfg f b None) = None ->
  match cfg with
  | Some c =>
      t = thread_id c
      /\ (forall n, checkpoint_ns c = Some n -> ns = n)
      /\ (truthy (get_checkpoint_id c) = true -> get_checkpoint_id c = Some id)
  | None => In t (keys (storage s))
  end ->
  In (id, saved) (storage_at t ns s) ->
  before_excludes b id = false ->
  metadata_matches f (loads_typed (snd (fst saved))) = Ok true ->
  exists tup, In tup (snd (fst (list_ s cfg f b None)))
              /\ config tup = address t ns (Some id)
              /\ metadata tup = loads_typed (snd (fst saved)).
Proof.
  unfold list_.
  destruct (list_threads _ _ f b _ s None) as [[[s1 l1] o1] e1] eqn:R.
  cbn [fst snd]. intros -> Sel S B M.
  apply list_threads_complete in R. destruct R as [_ R].
  destruct (R t ns id saved) as [tup [I C]]; try assumption.
  - destruct cfg as [c|]; [left; symmetry; apply Sel | exact Sel].
  - destruct cfg as [c|]; [apply Sel | discriminate].
  - destruct cfg as [c|]; [apply Sel | discriminate].
  - exists tup. split; [exact I|].
    apply checkpoint_tuple_fields in C. destruct C as [C1 [C2 _]]. auto.
Qed.

End ListComplete.

(* ------------------------------------------------------------------ *)
(** ** Reading leaves the data as it is *)

Section ReadKeeps.
Context {serde : SerializerProtocol} {base : Base}.

(** The result of building a tuple depends on the write buffer of the
    checkpoint and on the blob table only. *)
Lemma checkpoint_tuple_agree s1 s2 cfg t ns id saved :
  writes_at (t, ns, id) s1 = writes_at (t, ns, id) s2 ->
  blobs s1 = blobs s2 ->
  snd (checkpoint_tuple s1 cfg t ns id saved) = snd (checkpoint_tuple s2 cfg t ns id saved).
Proof.
  intros B C. unfold checkpoint_tuple. destruct saved as [[cb mb] p].
  rewrite !writes_at_touch, B.
  destruct (loads_typed cb); try reflexivity.
  destruct (lookup _ d); try reflexivity.
  unfold _load_blobs. cbn [blobs writes_touch]. rewrite C.
  destruct a; try reflexivity.
  destruct (load_blobs_items _ _ _ _ _); reflexivity.
Qed.

(** The result of [get_tuple] in terms of the tables. *)
Lemma get_tuple_result s cfg :
  snd (get_tuple s cfg)
  = let t := thread_id cfg in
    let ns := namespace_of cfg in
    if truthy (get_checkpoint_id cfg) then
      let id := match get_checkpoint_id cfg with Some i => i | None => ""%string end in
      match lookup id (storage_at t ns s) with
      | Some saved => found (snd (checkpoint_tuple s cfg t ns id saved))
      | None => Ok None
      end
    else
      match py_max (keys (storage_at t ns s)) with
      | Some m =>
          match lookup m (storage_at t ns s) with
          | Some saved => found (snd (checkpoint_tuple s (address t ns (Some m)) t ns m saved))
          | None => Raise KeyError
          end
      | None => Ok None
      end.
Proof.
  cbv zeta. destruct (truthy (get_checkpoint_id cfg)) eqn:T.
  - unfold get_tuple. rewrite storage_at_touch, T.
    destruct (lookup _ _) as [saved|]; [|reflexivity].
    rewrite <- (checkpoint_tuple_touched s cfg (thread_id cfg) (namespace_of cfg)).
    destruct (checkpoint_tuple _ _ _ _ _ _). reflexivity.
  - apply get_tuple_latest. exact T.
Qed.

Lemma get_tuple_agree s1 s2 cfg :
  (forall t ns, storage_at t ns s1 = storage_at t ns s2) ->
  (forall k, writes_at k s1 = writes_at k s2) ->
  blobs s1 = blobs s2 ->
  snd (get_tuple s1 cfg) = snd (get_tuple s2 cfg).
Proof.
  intros A B C. rewrite !get_tuple_result. cbv zeta. rewrite A.
  destruct (truthy _).
  - destruct (lookup _ _) as [saved|]; [|reflexivity].
    rewrite (@checkpoint_tuple_agree s1 s2); auto.
  - destruct (py_max _) as [m|]; [|reflexivity].
    destruct (lookup _ _) as [saved|]; [|reflexivity].
    rewrite (@checkpoint_tuple_agree s1 s2); auto.
Qed.

Lemma get_tuple_keeps s cfg :
  (forall t ns, storage_at t ns (fst (get_tuple s cfg)) = storage_at t ns s)
  /\ (forall k, writes_at k (fst (get_tuple s cfg)) = writes_at k s)
  /\ blobs (fst (get_tuple s cfg)) = blobs s.
Proof.
  assert (K1 : forall t ns,
             storage_at t ns (storage_touch (thread_id cfg) (namespace_of cfg) s)
             = storage_at t ns s) by (intros; apply storage_at_touch).
  assert (K2 : forall key t ns,
             storage_at t ns
               (writes_touch key (storage_touch (thread_id cfg) (namespace_of cfg) s))
             = storage_at t ns s) by (intros; apply storage_at_touch).
  assert (K3 : forall key k,
             writes_at k
               (writes_touch key (storage_touch (thread_id cfg) (namespace_of cfg) s))
             = writes_at k s) by (intros; rewrite writes_at_touch; reflexivity).
  unfold get_tuple. destruct (truthy (get_checkpoint_id cfg)).
  - destruct (lookup _ _) as [saved|]; [|cbn [fst]; auto].
    rewrite checkpoint_tuple_split. cbn [fst]. auto.
  - destruct (py_max _) as [m|]; [|cbn [fst]; auto].
    destruct (lookup _ _) as [saved|]; [|cbn [fst]; auto].
    rewrite checkpoint_tuple_split. cbn [fst]. auto.
Qed.

Lemma list_keeps s cfg f b lim :
  (forall t ns, storage_at t ns (fst (fst (list_ s cfg f b lim))) = storage_at t ns s)
  /\ (forall k, writes_at k (fst (fst (list_ s cfg f b lim))) = writes_at k s)
  /\ blobs (fst (fst (list_ s cfg f b lim))) = blobs s.
Proof.
  unfold list_.
  destruct (list_threads _ _ f b _ s lim) as [[[s1 l1] o1] e1] eqn:R.
  cbn [fst]. apply list_threads_effect in R. destruct R as [V _].
  split; [|split].
  - intros t ns. symmetry. apply same_view_storage_at. exact V.
  - intros k. symmetry. apply V.
  - symmetry. apply V.
Qed.

(** X13.  Reading changes no data.  [get_tuple] and [list] create empty
    entries in the [defaultdict]s and nothing else: after either, every
    namespace holds the checkpoints it held, every write buffer the
    writes it held, the blob table is the same, and [get_tuple] returns
    for every address what it returned before. *)
Theorem reads_change_no_data (s : InMemorySaver) (cfg : RunnableConfig)
    (sel : option RunnableConfig) (f : option (Dict string Any))
    (b : option RunnableConfig) (lim : option Z) :
  forall s', s' = fst (get_tuple s cfg) \/ s' = fst (fst (list_ s sel f b lim)) ->
    (forall t ns, storage_at t ns s' = storage_at t ns s)
    /\ (forall k, writes_at k s' = writes_at k s)
    /\ blobs s' = blobs s
    /\ (forall cfg', snd (get_tuple s' cfg') = snd (get_tuple s cfg')).
Proof.
  intros s' D.
  assert (K : (forall t ns, storage_at t ns s' = storage_at t ns s)
              /\ (forall k, writes_at k s' = writes_at k s)
              /\ blobs s' = blobs s).
  { destruct D as [-> | ->]; [apply get_tuple_keeps | apply list_keeps]. }
  destruct K as [K1 [K2 K3]]. repeat split; try assumption.
  intros cfg'. apply get_tuple_agree; assumption.
Qed.

Lemma set_new {K V} `{EqKey K} (k : K) (v : V) (d : Dict K V) :
  ~ In k (keys d) -> set k v d = d ++ [(k, v)].
Proof.
  induction d as [|[k0 v0] d IH]; cbn; [reflexivity|].
  intros N. destruct (keq k k0) eqn:E.
  - apply keq_spec in E. subst. exfalso. auto.
  - f_equal. apply IH. auto.
Qed.

(** Writes under fresh keys go to the end of the buffer, in their order. *)
Lemma loop_appends outer al task path :
  forall (ws : list (string * Any)) idx (w : Dict WritesKey (Dict (string * Z) WriteEntry)),
    (forall c v, In (c, v) ws -> lookup c WRITES_IDX_MAP = None) ->
    (forall ik, In ik (keys (get_or outer w [])) -> fst ik = task -> (snd ik < idx)%Z) ->
    values (get_or outer (put_writes_loop outer al task path idx ws w) [])
    = values (get_or outer w [])
      ++ map (fun cv => (task, fst cv, dumps_typed (snd cv), path)) ws.
Proof.
  induction ws as [|[c v] ws IH]; intros idx w R F; cbn [put_writes_loop map].
  - rewrite app_nil_r. reflexivity.
  - assert (G : get_or c WRITES_IDX_MAP idx = idx)
      by (unfold get_or; rewrite (R c v (or_introl eq_refl)); reflexivity).
    rewrite G.
    assert (NI : ~ In (task, idx) (keys (get_or outer w []))).
    { intros I. specialize (F _ I eq_refl). cbn in F. lia. }
    assert (M : mem (task, idx) (get_or outer w []) = false).
    { unfold mem. destruct (lookup (task, idx) (get_or outer w [])) eqn:L; [|reflexivity].
      exfalso. apply NI. eapply lookup_Some_keys. exact L. }
    rewrite M, andb_false_r.
    rewrite IH.
    + rewrite get_or_set_same, get_or_touch. rewrite set_new by exact NI.
      unfold values. rewrite map_app. cbn [map snd fst]. rewrite <- app_assoc. reflexivity.
    + intros c0 v0 I. apply (R c0 v0). right. exact I.
    + intros ik I E. rewrite get_or_set_same, get_or_touch in I.
      rewrite set_new in I by exact NI. unfold keys in I. rewrite map_app in I.
      apply in_app_or in I. destruct I as [I|[I|[]]].
      * specialize (F _ I E). lia.
      * subst ik. cbn. lia.
Qed.

(** X14.  Staged writes show up as pending writes, in order.  After
    [put_writes] for a task that had no write in the buffer of the
    checkpoint, with ordinary channels only, [get_tuple] for that
    checkpoint returns the tuple it returned before with the new writes,
    encoded and decoded by the serializer, appended to its pending
    writes. *)
Theorem put_writes_then_get_appends (s : InMemorySaver) (cfg : RunnableConfig)
    (id : string) (ws : list (string * Any)) (task path : string)
    (tup : CheckpointTuple) :
  checkpoint_id cfg = Some id ->
  id <> ""%string ->
  (forall c v, In (c, v) ws -> lookup c WRITES_IDX_MAP = None) ->
  (forall ik, In ik (keys (writes_at (thread_id cfg, namespace_of cfg, id) s)) ->
              fst ik <> task) ->
  snd (get_tuple s cfg) = Ok (Some tup) ->
  snd (get_tuple (fst (put_writes s cfg ws task path)) cfg)
  = Ok (Some {| config := config tup;
                checkpoint := checkpoint tup;
                metadata := metadata tup;
                parent_config := parent_config tup;
                pending_writes :=
                  pending_writes tup
                  ++ map (fun cv => (task, fst cv, loads_typed (dumps_typed (snd cv)))) ws |}).
Proof.
  intros Hid N R F G.
  assert (T : truthy (get_checkpoint_id cfg) = true).
  { unfold get_checkpoint_id. rewrite Hid. cbn. apply String.eqb_neq in N. rewrite N.
    reflexivity. }
  rewrite get_tuple_result in G |- *. cbv zeta in G |- *. rewrite T in G |- *.
  unfold get_checkpoint_id in G |- *. rewrite Hid in G |- *.
  assert (St : storage_at (thread_id cfg) (namespace_of cfg)
                 (fst (put_writes s cfg ws task path))
               = storage_at (thread_id cfg) (namespace_of cfg) s).
  { unfold put_writes. rewrite Hid. reflexivity. }
  rewrite St.
  destruct (lookup id _) as [saved|]; [|discriminate G].
  assert (W : values (writes_at (thread_id cfg, namespace_of cfg, id)
                        (fst (put_writes s cfg ws task path)))
              = values (writes_at (thread_id cfg, namespace_of cfg, id) s)
                ++ map (fun cv => (task, fst cv, dumps_typed (snd cv), path)) ws).
  { unfold put_writes. rewrite Hid. cbn [fst]. unfold writes_at. cbn [writes].
    apply loop_appends; [exact R|].
    intros ik I E. exfalso. exact (F ik I E). }
  assert (Bl : blobs (fst (put_writes s cfg ws task path)) = blobs s).
  { unfold put_writes. rewrite Hid. reflexivity. }
  revert G. unfold checkpoint_tuple. destruct saved as [[cb mb] p].
  rewrite !writes_at_touch, W.
  destruct (loads_typed cb); try discriminate.
  destruct (lookup _ d); try discriminate.
  unfold _load_blobs. cbn [blobs writes_touch]. rewrite Bl.
  destruct a; try discriminate.
  destruct (load_blobs_items _ _ _ _ _); try discriminate.
  cbn [found snd]. intros Q. inversion Q. cbn.
  rewrite !map_app, !map_map. reflexivity.
Qed.

End ReadKeeps.

(* ------------------------------------------------------------------ *)
(** ** Resolving channel versions against the blob table *)

Section LoadBlobs.
Context {serde : SerializerProtocol} {base : Base}.

Lemma load_blobs_items_unhashable b t ns :
  forall (d : list (string * Any)) acc,
    (exists k v, In (k, v) d /\ hashable v = None) ->
    load_blobs_items b t ns d acc = Raise TypeError.
Proof.
  induction d as [|[k0 v0] d IH]; intros acc [k [v [I Hh]]]; [destruct I|].
  cbn [load_blobs_items].
  destruct (hashable v0) as [hv|] eqn:E; [|reflexivity].
  assert (X : exists k v, In (k, v) d /\ hashable v = None).
  { destruct I as [I|I]; [inversion I; subst; congruence | eauto]. }
  destruct (lookup (t, ns, k0, hv) b) as [vv|]; [destruct (negb _)|]; apply IH; assumption.
Qed.

Lemma load_blobs_items_lookup b t ns :
  forall (d : list (string * Any)) (acc : Dict string Any),
    uniq d ->
    (forall k v, In (k, v) d -> hashable v <> None) ->
    exists cv,
      load_blobs_items b t ns d acc = Ok cv
      /\ forall k,
           lookup k cv
           = match lookup k d with
             | None => lookup k acc
             | Some v =>
                 match hashable v with
                 | None => lookup k acc
                 | Some hv =>
                     match lookup (t, ns, k, hv) b with
                     | Some vv =>
                         if String.eqb (fst vv) "empty" then lookup k acc
                         else Some (loads_typed vv)
                     | None => lookup k acc
                     end
                 end
             end.
Proof.
  induction d as [|[k0 v0] d IH]; intros acc U Hh.
  - exists acc. split; reflexivity.
  - inversion U as [|? ? N0 U']; subst.
    assert (Hh' : forall k v, In (k, v) d -> hashable v <> None)
      by (intros; eapply Hh; right; eauto).
    assert (L0 : lookup k0 d = None).
    { apply lookup_None. exact N0. }
    cbn [load_blobs_items lookup].
    destruct (hashable v0) as [hv|] eqn:E;
      [|exfalso; exact (Hh k0 v0 (or_introl eq_refl) E)].
    assert (Same : forall acc' : Dict string Any,
               (forall k, k <> k0 -> lookup k acc' = lookup k acc) ->
               forall x : option Any,
               (lookup k0 acc' = match x with Some y => Some y | None => lookup k0 acc end) ->
               (x = match lookup (t, ns, k0, hv) b with
                    | Some vv => if String.eqb (fst vv) "empty" then None
                                 else Some (loads_typed vv)
                    | None => None
                    end) ->
               exists cv,
                 load_blobs_items b t ns d acc' = Ok cv
                 /\ forall k,
                      lookup k cv
                      = match (if keq k k0 then Some v0 else lookup k d) with
                        | None => lookup k acc
                        | Some v =>
                            match hashable v with
                            | None => lookup k acc
                            | Some hv0 =>
                                match lookup (t, ns, k, hv0) b with
                                | Some vv =>
                                    if String.eqb (fst vv) "empty" then lookup k acc
                                    else Some (loads_typed vv)
                                | None => lookup k acc
                                end
                            end
                        end).
    { intros acc' Oth x At Xd.
      destruct (IH acc' U' Hh') as [cv [R L]]. exists cv. split; [exact R|].
      intros k. rewrite L. destruct (keq k k0) eqn:K.
      - apply keq_spec in K. subst k. rewrite L0, At, E, Xd.
        destruct (lookup (t, ns, k0, hv) b) as [vv|]; [|reflexivity].
        destruct (String.eqb (fst vv) "empty"); reflexivity.
      - apply keq_false in K. rewrite (Oth k K). reflexivity. }
    destruct (lookup (t, ns, k0, hv) b) as [vv|] eqn:B.
    + destruct (String.eqb (fst vv) "empty") eqn:T; cbn [negb].
      * apply (Same acc (fun _ _ => eq_refl) None); reflexivity.
      * apply (Same (set k0 (loads_typed vv) acc)) with (x := Some (loads_typed vv)).
        -- intros k K. apply lookup_set_other. exact K.
        -- apply lookup_set_same.
        -- reflexivity.
    + apply (Same acc (fun _ _ => eq_refl) None); reflexivity.
Qed.

(** X15.  [_load_blobs] on a versions mapping.  When every listed version
    is hashable, the result holds exactly the channels whose blob under
    (thread, namespace, channel, version) exists and is not tagged
    ["empty"], each with the decoded blob; a channel that is not listed,
    has no blob or has the ["empty"] blob is absent.  When a listed
    version is not hashable the call raises [TypeError]. *)
Theorem load_blobs_resolves (s : InMemorySaver) (t ns : string) (d : Dict string Any) :
  uniq d ->
  ((forall k v, In (k, v) d -> hashable v <> None) ->
     exists cv,
       _load_blobs s t ns (PyDict d) = Ok cv
       /\ forall k,
            lookup k cv
            = match lookup k d with
              | None => None
              | Some v =>
                  match hashable v with
                  | None => None
                  | Some hv =>
                      match lookup (t, ns, k, hv) (blobs s) with
                      | Some vv =>
                          if String.eqb (fst vv) "empty" then None
                          else Some (loads_typed vv)
                      | None => None
                      end
                  end
              end)
  /\ ((exists k v, In (k, v) d /\ hashable v = None) ->
        _load_blobs s t ns (PyDict d) = Raise TypeError).
Proof.
  intros U. split.
  - intros Hh. unfold _load_blobs.
    destruct (@load_blobs_items_lookup (blobs s) t ns d [] U Hh) as [cv [R L]].
    exists cv. split; [exact R|]. intros k. rewrite L. reflexivity.
  - intros X. unfold _load_blobs. apply load_blobs_items_unhashable. exact X.
Qed.

End LoadBlobs.

(* ------------------------------------------------------------------ *)
(** ** Deleting after other operations *)

Section FilterFacts.
Context {K V : Type} `{EqKey K}.
Implicit Types (k : K) (v : V) (d : Dict K V).

Lemma filter_set_out (q : K -> bool) k v d :
  q k = false ->
  filter (fun kv => q (fst kv)) (set k v d) = filter (fun kv => q (fst kv)) d.
Proof.
  intros Q. induction d as [|[k0 v0] d IH]; cbn [set filter fst].
  - rewrite Q. reflexivity.
  - destruct (keq k k0) eqn:E; cbn [filter fst].
    + apply keq_spec in E. subst k0. rewrite Q. reflexivity.
    + rewrite IH. reflexivity.
Qed.

Lemma filter_touch_out (q : K -> bool) k v d :
  q k = false ->
  filter (fun kv => q (fst kv)) (touch k v d) = filter (fun kv => q (fst kv)) d.
Proof.
  intros Q. unfold touch. destruct (mem k d); [reflexivity|].
  rewrite filter_app. cbn [filter fst]. rewrite Q. apply app_nil_r.
Qed.

Lemma del_where_set (p : K -> bool) k v d :
  p k = true -> del_where p (set k v d) = del_where p d.
Proof.
  intros P. rewrite !del_where_filter.
  apply (filter_set_out (fun x => negb (p x))). rewrite P. reflexivity.
Qed.

Lemma del_where_touch (p : K -> bool) k v d :
  p k = true -> del_where p (touch k v d) = del_where p d.
Proof.
  intros P. rewrite !del_where_filter.
  apply (filter_touch_out (fun x => negb (p x))). rewrite P. reflexivity.
Qed.

Lemma remove_set_same k v d : remove k (set k v d) = remove k d.
Proof.
  unfold remove. apply (filter_set_out (fun x => negb (keq k x))).
  rewrite keq_refl. reflexivity.
Qed.

Lemma remove_touch_same k v d : remove k (touch k v d) = remove k d.
Proof.
  unfold remove. apply (filter_touch_out (fun x => negb (keq k x))).
  rewrite keq_refl. reflexivity.
Qed.

Lemma remove_absent k d : mem k d = false -> remove k d = d.
Proof.
  intros M. unfold remove. apply filter_all_true. intros [k0 v0] I. cbn [fst].
  destruct (keq k k0) eqn:E; [|reflexivity].
  apply keq_spec in E. subst k0. apply mem_false in M. apply lookup_None in M.
  exfalso. apply M. apply (in_map fst) in I. exact I.
Qed.

Lemma remove_if_present k d : (if mem k d then remove k d else d) = remove k d.
Proof. destruct (mem k d) eqn:M; [reflexivity | symmetry; apply remove_absent; exact M]. Qed.

Lemma filter_comm {A} (f g : A -> bool) (l : list A) :
  filter f (filter g l) = filter g (filter f l).
Proof.
  induction l as [|a l IH]; cbn [filter]; [reflexivity|].
  destruct (f a) eqn:F, (g a) eqn:G; cbn [filter]; rewrite ?F, ?G, IH; reflexivity.
Qed.

Lemma filter_idem {A} (f : A -> bool) (l : list A) : filter f (filter f l) = filter f l.
Proof.
  induction l as [|a l IH]; cbn [filter]; [reflexivity|].
  destruct (f a) eqn:F; cbn [filter]; rewrite ?F, IH; reflexivity.
Qed.

End FilterFacts.

Section DeleteAfter.
Context {serde : SerializerProtocol} {base : Base}.

Lemma delete_thread_form s t :
  delete_thread s t
  = {| storage := remove t (storage s);
       writes := filter (fun kv : WritesKey * _ => negb (String.eqb (fst (fst (fst kv))) t))
                        (writes s);
       blobs := filter (fun kv : BlobKey * _ => negb (String.eqb (fst (fst (fst (fst kv)))) t))
                       (blobs s) |}.
Proof.
  unfold delete_thread. rewrite remove_if_present, !del_where_filter. reflexivity.
Qed.

(** X16.  Deleting threads commutes, and deleting a thread twice is
    deleting it once. *)
Theorem delete_thread_commutes (s : InMemorySaver) (t u : string) :
  delete_thread (delete_thread s t) u = delete_thread (delete_thread s u) t
  /\ delete_thread (delete_thread s t) t = delete_thread s t.
Proof.
  rewrite !delete_thread_form. cbn [storage writes blobs]. unfold remove. split.
  - f_equal; apply filter_comm.
  - f_equal; apply filter_idem.
Qed.

(** Two stores that differ only in entries of thread [t]. *)
Lemma delete_thread_same s1 s2 t :
  remove t (storage s1) = remove t (storage s2) ->
  del_where (fun k : WritesKey => String.eqb (fst (fst k)) t) (writes s1)
  = del_where (fun k : WritesKey => String.eqb (fst (fst k)) t) (writes s2) ->
  del_where (fun k : BlobKey => String.eqb (fst (fst (fst k))) t) (blobs s1)
  = del_where (fun k : BlobKey => String.eqb (fst (fst (fst k))) t) (blobs s2) ->
  delete_thread s1 t = delete_thread s2 t.
Proof.
  intros A B C. unfold delete_thread. rewrite !remove_if_present, A, B, C. reflexivity.
Qed.

Lemma storage_touch_removed s t ns :
  remove t (storage (storage_touch t ns s)) = remove t (storage s).
Proof.
  unfold storage_touch. cbn [storage]. rewrite remove_set_same. apply remove_touch_same.
Qed.

Lemma put_blobs_deleted t ns vals nv :
  forall b,
    del_where (fun k : BlobKey => String.eqb (fst (fst (fst k))) t)
              (fst (put_blobs t ns vals nv b))
    = del_where (fun k : BlobKey => String.eqb (fst (fst (fst k))) t) b.
Proof.
  induction nv as [|[k v] nv IH]; intros b; cbn [put_blobs]; [reflexivity|].
  destruct vals as [| z | text | d]; try reflexivity.
  - destruct (str_contains k text); [reflexivity|].
    rewrite IH. apply del_where_set. cbn [fst]. apply String.eqb_refl.
  - rewrite IH. apply del_where_set. cbn [fst]. apply String.eqb_refl.
Qed.

Lemma put_writes_loop_deleted t ns id al task path :
  forall ws idx (w : Dict WritesKey (Dict (string * Z) WriteEntry)),
    del_where (fun k : WritesKey => String.eqb (fst (fst k)) t)
              (put_writes_loop (t, ns, id) al task path idx ws w)
    = del_where (fun k : WritesKey => String.eqb (fst (fst k)) t) w.
Proof.
  induction ws as [|[c v] ws IH]; intros idx w; cbn [put_writes_loop]; [reflexivity|].
  destruct (_ && _ && _); [apply IH|].
  rewrite IH. rewrite del_where_set by (cbn [fst]; apply String.eqb_refl).
  apply del_where_touch. cbn [fst]. apply String.eqb_refl.
Qed.

Lemma list_items_deleted cid f b t ns items :
  forall s lim,
    del_where (fun k : WritesKey => String.eqb (fst (fst k)) t)
              (writes (fst (fst (fst (list_items cid f b t ns items s lim)))))
    = del_where (fun k : WritesKey => String.eqb (fst (fst k)) t) (writes s).
Proof.
  induction items as [|[id saved] items IH]; intros s lim; cbn [list_items]; [reflexivity|].
  destruct (truthy cid && _); [apply IH|].
  destruct (before_excludes b id); [apply IH|].
  destruct (metadata_matches f _) as [[|]|]; [| apply IH | reflexivity].
  assert (T : del_where (fun k : WritesKey => String.eqb (fst (fst k)) t)
                (writes (writes_touch (t, ns, id) s))
              = del_where (fun k : WritesKey => String.eqb (fst (fst k)) t) (writes s)).
  { unfold writes_touch. cbn [writes]. apply del_where_touch. cbn [fst].
    apply String.eqb_refl. }
  assert (G : forall l1,
    del_where (fun k : WritesKey => String.eqb (fst (fst k)) t)
      (writes (fst (fst (fst
        (let '(s1, r) := checkpoint_tuple s (address t ns (Some id)) t ns id saved in
         match r with
         | Raise e0 => (s1, l1, [], Some e0)
         | Ok tup =>
             let '(s'', limit', out0, e0) := list_items cid f b t ns items s1 l1 in
             (s'', limit', tup :: out0, e0)
         end)))))
    = del_where (fun k : WritesKey => String.eqb (fst (fst k)) t) (writes s)).
  { intros l1. rewrite (checkpoint_tuple_split s).
    destruct (snd (checkpoint_tuple s _ t ns id saved)) as [tup|e0]; [|exact T].
    specialize (IH (writes_touch (t, ns, id) s) l1).
    destruct (list_items cid f b t ns items (writes_touch (t, ns, id) s) l1)
      as [[[s3 l3] o3] e3].
    cbn [fst] in IH |- *. rewrite IH. exact T. }
  destruct lim as [n|]; [destruct (n <=? 0)%Z; [reflexivity | apply G] | apply G].
Qed.

Lemma list_namespaces_deleted cns cid f b t nss :
  forall s lim,
    del_where (fun k : WritesKey => String.eqb (fst (fst k)) t)
              (writes (fst (fst (fst (list_namespaces cns cid f b t nss s lim)))))
    = del_where (fun k : WritesKey => String.eqb (fst (fst k)) t) (writes s).
Proof.
  induction nss as [|ns nss IH]; intros s lim; cbn [list_namespaces]; [reflexivity|].
  destruct (match cns with Some c => _ | None => false end); [apply IH|].
  pose proof (list_items_deleted cid f b t ns (sorted_desc (storage_at t ns s)) s lim) as R.
  destruct (list_items cid f b t ns _ s lim) as [[[s1 l1] o1] e1].
  cbn [fst] in R. destruct e1; [exact R|].
  specialize (IH s1 l1).
  destruct (list_namespaces cns cid f b t nss s1 l1) as [[[s2 l2] o2] e2].
  cbn [fst] in IH |- *. rewrite IH. exact R.
Qed.

(** X17.  What an operation does under a thread is gone with the thread:
    deleting the thread after [put] (returning or raising), [put_writes],
    [get_tuple] or [list] for an address of that thread gives the store
    that deleting it before the operation gives. *)
Theorem delete_thread_absorbs (h : Heap) (s : InMemorySaver) (cfg : RunnableConfig)
    (l : Ref) (md : Any) (nv : Dict string Version)
    (ws : list (string * Any)) (task path : string)
    (f : option (Dict string Any)) (b : option RunnableConfig) (lim : option Z) :
  delete_thread (snd (fst (put h s cfg l md nv))) (thread_id cfg)
  = delete_thread s (thread_id cfg)
  /\ delete_thread (fst (put_writes s cfg ws task path)) (thread_id cfg)
     = delete_thread s (thread_id cfg)
  /\ delete_thread (fst (get_tuple s cfg)) (thread_id cfg)
     = delete_thread s (thread_id cfg)
  /\ delete_thread (fst (fst (list_ s (Some cfg) f b lim))) (thread_id cfg)
     = delete_thread s (thread_id cfg).
Proof.
  set (t := thread_id cfg).
  split; [|split; [|split]].
  - unfold put, dict_copy. fold t.
    destruct (checkpoint_ns cfg) as [ns|]; [|reflexivity].
    destruct (dict_pop _ _ _) as [h2 [vals|e]]; [|reflexivity].
    pose proof (put_blobs_deleted t ns vals nv (blobs s)) as PB.
    destruct (put_blobs t ns vals nv (blobs s)) as [bl [e|]]; cbn [fst] in PB.
    + cbn [fst snd]. apply delete_thread_same; [reflexivity | reflexivity | exact PB].
    + assert (T : delete_thread
                    (storage_touch t ns
                       {| storage := storage s; writes := writes s; blobs := bl |}) t
                  = delete_thread s t).
      { apply delete_thread_same;
          [rewrite storage_touch_removed; reflexivity | reflexivity | exact PB]. }
      destruct (dict_getitem h2 l "id") as [[| |id|]|e]; cbn [fst snd]; try exact T.
      apply delete_thread_same; cbn [storage writes blobs storage_touch].
      * rewrite !remove_set_same. apply remove_touch_same.
      * reflexivity.
      * exact PB.
  - unfold put_writes. fold t. destruct (checkpoint_id cfg) as [id|]; [|reflexivity].
    cbn [fst]. apply delete_thread_same; cbn [storage writes blobs]; try reflexivity.
    apply put_writes_loop_deleted.
  - assert (T1 : delete_thread (storage_touch t (namespace_of cfg) s) t = delete_thread s t).
    { apply delete_thread_same; [apply storage_touch_removed | reflexivity | reflexivity]. }
    assert (T2 : forall id,
               delete_thread
                 (writes_touch (t, namespace_of cfg, id) (storage_touch t (namespace_of cfg) s)) t
               = delete_thread s t).
    { intros id. apply delete_thread_same.
      - apply storage_touch_removed.
      - unfold writes_touch. cbn [writes storage_touch].
        apply del_where_touch. cbn [fst]. apply String.eqb_refl.
      - reflexivity. }
    unfold get_tuple. fold t. destruct (truthy (get_checkpoint_id cfg)).
    + destruct (lookup _ _) as [saved|]; [|exact T1].
      rewrite checkpoint_tuple_split. cbn [fst]. apply T2.
    + destruct (py_max _) as [m|]; [|exact T1].
      destruct (lookup _ _) as [saved|]; [|exact T1].
      rewrite checkpoint_tuple_split. cbn [fst]. apply T2.
  - unfold list_. cbn [list_threads]. fold t.
    pose proof (list_namespaces_deleted (checkpoint_ns cfg) (get_checkpoint_id cfg) f b t
                  (keys (get_or t (storage (thread_touch t s)) [])) (thread_touch t s) lim)
      as R.
    destruct (list_namespaces _ _ f b t _ (thread_touch t s) lim)
      as [[[s1 l1] o1] e1] eqn:E.
    pose proof (list_namespaces_effect _ _ _ _ _ _ _ _ E) as [[_ [_ V]] S].
    cbn [fst] in R.
    assert (D : delete_thread s1 t = delete_thread s t).
    { apply delete_thread_same.
      - rewrite S. unfold thread_touch. cbn [storage]. apply remove_touch_same.
      - exact R.
      - rewrite <- V. reflexivity. }
    destruct e1; cbn [fst]; exact D.
Qed.

End DeleteAfter.

(* ------------------------------------------------------------------ *)
(** ** Versions in a row *)

Section VersionChain.
Context {interp : Interpreter}.

(** X18.  A version that [get_next_version] returned for a current
    version with prefix [n] is accepted as the current version: the next
    call returns the prefix [n + 2] when [n + 2] is within the limit of
    the interpreter and raises [ValueError] when it is beyond a limit
    that is set; and, the prefixes being natural numbers below [10 ^ 32],
    the second result is the greater string. *)
Theorem next_version_feeds_back (current : Version) (h r : string) :
  get_next_version current h = Ok r ->
  exists n,
    current_value current = Some n
    /\ r = (padded_032 (n + 1) ++ "." ++ h)%string
    /\ forall h',
         ((int_max_str_digits <= 0 \/ Z.abs (n + 2) < 10 ^ int_max_str_digits)%Z ->
          get_next_version (VStr r) h' = Ok (padded_032 (n + 2) ++ "." ++ h')%string)
         /\ ((640 <= int_max_str_digits)%Z ->
             (10 ^ int_max_str_digits <= Z.abs (n + 2))%Z ->
             get_next_version (VStr r) h' = Raise ValueError)
         /\ ((0 <= n + 1)%Z -> (n + 2 < 10 ^ 32)%Z ->
             String.ltb r (padded_032 (n + 2) ++ "." ++ h') = true).
Proof.
  unfold get_next_version at 1. destruct (current_value current) as [n|] eqn:V; [|discriminate].
  destruct (format_032 (n + 1)) as [v|] eqn:F; [|discriminate].
  intros Q. assert (E : r = (v ++ "." ++ h)%string) by congruence. clear Q.
  pose proof (@format_text interp (n + 1) v F) as T. subst v.
  exists n. split; [reflexivity|]. split; [exact E|]. intros h'.
  assert (C : current_value (VStr r) = Some (n + 1)%Z).
  { cbn [current_value]. rewrite E, before_dot_format. apply py_int_format. exact F. }
  replace (n + 2)%Z with (n + 1 + 1)%Z by lia.
  split; [|split].
  - intros W. rewrite (@get_next_version_value interp (VStr r) (n + 1) h' C).
    rewrite format_within by exact W. reflexivity.
  - intros M B. apply (@next_version_beyond interp (VStr r) (n + 1) h' C M B).
  - intros B1 B2. rewrite E. apply padded_order; lia.
Qed.

End VersionChain.

(* ------------------------------------------------------------------ *)
(** ** [PersistentDict]: a completed [sync], [close] and [load] *)

Section SyncCompletes.
Variable Contents : Type.
Variable pickle_dump : Contents -> bytes * option Exn.

Lemma sync_completed_form fs (d : PersistentDict Contents) b :
  flag d <> "r"%string ->
  dump pickle_dump d = (b, None) ->
  sync pickle_dump fs d
  = (match mode d with
     | Some m =>
         os_chmod (filename d) m
           (shutil_move (filename d ++ ".tmp") (filename d)
              (fs_write (filename d ++ ".tmp") b (fs_open (filename d ++ ".tmp") fs)))
     | None =>
         shutil_move (filename d ++ ".tmp") (filename d)
           (fs_write (filename d ++ ".tmp") b (fs_open (filename d ++ ".tmp") fs))
     end, Ok tt).
Proof.
  intros F D. unfold sync. apply String.eqb_neq in F. rewrite F, D. reflexivity.
Qed.

(** X19.  A [sync] that completes: the destination holds the serialized
    mapping, the temporary file is gone, a mode that is set is the mode
    of the destination, and every other file has the contents and the
    mode it had.  A read-only mapping ([flag "r"]) is not written. *)
Theorem sync_completed (fs : FileSystem) (d : PersistentDict Contents) (b : bytes) :
  dump pickle_dump d = (b, None) ->
  (flag d = "r"%string -> sync pickle_dump fs d = (fs, Ok tt))
  /\ (flag d <> "r"%string ->
      snd (sync pickle_dump fs d) = Ok tt
      /\ lookup (filename d) (files (fst (sync pickle_dump fs d))) = Some b
      /\ lookup (filename d ++ ".tmp")%string (files (fst (sync pickle_dump fs d))) = None
      /\ (forall m, mode d = Some m ->
            lookup (filename d) (modes (fst (sync pickle_dump fs d))) = Some m)
      /\ (forall p, p <> filename d -> p <> (filename d ++ ".tmp")%string ->
            lookup p (files (fst (sync pickle_dump fs d))) = lookup p (files fs)
            /\ lookup p (modes (fst (sync pickle_dump fs d))) = lookup p (modes fs))).
Proof.
  intros D. split.
  - intros F. unfold sync. rewrite F. reflexivity.
  - intros F. rewrite (@sync_completed_form fs d b F D). cbn [fst snd].
    set (tmp := (filename d ++ ".tmp")%string).
    assert (Dst : filename d <> tmp).
    { intros Q. symmetry in Q. exact (tempname_differs Q). }
    assert (Mv : shutil_move tmp (filename d) (fs_write tmp b (fs_open tmp fs))
                 = {| files := set (filename d) b (remove tmp (set tmp b (set tmp [] (files fs))));
                      modes :=
                        match lookup tmp (modes fs) with
                        | Some m => set (filename d) m (remove tmp (modes fs))
                        | None => remove (filename d) (modes fs)
                        end |}).
    { unfold shutil_move, fs_write, fs_open. cbn [files modes].
      rewrite lookup_set_same. reflexivity. }
    assert (Fl : forall fs', files fs' = files (shutil_move tmp (filename d)
                                               (fs_write tmp b (fs_open tmp fs))) ->
                 lookup (filename d) (files fs') = Some b
                 /\ lookup tmp (files fs') = None
                 /\ forall p, p <> filename d -> p <> tmp ->
                      lookup p (files fs') = lookup p (files fs)).
    { intros fs' ->. rewrite Mv. cbn [files]. split; [apply lookup_set_same|]. split.
      - rewrite lookup_set_other by (intros Q; apply Dst; symmetry; exact Q).
        apply lookup_remove_same.
      - intros p N1 N2. rewrite lookup_set_other by exact N1.
        rewrite lookup_remove_other by exact N2.
        rewrite !lookup_set_other by exact N2. reflexivity. }
    assert (Md : forall p, p <> filename d -> p <> tmp ->
                 lookup p (modes (shutil_move tmp (filename d)
                                    (fs_write tmp b (fs_open tmp fs))))
                 = lookup p (modes fs)).
    { intros p N1 N2. rewrite Mv. cbn [modes].
      destruct (lookup tmp (modes fs)).
      - rewrite lookup_set_other by exact N1. apply lookup_remove_other. exact N2.
      - apply lookup_remove_other. exact N1. }
    split; [reflexivity|].
    destruct (mode d) as [m|].
    + destruct (Fl (os_chmod (filename d) m
                      (shutil_move tmp (filename d) (fs_write tmp b (fs_open tmp fs))))
                   eq_refl) as [F1 [F2 F3]].
      split; [exact F1|]. split; [exact F2|]. split.
      * intros m' Q. inversion Q; subst. unfold os_chmod. cbn [modes]. apply lookup_set_same.
      * intros p N1 N2. split; [apply F3; assumption|].
        unfold os_chmod. cbn [modes]. rewrite lookup_set_other by exact N1.
        apply Md; assumption.
    + destruct (Fl _ eq_refl) as [F1 [F2 F3]].
      split; [exact F1|]. split; [exact F2|]. split; [discriminate|].
      intros p N1 N2. split; [apply F3 | apply Md]; assumption.
Qed.

End SyncCompletes.

Section LoadFacts.
Context {K V : Type} `{EqKey K}.
Variable pickle_dump : Dict K V -> bytes * option Exn.
Variable pickle_load : bool -> bytes -> Unpickled K V.

Lemma dict_update_snoc (d items : Dict K V) (k : K) (v : V) :
  dict_update d (items ++ [(k, v)]) = set k v (dict_update d items).
Proof. unfold dict_update. rewrite fold_left_app. reflexivity. Qed.

(** After [update] a key holds the value of the last pair given for it,
    and otherwise what it held. *)
Lemma dict_update_lookup (items : Dict K V) :
  forall (d : Dict K V) k,
    lookup k (dict_update d items)
    = match lookup k (rev items) with Some v => Some v | None => lookup k d end.
Proof.
  induction items as [|[k0 v0] items IH] using rev_ind; intros d k; [reflexivity|].
  rewrite dict_update_snoc, rev_app_distr. cbn [rev app lookup].
  destruct (keq k k0) eqn:E.
  - apply keq_spec in E. subst k0. apply lookup_set_same.
  - apply keq_false in E. rewrite lookup_set_other by exact E. apply IH.
Qed.

Lemma dict_update_fresh (c : Dict K V) :
  forall d : Dict K V, uniq (d ++ c) -> dict_update d c = d ++ c.
Proof.
  unfold dict_update.
  induction c as [|[k0 v0] c IH]; intros d U; cbn [fold_left fst snd].
  - rewrite app_nil_r. reflexivity.
  - assert (N : ~ In k0 (keys d)).
    { unfold uniq, keys in U. rewrite map_app in U. cbn [map fst] in U.
      apply NoDup_remove_2 in U. intros I. apply U. apply in_or_app. left. exact I. }
    rewrite set_new by exact N. rewrite IH.
    + rewrite <- app_assoc. reflexivity.
    + rewrite <- app_assoc. exact U.
Qed.

(** X20.  [close] clears the mapping only after [sync] returned.  For a
    read-only mapping ([flag "r"]) [sync] writes nothing: [close] leaves
    the files as they are and empties the mapping.  Otherwise, when the
    serialization succeeds the destination holds the serialized mapping
    and the mapping is empty; when it fails the exception reaches the
    caller, the mapping keeps its contents and the destination file is as
    it was. *)
Theorem close_clears_after_sync (fs : FileSystem) (d : PersistentDict (Dict K V))
    (b : bytes) (failure : option Exn) :
  dump pickle_dump d = (b, failure) ->
  (flag d = "r"%string -> close pickle_dump fs d = (fs, with_contents d [], Ok tt))
  /\ (flag d <> "r"%string ->
      match failure with
      | None =>
          snd (close pickle_dump fs d) = Ok tt
          /\ contents (snd (fst (close pickle_dump fs d))) = []
          /\ lookup (filename d) (files (fst (fst (close pickle_dump fs d)))) = Some b
      | Some e =>
          snd (close pickle_dump fs d) = Raise e
          /\ snd (fst (close pickle_dump fs d)) = d
          /\ lookup (filename d) (files (fst (fst (close pickle_dump fs d))))
             = lookup (filename d) (files fs)
      end).
Proof.
  intros D. split.
  - intros F. unfold close, sync. rewrite F. reflexivity.
  - intros F. unfold close. destruct failure as [e|].
    + assert (E : sync pickle_dump fs d
                = (os_remove (filename d ++ ".tmp")
                     (fs_write (filename d ++ ".tmp") b (fs_open (filename d ++ ".tmp") fs)),
                   Raise e)).
      { unfold sync. apply String.eqb_neq in F. rewrite F, D. reflexivity. }
      rewrite E. cbn [fst snd]. split; [reflexivity|]. split; [reflexivity|].
      assert (Dst : filename d <> (filename d ++ ".tmp")%string).
      { intros Q. symmetry in Q. exact (tempname_differs Q). }
      unfold os_remove, fs_write, fs_open. cbn [files].
      rewrite lookup_remove_other by exact Dst. rewrite !lookup_set_other by exact Dst.
      reflexivity.
    + pose proof (@sync_commits _ pickle_dump fs d b F D) as [S1 S2].
      destruct (sync pickle_dump fs d) as [fs' [u|e]]; cbn [fst snd] in *; [|discriminate S1].
      split; [reflexivity|]. split; [reflexivity | exact S2].
Qed.

(** X21.  Writing and reading back, in the format ["pickle"].  When
    [pickle.load], on a file opened in binary mode, returns the mapping
    that [pickle.dump] wrote, then loading, into an empty mapping of
    format ["pickle"] with the same file name, the file that a completed
    [sync] left gives the mapping that was written. *)
Theorem load_after_sync (fs : FileSystem) (d d0 : PersistentDict (Dict K V)) (b : bytes) :
  (forall c w, pickle_dump c = (w, None) -> pickle_load true w = Loaded c UpdateDone) ->
  flag d <> "r"%string ->
  dump pickle_dump d = (b, None) ->
  uniq (contents d) ->
  filename d0 = filename d ->
  format d0 = "pickle"%string ->
  flag d0 <> "n"%string ->
  contents d0 = [] ->
  load pickle_load (fst (sync pickle_dump fs d)) d0 = (with_contents d0 (contents d), None).
Proof.
  intros Law F D U N Fm F0 C0.
  pose proof (@sync_commits _ pickle_dump fs d b F D) as [_ S2].
  unfold load. apply String.eqb_neq in F0. rewrite F0, N, S2, Fm, String.eqb_refl.
  assert (P : pickle_dump (contents d) = (b, None)).
  { unfold dump in D. destruct (String.eqb (format d) "pickle"); [exact D | discriminate D]. }
  rewrite (Law _ _ P), C0. rewrite dict_update_fresh by exact U. reflexivity.
Qed.

(** X22.  [load] merges the file into the mapping.  [pickle.load] gets
    the file in binary mode exactly when the format is ["pickle"].  When
    it returns an object, the pairs that [update] takes from the object
    replace or extend the entries in memory, the last pair for a key
    winning, and the other entries stay; this also holds for the pairs
    that went in before [update] rejected the object, and the exception
    of [update] is then raised again.  With [flag "n"], a missing file,
    an [EOFError] or a failure of [pickle.load] the mapping is as it
    was: [flag "n"] and [EOFError] return normally, a missing file
    raises [FileNotFoundError], the failure is raised again. *)
Theorem load_merges (fs : FileSystem) (d : PersistentDict (Dict K V)) :
  (forall b items end_,
     flag d <> "n"%string ->
     lookup (filename d) (files fs) = Some b ->
     pickle_load (String.eqb (format d) "pickle") b = Loaded items end_ ->
     snd (load pickle_load fs d)
     = match end_ with UpdateRaised e => Some (Reraised e) | _ => None end
     /\ forall k, lookup k (contents (fst (load pickle_load fs d)))
                  = match lookup k (rev items) with
                    | Some v => Some v
                    | None => lookup k (contents d)
                    end)
  /\ (flag d = "n"%string -> load pickle_load fs d = (d, None))
  /\ (flag d <> "n"%string -> lookup (filename d) (files fs) = None ->
      load pickle_load fs d = (d, Some FileNotFoundError))
  /\ (forall b, flag d <> "n"%string ->
        lookup (filename d) (files fs) = Some b ->
        pickle_load (String.eqb (format d) "pickle") b = EndOfFile ->
        load pickle_load fs d = (d, None))
  /\ (forall b e, flag d <> "n"%string ->
        lookup (filename d) (files fs) = Some b ->
        pickle_load (String.eqb (format d) "pickle") b = LoadFailed e ->
        load pickle_load fs d = (d, Some (Reraised e))).
Proof.
  split; [|split; [|split; [|split]]].
  - intros b items end_ F L P. unfold load. apply String.eqb_neq in F. rewrite F, L, P.
    cbn [fst snd contents with_contents]. split; [destruct end_; reflexivity|].
    intros k. apply dict_update_lookup.
  - intros F. unfold load. rewrite F. reflexivity.
  - intros F L. unfold load. apply String.eqb_neq in F. rewrite F, L. reflexivity.
  - intros b F L P. unfold load. apply String.eqb_neq in F. rewrite F, L, P. reflexivity.
  - intros b e F L P. unfold load. apply String.eqb_neq in F. rewrite F, L, P. reflexivity.
Qed.

End LoadFacts.

(* ================================================================== *)
(** * Instances of the further properties on the example data *)

Module ExtraChecks.
Import RefSerde RefSerdeFacts Examples.
Local Open Scope string_scope.

Lemma toy_pickle_law (c : Dict string Any) (w : bytes) :
  toy_pickle_dump c = (w, None) -> toy_pickle_load true w = Loaded c UpdateDone.
Proof.
  unfold toy_pickle_dump. intros Q.
  assert (E : w = enc (PyDict c)) by congruence. clear Q.
  assert (D : dec (List.length w) w = Some (PyDict c, [])).
  { rewrite E. rewrite <- (app_nil_r (enc (PyDict c))) at 2. apply dec_enc. lia. }
  unfold toy_pickle_load. rewrite D.
  destruct w; [discriminate E | reflexivity].
Qed.

Lemma put_again_keeps_store_witness :
  snd (fst (put (fst (fst (put heap empty_saver root 0 PyNone v1)))
              (snd (fst (put heap empty_saver root 0 PyNone v1))) root 0 PyNone v1))
  = snd (fst (put heap empty_saver root 0 PyNone v1))
  /\ snd (put (fst (fst (put heap empty_saver root 0 PyNone v1)))
            (snd (fst (put heap empty_saver root 0 PyNone v1))) root 0 PyNone v1)
     = snd (put heap empty_saver root 0 PyNone v1).
Proof.
  apply (@put_again_keeps_store ref_serde ref_base heap empty_saver root "" 0 c1 "1"
           [("x", PyInt 1)] PyNone v1); reflexivity.
Defined.

Lemma put_then_latest_witness :
  py_max (keys (storage_at "T" ""
                  (snd (fst (put heap store1 (address "T" "" (Some "1")) 3 PyNone
                               [("y", VStr "v2")])))))
  = Some "2"
  /\ snd (get_tuple (snd (fst (put heap store1 (address "T" "" (Some "1")) 3 PyNone
                                 [("y", VStr "v2")])))
            (address "T" "" None))
     = snd (get_tuple (snd (fst (put heap store1 (address "T" "" (Some "1")) 3 PyNone
                                   [("y", VStr "v2")])))
              (address "T" "" (Some "2"))).
Proof.
  apply (@put_then_latest ref_serde ref_base heap store1 (address "T" "" (Some "1")) "" 3 c2
           "2" [("x", PyInt 1); ("y", PyInt 2)] PyNone [("y", VStr "v2")]).
  - reflexivity.
  - reflexivity.
  - reflexivity.
  - discriminate.
  - reflexivity.
  - intros k I. vm_compute in I. destruct I as [<-|[]]. reflexivity.
Defined.

Lemma put_then_get_returns_commit_witness :
  exists tup,
    snd (get_tuple (snd (fst (put heap empty_saver root 0 PyNone v1)))
           (address "T" "" (Some "1")))
    = Ok (Some tup)
    /\ config tup = address "T" "" (Some "1")
    /\ metadata tup = PyNone
    /\ parent_config tup = None
    /\ forall key, key <> "channel_values" -> checkpoint_entry key tup = lookup key c1.
Proof.
  apply (@put_then_get_returns_commit ref_serde ref_laws ref_base heap empty_saver root "" 0
           c1 "1" [("x", PyInt 1)] [("x", PyStr "v1")] PyNone v1).
  - reflexivity.
  - reflexivity.
  - reflexivity.
  - discriminate.
  - reflexivity.
  - reflexivity.
  - intros k v [E|[]]. inversion E. discriminate.
Defined.

Lemma put_writes_reserved_overwrites_witness :
  lookup ("t1", (-1)%Z)
    (writes_at ("T", "", "1")
       (fst (put_writes
               (fst (put_writes store1 (address "T" "" (Some "1"))
                       [("__error__", PyStr "first")] "t1" ""))
               (address "T" "" (Some "1"))
               [("c", PyStr "a"); ("__error__", PyStr "e"); ("d", PyStr "b")] "t1" "")))
  = Some ("t1", "__error__", dumps_typed (PyStr "e"), "").
Proof.
  apply (@put_writes_reserved_overwrites ref_serde ref_base
           (fst (put_writes store1 (address "T" "" (Some "1"))
                   [("__error__", PyStr "first")] "t1" ""))
           (address "T" "" (Some "1")) "1" "t1" ""
           [("c", PyStr "a")] [("d", PyStr "b")] "__error__" (PyStr "e") (-1)%Z).
  - reflexivity.
  - reflexivity.
  - lia.
  - intros c' x' [E|[]]. inversion E. discriminate.
Defined.

Lemma put_writes_again_keeps_store_witness :
  put_writes
    (fst (put_writes store1 (address "T" "" (Some "1"))
            [("c", PyStr "a"); ("d", PyStr "b")] "t1" ""))
    (address "T" "" (Some "1")) [("c", PyStr "z")] "t1" "p"
  = (fst (put_writes store1 (address "T" "" (Some "1"))
            [("c", PyStr "a"); ("d", PyStr "b")] "t1" ""),
     snd (put_writes store1 (address "T" "" (Some "1"))
            [("c", PyStr "a"); ("d", PyStr "b")] "t1" "")).
Proof.
  apply (@put_writes_again_keeps_store ref_serde ref_base store1 (address "T" "" (Some "1"))
           [("c", PyStr "a"); ("d", PyStr "b")] [("c", PyStr "z")] "t1" "" "p").
  - intros c v [E|[E|[]]]; inversion E; reflexivity.
  - intros c v [E|[]]. inversion E. reflexivity.
  - simpl. lia.
Defined.

Lemma list_agrees_with_get_witness :
  Forall (fun tup => tuple_id tup <> "" ->
                     snd (get_tuple store2 (config tup)) = Ok (Some tup))
         (snd (fst (list_ store2 None None None None))).
Proof.
  apply (@list_agrees_with_get ref_serde store2 None None None None).
  apply (@reachable_wf ref_serde ref_base). unfold store2, store1.
  apply reach_put. apply reach_put. apply reach_empty.
Defined.

Lemma list_without_limit_is_complete_witness :
  exists tup,
    In tup (snd (fst (list_ store2 (Some root) None None None)))
    /\ config tup = address "T" "" (Some "1")
    /\ metadata tup = loads_typed (dumps_typed PyNone).
Proof.
  apply (@list_without_limit_is_complete ref_serde store2 (Some root) None None "T" "" "1"
           (dumps_typed (PyDict (remove "channel_values" c1)), dumps_typed PyNone, None)).
  - vm_compute. reflexivity.
  - split; [reflexivity|]. split.
    + intros n E. inversion E. reflexivity.
    + intros E. discriminate E.
  - vm_compute. left. reflexivity.
  - reflexivity.
  - reflexivity.
Defined.

Lemma reads_change_no_data_witness :
  (forall t ns, storage_at t ns (fst (get_tuple store1 root)) = storage_at t ns store1)
  /\ (forall k, writes_at k (fst (get_tuple store1 root)) = writes_at k store1)
  /\ blobs (fst (get_tuple store1 root)) = blobs store1
  /\ (forall cfg', snd (get_tuple (fst (get_tuple store1 root)) cfg')
                   = snd (get_tuple store1 cfg')).
Proof.
  apply (@reads_change_no_data ref_serde store1 root None None None None).
  left. reflexivity.
Defined.

Lemma put_writes_then_get_appends_witness :
  snd (get_tuple (fst (put_writes store1 (address "T" "" (Some "1"))
                         [("c", PyStr "a"); ("d", PyInt 2)] "t1" ""))
         (address "T" "" (Some "1")))
  = Ok (Some {| config := address "T" "" (Some "1");
                checkpoint :=
                  PyDict [("v", PyInt 1); ("id", PyStr "1");
                          ("channel_versions", PyDict [("x", PyStr "v1")]);
                          ("channel_values", PyDict [("x", PyInt 1)])];
                metadata := PyNone;
                parent_config := None;
                pending_writes :=
                  [] ++ map (fun cv => ("t1", fst cv, loads_typed (dumps_typed (snd cv))))
                            [("c", PyStr "a"); ("d", PyInt 2)] |}).
Proof.
  apply (@put_writes_then_get_appends ref_serde ref_base store1 (address "T" "" (Some "1")) "1"
           [("c", PyStr "a"); ("d", PyInt 2)] "t1" ""
           {| config := address "T" "" (Some "1");
              checkpoint :=
                PyDict [("v", PyInt 1); ("id", PyStr "1");
                        ("channel_versions", PyDict [("x", PyStr "v1")]);
                        ("channel_values", PyDict [("x", PyInt 1)])];
              metadata := PyNone;
              parent_config := None;
              pending_writes := [] |}).
  - reflexivity.
  - discriminate.
  - intros c v [E|[E|[]]]; inversion E; reflexivity.
  - intros ik I. vm_compute in I. destruct I.
  - vm_compute. reflexivity.
Defined.

Lemma load_blobs_resolves_witness :
  exists cv,
    _load_blobs store1 "T" "" (PyDict [("x", PyStr "v1"); ("y", PyStr "v9")]) = Ok cv
    /\ lookup "x" cv = Some (PyInt 1)
    /\ lookup "y" cv = None.
Proof.
  assert (U : uniq [("x", PyStr "v1"); ("y", PyStr "v9")]).
  { constructor; [intros [E|[]]; discriminate E|]. constructor; [intros []|]. constructor. }
  destruct (proj1 (@load_blobs_resolves ref_serde store1 "T" ""
                     [("x", PyStr "v1"); ("y", PyStr "v9")] U)) as [cv [R L]].
  - intros k v [E|[E|[]]]; inversion E; discriminate.
  - exists cv. split; [exact R|]. split; rewrite L; vm_compute; reflexivity.
Defined.

Lemma next_version_feeds_back_witness :
  exists n,
    current_value (VInt 41) = Some n
    /\ "00000000000000000000000000000042.0.5" = padded_032 (n + 1) ++ "." ++ "0.5"
    /\ forall h',
         ((int_max_str_digits <= 0 \/ Z.abs (n + 2) < 10 ^ int_max_str_digits)%Z ->
          get_next_version (VStr "00000000000000000000000000000042.0.5") h'
          = Ok (padded_032 (n + 2) ++ "." ++ h'))
         /\ ((640 <= int_max_str_digits)%Z ->
             (10 ^ int_max_str_digits <= Z.abs (n + 2))%Z ->
             get_next_version (VStr "00000000000000000000000000000042.0.5") h'
             = Raise ValueError)
         /\ ((0 <= n + 1)%Z -> (n + 2 < 10 ^ 32)%Z ->
             String.ltb "00000000000000000000000000000042.0.5"
                        (padded_032 (n + 2) ++ "." ++ h') = true).
Proof.
  apply (@next_version_feeds_back default_limit (VInt 41) "0.5"
           "00000000000000000000000000000042.0.5").
  reflexivity.
Defined.

Lemma sync_completed_witness :
  snd (sync toy_pickle_dump disk0 pd_map) = Ok tt
  /\ lookup "db" (files (fst (sync toy_pickle_dump disk0 pd_map)))
     = Some (enc (PyDict [("a", PyInt 1); ("b", PyStr "x")]))
  /\ lookup "db.tmp" (files (fst (sync toy_pickle_dump disk0 pd_map))) = None
  /\ lookup "db" (modes (fst (sync toy_pickle_dump disk0 pd_map))) = Some 420%Z.
Proof.
  destruct (@sync_completed _ toy_pickle_dump disk0 pd_map
              (enc (PyDict [("a", PyInt 1); ("b", PyStr "x")])) eq_refl) as [_ P].
  destruct P as [A [B [C [D _]]]]; [discriminate|].
  split; [exact A|]. split; [exact B|]. split; [exact C|]. apply D. reflexivity.
Defined.

Lemma close_clears_after_sync_witness :
  (snd (close toy_pickle_dump disk0 pd_map) = Ok tt
   /\ contents (snd (fst (close toy_pickle_dump disk0 pd_map))) = []
   /\ lookup "db" (files (fst (fst (close toy_pickle_dump disk0 pd_map))))
      = Some (enc (PyDict [("a", PyInt 1); ("b", PyStr "x")])))
  /\ (snd (close toy_pickle_fail disk0 pd_map) = Raise TypeError
      /\ snd (fst (close toy_pickle_fail disk0 pd_map)) = pd_map
      /\ lookup "db" (files (fst (fst (close toy_pickle_fail disk0 pd_map))))
         = lookup "db" (files disk0))
  /\ close toy_pickle_dump disk0 pd_read_only = (disk0, with_contents pd_read_only [], Ok tt).
Proof.
  split; [|split].
  - apply (proj2 (@close_clears_after_sync string Any toy_pickle_dump disk0 pd_map
                    (enc (PyDict [("a", PyInt 1); ("b", PyStr "x")])) None eq_refl)).
    discriminate.
  - apply (proj2 (@close_clears_after_sync string Any toy_pickle_fail disk0 pd_map
                    (firstn 2 (enc (PyDict [("a", PyInt 1); ("b", PyStr "x")])))
                    (Some TypeError) eq_refl)).
    discriminate.
  - apply (proj1 (@close_clears_after_sync string Any toy_pickle_dump disk0 pd_read_only
                    (enc (PyDict [("a", PyInt 1)])) None eq_refl)).
    reflexivity.
Defined.

Lemma load_after_sync_witness :
  load toy_pickle_load (fst (sync toy_pickle_dump disk0 pd_map)) pd_fresh
  = (with_contents pd_fresh [("a", PyInt 1); ("b", PyStr "x")], None).
Proof.
  apply (@load_after_sync string Any _ toy_pickle_dump toy_pickle_load disk0 pd_map pd_fresh
           (enc (PyDict [("a", PyInt 1); ("b", PyStr "x")]))).
  - exact toy_pickle_law.
  - discriminate.
  - reflexivity.
  - constructor; [intros [E|[]]; discriminate E|]. constructor; [intros []|]. constructor.
  - reflexivity.
  - reflexivity.
  - discriminate.
  - reflexivity.
Defined.

Lemma load_merges_witness :
  (snd (load toy_pickle_load (fst (sync toy_pickle_dump disk0 pd_map)) pd_other) = None
   /\ forall k,
        lookup k (contents (fst (load toy_pickle_load
                                   (fst (sync toy_pickle_dump disk0 pd_map)) pd_other)))
        = match lookup k (rev [("a", PyInt 1); ("b", PyStr "x")]) with
          | Some v => Some v
          | None => lookup k [("b", PyStr "old"); ("c", PyNone)]
          end)
  /\ (snd (load toy_pickle_partial (fst (sync toy_pickle_dump disk0 pd_map)) pd_other)
      = Some (Reraised TypeError)
      /\ forall k,
           lookup k (contents (fst (load toy_pickle_partial
                                      (fst (sync toy_pickle_dump disk0 pd_map)) pd_other)))
           = match lookup k (rev [("a", PyInt 1)]) with
             | Some v => Some v
             | None => lookup k [("b", PyStr "old"); ("c", PyNone)]
             end).
Proof.
  split.
  - apply (proj1 (@load_merges string Any _ toy_pickle_load
                    (fst (sync toy_pickle_dump disk0 pd_map)) pd_other)
             (enc (PyDict [("a", PyInt 1); ("b", PyStr "x")]))
             [("a", PyInt 1); ("b", PyStr "x")] UpdateDone).
    + discriminate.
    + vm_compute. reflexivity.
    + apply toy_pickle_law. reflexivity.
  - apply (proj1 (@load_merges string Any _ toy_pickle_partial
                    (fst (sync toy_pickle_dump disk0 pd_map)) pd_other)
             (enc (PyDict [("a", PyInt 1); ("b", PyStr "x")]))
             [("a", PyInt 1)] (UpdateRaised TypeError)).
    + discriminate.
    + vm_compute. reflexivity.
    + reflexivity.
Defined.

(** A mapping whose format is not ["pickle"] has its file opened in text
    mode, where the [pickle.load] of the example fails: the failure is
    raised again and the mapping is as it was. *)
Example load_in_text_mode_fails :
  load toy_pickle_load (fst (sync toy_pickle_dump disk0 pd_map)) pd_json
  = (pd_json, Some (Reraised TypeError)).
Proof. vm_compute. reflexivity. Qed.

(** A checkpoint whose [channel_values] is a text: the membership test
    looks for the channel name in the text.  A channel that does not
    occur gets the ["empty"] blob and the checkpoint is committed; a
    channel that occurs makes [put] raise [TypeError]. *)
Example put_with_text_for_channel_values :
  let c := [("id", PyStr "1"); ("channel_values", PyStr "abc");
            ("channel_versions", PyDict [])] in
  snd (put [(0, c)] empty_saver root 0 PyNone [("x", VStr "v1")])
  = Ok (address "T" "" (Some "1"))
  /\ lookup ("T", "", "x", VStr "v1")
        (blobs (snd (fst (put [(0, c)] empty_saver root 0 PyNone [("x", VStr "v1")]))))
     = Some EMPTY
  /\ snd (put [(0, c)] empty_saver root 0 PyNone [("b", VStr "v1")]) = Raise TypeError
  /\ storage_at "T" "" (snd (fst (put [(0, c)] empty_saver root 0 PyNone [("b", VStr "v1")])))
     = [].
Proof. repeat split; vm_compute; reflexivity. Qed.

End ExtraChecks.
